(** * CKY parsing over a probabilistic grammar: a shallow embedding

    The development embeds [grammar.py] (the [Pcfg] object and
    [verify_grammar]) and [cky.py] (the chart validators, the recogniser
    [is_in_language], the Viterbi engine [parse_with_backpointers] and the
    tree reconstructor [get_tree]) and proves the properties stated about
    them.

    Python effects are kept explicit: a computation takes the grammar
    object, may raise, and hands the (possibly modified) grammar back. *)

From stdpp Require Import base option list strings gmap sets.
From Stdlib Require Import ZArith Lia.


(** ** Exceptions and results *)

Inductive exn : Type :=
  | IndexError | KeyError | ValueError | TypeError | RecursionError
  | OverflowError.

Inductive result (A : Type) : Type :=
  | Ok (a : A)
  | Raise (e : exn).
Arguments Ok {A} a.
Arguments Raise {A} e.

Definition result_bind {A B} (r : result A) (k : A → result B) : result B :=
  match r with Ok a => k a | Raise e => Raise e end.

(** ** Python floats

    The engine uses floats through a handful of primitives only.  They are
    taken as an interface; [FloatLaws] lists what the proofs use about them.
    The laws speak about log-scores only (finite values that are not
    positive), where IEEE arithmetic is an ordered structure with a monotone
    addition; they idealise floats in two respects: a sum of log-scores is
    again finite, and equal scores are identical values. *)

Class FloatOps : Type := {
  float : Type;
  float_eq_dec :: EqDecision float;
  fadd : float → float → float;          (* a + b *)
  fgt : float → float → bool;            (* a > b *)
  neg_inf : float;                       (* float("-Inf") *)
  fzero : float;                         (* 0.0 *)
  fone : float;                          (* 1.0 *)
  isfinite : float → bool;               (* math.isfinite *)
  log2 : float → result float;           (* math.log2, ValueError outside its domain *)
  fsum : list float → result float;      (* math.fsum: OverflowError, or
                                            ValueError on inf with -inf *)
  isclose1 : float → bool;               (* math.isclose(x, 1, rel_tol=1e-05) *)
}.

Section floats.
Context `{FloatOps}.

(** A probability in (0,1]. *)
Definition in_unit (p : float) : Prop := fgt p fzero = true ∧ fgt p fone = false.

(** A finite value that is not positive. *)
Definition logscore (s : float) : Prop := isfinite s = true ∧ fgt s fzero = false.

(** [a <= b] on scores: Python's [not (a > b)]. *)
Definition fle (a b : float) : Prop := fgt a b = false.

Class FloatLaws : Prop := {
  log2_unit p : in_unit p → ∃ s, log2 p = Ok s ∧ logscore s;
  fadd_logscore a b : logscore a → logscore b → logscore (fadd a b);
  neg_inf_not_finite : isfinite neg_inf = false;
  fgt_neg_inf a : isfinite a = true → fgt a neg_inf = true;
  fgt_irrefl a : logscore a → fgt a a = false;
  fgt_trans a b c :
    logscore a → logscore b → logscore c →
    fgt a b = true → fgt b c = true → fgt a c = true;
  fgt_total a b :
    logscore a → logscore b → fgt a b = false → fgt b a = false → a = b;
  fadd_mono_l a a' b :
    logscore a → logscore a' → logscore b →
    fle a a' → fle (fadd a b) (fadd a' b);
  fadd_mono_r a b b' :
    logscore a → logscore b → logscore b' →
    fle b b' → fle (fadd a b) (fadd a b');
}.
End floats.

(** ** Insertion-ordered dictionaries

    A Python [dict] whose iteration order is observed is an association
    list with distinct keys, in insertion order: assigning to a present key
    keeps its place, assigning to a new key appends it. *)

Section odict.
Context {K V : Type} `{EqDecision K}.

Fixpoint od_get (k : K) (d : list (K * V)) : option V :=
  match d with
  | [] => None
  | (k', v) :: d' => if decide (k = k') then Some v else od_get k d'
  end.

Fixpoint od_set (k : K) (v : V) (d : list (K * V)) : list (K * V) :=
  match d with
  | [] => [(k, v)]
  | (k', v') :: d' =>
      if decide (k = k') then (k, v) :: d' else (k', v') :: od_set k v d'
  end.

Definition od_keys (d : list (K * V)) : list K := d.*1.
End odict.

(** ** The grammar object ([grammar.py], class [Pcfg]) *)

Section grammar.
Context `{FloatOps}.

(** A rule is the tuple [(lhs, rhs, prob)] built by [parse_rule]. *)
Definition rule : Type := string * list string * float.

Definition r_lhs (r : rule) : string := r.1.1.
Definition r_rhs (r : rule) : list string := r.1.2.
Definition r_prob (r : rule) : float := r.2.

(** [rhs_to_rules] and [lhs_to_rules] are [defaultdict(list)]; the second
    is iterated by [verify_grammar], so its key order is kept. *)
Record Pcfg : Type := {
  rhs_to_rules : gmap (list string) (list rule);
  lhs_to_rules : list (string * list rule);
  startsymbol : option string;
}.

(** What a lookup [rhs_to_rules[k]] evaluates to. *)
Definition rules (g : Pcfg) (k : list string) : list rule :=
  default [] (rhs_to_rules g !! k).

(** [__init__]: two empty indices and no start symbol. *)
Definition Pcfg_init : Pcfg :=
  {| rhs_to_rules := ∅; lhs_to_rules := []; startsymbol := None |}.

(** One line of the grammar source as [read_rules] sees it after
    parsing: a rule, or a start-symbol declaration. *)
Inductive line : Type :=
  | RuleLine (r : rule)
  | StartLine (s : string).

(** [self.rhs_to_rules[rhs].append(rule);
     self.lhs_to_rules[lhs].append(rule)] and
    [self.startsymbol = startsymbol.strip()]. *)
Definition read_line (g : Pcfg) (l : line) : Pcfg :=
  match l with
  | RuleLine r =>
      {| rhs_to_rules :=
           <[r_rhs r := rules g (r_rhs r) ++ [r]]> (rhs_to_rules g);
         lhs_to_rules :=
           od_set (r_lhs r)
             (default [] (od_get (r_lhs r) (lhs_to_rules g)) ++ [r])
             (lhs_to_rules g);
         startsymbol := startsymbol g |}
  | StartLine s =>
      {| rhs_to_rules := rhs_to_rules g;
         lhs_to_rules := lhs_to_rules g;
         startsymbol := Some s |}
  end.

Definition read_rules (ls : list line) : Pcfg := foldl read_line Pcfg_init ls.
End grammar.

(** ** Computations over the grammar object

    [M A] is a computation that reads and updates the grammar object and
    either returns an [A] or raises. *)

Section monad.
Context `{FloatOps}.

Definition M (A : Type) : Type := Pcfg → result A * Pcfg.

Definition ret {A} (a : A) : M A := λ g, (Ok a, g).

Definition bind {A B} (m : M A) (k : A → M B) : M B :=
  λ g, match m g with
       | (Ok a, g') => k a g'
       | (Raise e, g') => (Raise e, g')
       end.

Definition raise {A} (e : exn) : M A := λ g, (Raise e, g).

Definition lift {A} (r : result A) : M A := λ g, (r, g).

(** [for x in xs: body], threading the local variables [s]. *)
Fixpoint for_ {A S} (xs : list A) (body : A → S → M S) (s : S) : M S :=
  match xs with
  | [] => ret s
  | x :: xs' => bind (body x s) (for_ xs' body)
  end.

(** [self.grammar.rhs_to_rules[k]]: a missing key is inserted with an
    empty list, as [defaultdict(list)] does. *)
Definition rhs_get (k : list string) : M (list rule) :=
  λ g, match rhs_to_rules g !! k with
       | Some rs => (Ok rs, g)
       | None =>
           (Ok [], {| rhs_to_rules := <[k := []]> (rhs_to_rules g);
                      lhs_to_rules := lhs_to_rules g;
                      startsymbol := startsymbol g |})
       end.

(** [self.grammar.startsymbol] *)
Definition get_startsymbol : M (option string) := λ g, (Ok (startsymbol g), g).
End monad.

Notation "x <- m ;; k" := (bind m (λ x, k))
  (at level 100, m at next level, right associativity).

(** [range(a, b)] *)
Definition range (a b : nat) : list nat := seq a (b - a).

(** [xs[i]] for a non-negative index. *)
Definition index {A} (xs : list A) (i : nat) : result A :=
  match xs !! i with Some x => Ok x | None => Raise IndexError end.

(** [xs[-1]] *)
Definition index_last {A} (xs : list A) : result A :=
  match last xs with Some x => Ok x | None => Raise IndexError end.

(** [pi[i][j]] and [pi[i][j] = v] on a list of lists. *)
Definition getitem2 {A} (pi : list (list A)) (i j : nat) : result A :=
  result_bind (index pi i) (λ row, index row j).

Definition setitem2 {A} (pi : list (list A)) (i j : nat) (v : A)
    : result (list (list A)) :=
  match pi !! i with
  | Some row =>
      if decide (j < length row) then Ok (<[i := <[j := v]> row]> pi)
      else Raise IndexError
  | None => Raise IndexError
  end.

(** ** Charts ([cky.py])

    A chart is a dict from spans [(i,j)] to inner dicts from nonterminals
    to cell values.  The inner dicts are iterated by the engine, so they
    keep their insertion order. *)

(** A cell of the backpointer chart: the matched token, a pair of
    backpointers [((x,i,k),(y,k,j))], or the placeholder
    [((0,0,0),(0,0,0))]. *)
Inductive bp : Type :=
  | Leaf (tok : string)
  | Split (l r : string * nat * nat)
  | Sentinel.

Global Instance bp_eq_dec : EqDecision bp.
Proof. solve_decision. Defined.

Section charts.
Context {V : Type}.

(** [ch[sp]] *)
Definition getcell (ch : gmap (nat * nat) (list (string * V))) (sp : nat * nat)
    : result (list (string * V)) :=
  match ch !! sp with Some c => Ok c | None => Raise KeyError end.

(** [ch[sp][a]] *)
Definition getentry (ch : gmap (nat * nat) (list (string * V))) (sp : nat * nat)
    (a : string) : result V :=
  result_bind (getcell ch sp)
    (λ c, match od_get a c with Some v => Ok v | None => Raise KeyError end).

(** [ch[sp][a] = v] *)
Definition setcell (ch : gmap (nat * nat) (list (string * V))) (sp : nat * nat)
    (a : string) (v : V) : result (gmap (nat * nat) (list (string * V))) :=
  match ch !! sp with
  | Some c => Ok (<[sp := od_set a v c]> ch)
  | None => Raise KeyError
  end.
End charts.

(** The order in which [set([...])] yields the pairs put into it.  Python
    fixes it by hashing, so it is left open: any enumeration of the
    elements without repetition. *)
Class SetOrder `{FloatOps} : Type := {
  set_list : list (string * float) → list (string * float);
  set_list_NoDup l : NoDup (set_list l);
  set_list_elem l x : x ∈ set_list l ↔ x ∈ l;
}.

(** ** The engines ([cky.py], class [CkyParser]) *)

Section engine.
Context `{FloatOps}.

(** [is_in_language].  The rows of [pi] are distinct lists; the sets
    they hold are never updated in place ([union] builds a new set), so
    the initial sharing of one empty set is not observable.  Sets of
    nonterminals are finite sets: the order in which they are iterated
    only decides the order of the grammar lookups. *)
Definition is_in_language (tokens : list string) : M bool :=
  let n := length tokens in
  init <- for_ tokens (λ tok acc,
            rs <- rhs_get [tok] ;;
            ret (acc ++ [list_to_set (r_lhs <$> rs) : gset string])) [] ;;
  let pi := replicate n (replicate (n + 1) (∅ : gset string)) in
  pi <- for_ (range 0 n) (λ i pi,
          s <- lift (index init i) ;;
          lift (setitem2 pi i (i + 1) s)) pi ;;
  pi <- for_ (range 2 (n + 1)) (λ l pi,
          for_ (range 0 (n - l + 1)) (λ i pi,
            let j := i + l in
            for_ (range (i + 1) j) (λ k pi,
              pik <- lift (getitem2 pi i k) ;;
              M <- for_ (elements pik) (λ b acc,
                     pkj <- lift (getitem2 pi k j) ;;
                     for_ (elements pkj) (λ c acc,
                       rs <- rhs_get [b; c] ;;
                       ret (acc ++ (r_lhs <$> rs))) acc) [] ;;
              pij <- lift (getitem2 pi i j) ;;
              lift (setitem2 pi i j (pij ∪ list_to_set M))) pi) pi) pi ;;
  s <- get_startsymbol ;;
  row <- lift (index pi 0) ;;
  cell <- lift (index_last row) ;;
  ret (match s with Some s => bool_decide (s ∈ cell) | None => false end).

Context `{!SetOrder}.

(** [parse_with_backpointers].  [tp] is the pair of local variables
    [(tb, pb)]. *)
Definition parse_with_backpointers (tokens : list string)
    : M (gmap (nat * nat) (list (string * bp)) *
         gmap (nat * nat) (list (string * float))) :=
  let n := length tokens in
  init <- for_ tokens (λ tok acc,
            rs <- rhs_get [tok] ;;
            ret (acc ++ [set_list ((λ r, (r_lhs r, r_prob r)) <$> rs)])) [] ;;
  tp <- for_ (range 0 n) (λ i tp,
          let tb := <[(i, i + 1) := []]> tp.1 in
          let pb := <[(i, i + 1) := []]> tp.2 in
          ini <- lift (index init i) ;;
          for_ ini (λ ab tp,
            tok <- lift (index tokens i) ;;
            tb <- lift (setcell tp.1 (i, i + 1) ab.1 (Leaf tok)) ;;
            s <- lift (log2 ab.2) ;;
            pb <- lift (setcell tp.2 (i, i + 1) ab.1 s) ;;
            ret (tb, pb)) (tb, pb)) (∅, ∅) ;;
  for_ (range 2 (n + 1)) (λ length tp,
    for_ (range 0 (n - length + 1)) (λ i tp,
      let j := i + length in
      let pb := <[(i, j) := []]> tp.2 in
      let tb := <[(i, j) := []]> tp.1 in
      L <- for_ (range (i + 1) j) (λ k acc,
             cik <- lift (getcell pb (i, k)) ;;
             for_ (od_keys cik) (λ x acc,
               ckj <- lift (getcell pb (k, j)) ;;
               for_ (od_keys ckj) (λ y acc,
                 rs <- rhs_get [x; y] ;;
                 ret (acc ++ (r_lhs <$> rs))) acc) acc) [] ;;
      tp <- for_ L (λ l tp,
              pb <- lift (setcell tp.2 (i, j) l neg_inf) ;;
              tb <- lift (setcell tp.1 (i, j) l Sentinel) ;;
              ret (tb, pb)) (tb, pb) ;;
      for_ (range (i + 1) j) (λ k tp,
        cik <- lift (getcell tp.2 (i, k)) ;;
        for_ (od_keys cik) (λ x tp,
          ckj <- lift (getcell tp.2 (k, j)) ;;
          for_ (od_keys ckj) (λ y tp,
            rs <- rhs_get [x; y] ;;
            for_ rs (λ r tp,
              lp <- lift (log2 (r_prob r)) ;;
              a <- lift (getentry tp.2 (i, k) x) ;;
              b <- lift (getentry tp.2 (k, j) y) ;;
              let prob := fadd (fadd lp a) b in
              cur <- lift (getentry tp.2 (i, j) (r_lhs r)) ;;
              if fgt prob cur then
                pb <- lift (setcell tp.2 (i, j) (r_lhs r) prob) ;;
                tb <- lift (setcell tp.1 (i, j) (r_lhs r)
                              (Split (x, i, k) (y, k, j))) ;;
                ret (tb, pb)
              else ret tp) tp) tp) tp) tp) tp) tp.
End engine.

(** ** Tree reconstruction ([get_tree]) *)

(** The tuples [(nt, tok)] and [(nt, left, right)]. *)
Inductive tree : Type :=
  | TLeaf (nt tok : string)
  | TNode (nt : string) (l r : tree).

Fixpoint leaves (t : tree) : list string :=
  match t with
  | TLeaf _ tok => [tok]
  | TNode _ l r => leaves l ++ leaves r
  end.

(** [get_tree] recurses along the backpointers of an arbitrary chart; the
    recursion depth is bounded by [fuel], exhausting it is Python's
    [RecursionError].  On the placeholder, [x[0][2]] and [x[0][0]] are the
    integer [0], and no cell has the integer [0] among its (string) keys:
    the recursive lookup raises [KeyError]. *)
Fixpoint get_tree (fuel : nat) (chart : gmap (nat * nat) (list (string * bp)))
    (i j : nat) (nt : string) : result tree :=
  match fuel with
  | 0 => Raise RecursionError
  | S fuel =>
      result_bind (getentry chart (i, j) nt) (λ x,
        match x with
        | Split (lnt, _, lk) (rnt, _, _) =>
            result_bind (get_tree fuel chart i lk lnt) (λ l,
            result_bind (get_tree fuel chart lk j rnt) (λ r,
            Ok (TNode nt l r)))
        | Leaf tok => Ok (TLeaf nt tok)
        | Sentinel => Raise KeyError
        end)
  end.

Module Fixed.
(** A small exact model of the float interface: fixed-point numbers
    [m / 1024] and minus infinity.  The logarithm is rounded down to an
    integer; it is exact on powers of two. *)
Inductive fx : Type := NInf | Fx (m : Z).

Global Instance fx_eq_dec : EqDecision fx.
Proof. solve_decision. Defined.

Definition fx_add (a b : fx) : fx :=
  match a, b with
  | Fx x, Fx y => Fx (x + y)
  | _, _ => NInf
  end.

Definition fx_gt (a b : fx) : bool :=
  match a, b with
  | Fx x, Fx y => (y <? x)%Z
  | Fx _, NInf => true
  | NInf, _ => false
  end.

Definition fx_log2 (a : fx) : result fx :=
  match a with
  | Fx m => if (0 <? m)%Z then Ok (Fx ((Z.log2 m - 10) * 1024)) else Raise ValueError
  | NInf => Raise ValueError
  end.

Definition fx_isclose1 (a : fx) : bool :=
  match a with
  | Fx m => (Z.abs (m - 1024) * 100000 <=? Z.max (Z.abs m) 1024)%Z
  | NInf => false
  end.

Global Instance fx_ops : FloatOps := {|
  float := fx;
  fadd := fx_add;
  fgt := fx_gt;
  neg_inf := NInf;
  fzero := Fx 0;
  fone := Fx 1024;
  isfinite := λ a, match a with Fx _ => true | NInf => false end;
  log2 := fx_log2;
  fsum := λ l, Ok (foldr fx_add (Fx 0) l);
  isclose1 := fx_isclose1;
|}.

(** [set([...])] iterated in the order of the last occurrences. *)
Global Program Instance fx_set_order : SetOrder := {|
  set_list := remove_dups;
|}.
Next Obligation. intros l. apply NoDup_remove_dups. Qed.
Next Obligation. intros l x. apply elem_of_remove_dups. Qed.

(** [S -> NP VP ;1.0], [NP -> dogs ;1.0], [VP -> bark ;1.0], start [S]. *)
Definition dogs_bark : Pcfg :=
  read_rules
    [ RuleLine ("S", ["NP"; "VP"], Fx 1024);
      RuleLine ("NP", ["dogs"], Fx 1024);
      RuleLine ("VP", ["bark"], Fx 1024);
      StartLine "S" ].
End Fixed.


(** ** Specification side: derivations in Chomsky normal form *)

Section derivations.
Context `{FloatOps}.

(** [tokens[i:j]] *)
Definition slice (tokens : list string) (i j : nat) : list string :=
  take (j - i) (drop i tokens).

(** The grammar has a rule [A -> rhs] with probability [p]: it is listed
    under [rhs] in the index by right-hand side. *)
Definition has_rule (g : Pcfg) (A : string) (rhs : list string) (p : float) : Prop :=
  ∃ r, r ∈ rules g rhs ∧ r_lhs r = A ∧ r_prob r = p.

(** A derivation: a unary rule rewriting a nonterminal to one token, or a
    binary rule over two sub-derivations.  Each node records the
    probability of the rule used. *)
Inductive dtree : Type :=
  | DLeaf (A : string) (p : float) (tok : string)
  | DNode (A : string) (p : float) (l r : dtree).

Definition root (t : dtree) : string :=
  match t with DLeaf A _ _ => A | DNode A _ _ _ => A end.

Fixpoint yield (t : dtree) : list string :=
  match t with
  | DLeaf _ _ tok => [tok]
  | DNode _ _ l r => yield l ++ yield r
  end.

Fixpoint derivation (g : Pcfg) (t : dtree) : Prop :=
  match t with
  | DLeaf A p tok => has_rule g A [tok] p
  | DNode A p l r =>
      has_rule g A [root l; root r] p ∧ derivation g l ∧ derivation g r
  end.

(** [A] derives the token sequence [w]. *)
Definition derives (g : Pcfg) (A : string) (w : list string) : Prop :=
  ∃ t, derivation g t ∧ root t = A ∧ yield t = w.

(** The sum of the base-2 logarithms of the probabilities of the rules
    used, added in the order rule, left part, right part. *)
Fixpoint score (t : dtree) : result float :=
  match t with
  | DLeaf _ p _ => log2 p
  | DNode _ p l r =>
      result_bind (log2 p) (λ lp,
      result_bind (score l) (λ sl,
      result_bind (score r) (λ sr,
      Ok (fadd (fadd lp sl) sr))))
  end.

(** Every rule listed in the index by right-hand side has a probability
    in (0,1]. *)
Definition unit_probs (g : Pcfg) : Prop :=
  ∀ k r, r ∈ rules g k → in_unit (r_prob r).
End derivations.

(** ** Reasoning about computations *)

Section logic.
Context `{FloatOps}.

(** [g] is [g0] with, possibly, further keys in [rhs_to_rules] that are
    bound to the empty list: every lookup gives what it gave in [g0]. *)
Record gext (g0 g : Pcfg) : Prop := {
  gext_lhs : lhs_to_rules g = lhs_to_rules g0;
  gext_start : startsymbol g = startsymbol g0;
  gext_rules k : rules g k = rules g0 k;
  gext_keys k : is_Some (rhs_to_rules g0 !! k) → is_Some (rhs_to_rules g !! k);
}.

Lemma gext_refl g : gext g g.
Proof. by constructor. Qed.

Lemma gext_trans g1 g2 g3 : gext g1 g2 → gext g2 g3 → gext g1 g3.
Proof.
  intros [a1 b1 c1 d1] [a2 b2 c2 d2]. constructor.
  - congruence.
  - congruence.
  - intros k. by rewrite c2.
  - intros k Hk. by apply d2, d1.
Qed.

Lemma gext_rhs_get g k : gext g (rhs_get k g).2 ∧ (rhs_get k g).1 = Ok (rules g k).
Proof.
  unfold rhs_get, rules. destruct (rhs_to_rules g !! k) as [rs|] eqn:E; simpl.
  - split; [apply gext_refl | done].
  - split; [|done]. constructor; simpl; try done.
    + intros k'. unfold rules; simpl.
      destruct (decide (k = k')) as [->|Hne].
      * by rewrite lookup_insert_eq, E.
      * by rewrite lookup_insert_ne.
    + intros k' Hk'. destruct (decide (k = k')) as [->|Hne].
      * rewrite lookup_insert_eq. eauto.
      * by rewrite lookup_insert_ne.
Qed.

(** *** Frame: whatever the outcome, the grammar is only extended *)

Definition frame {A} (m : M A) : Prop := ∀ g, gext g (m g).2.

Lemma frame_ret {A} (a : A) : frame (ret a).
Proof. intros g. apply gext_refl. Qed.

Lemma frame_lift {A} (r : result A) : frame (lift r).
Proof. intros g. apply gext_refl. Qed.

Lemma frame_get_startsymbol : frame get_startsymbol.
Proof. intros g. apply gext_refl. Qed.

Lemma frame_rhs_get k : frame (rhs_get k).
Proof. intros g. apply gext_rhs_get. Qed.

Lemma frame_bind {A B} (m : M A) (k : A → M B) :
  frame m → (∀ a, frame (k a)) → frame (bind m k).
Proof.
  intros Hm Hk g. unfold bind. specialize (Hm g).
  destruct (m g) as [[a|e] g']; simpl in *; [|done].
  eapply gext_trans; [exact Hm | apply Hk].
Qed.

Lemma frame_for {A S} (xs : list A) (body : A → S → M S) s :
  (∀ x s, frame (body x s)) → frame (for_ xs body s).
Proof.
  intros Hb. revert s. induction xs as [|x xs IH]; intros s; simpl.
  - apply frame_ret.
  - apply frame_bind; [apply Hb | apply IH].
Qed.

(** *** Weakest preconditions for normal termination

    Started from any extension of [g0], the computation returns a value
    satisfying [Q] and leaves an extension of [g0]. *)

Definition wp {A} (g0 : Pcfg) (m : M A) (Q : A → Prop) : Prop :=
  ∀ g, gext g0 g → ∃ a g', m g = (Ok a, g') ∧ gext g0 g' ∧ Q a.

Lemma wp_mono {A} g0 (m : M A) (Q Q' : A → Prop) :
  wp g0 m Q → (∀ a, Q a → Q' a) → wp g0 m Q'.
Proof.
  intros Hm HQ g Hg. destruct (Hm g Hg) as (a & g' & E & Hg' & Ha). eauto 6.
Qed.

Lemma wp_ret {A} g0 (a : A) (Q : A → Prop) : Q a → wp g0 (ret a) Q.
Proof. intros Ha g Hg. by exists a, g. Qed.

Lemma wp_lift {A} g0 (r : result A) a (Q : A → Prop) :
  r = Ok a → Q a → wp g0 (lift r) Q.
Proof. intros -> Ha g Hg. by exists a, g. Qed.

Lemma wp_get_startsymbol g0 (Q : option string → Prop) :
  Q (startsymbol g0) → wp g0 get_startsymbol Q.
Proof.
  intros HQ g Hg. exists (startsymbol g), g. split; [done|]. split; [done|].
  by rewrite (gext_start _ _ Hg).
Qed.

Lemma wp_rhs_get g0 k (Q : list rule → Prop) :
  Q (rules g0 k) → wp g0 (rhs_get k) Q.
Proof.
  intros HQ g Hg. destruct (gext_rhs_get g k) as [Hext Hres].
  destruct (rhs_get k g) as [r g'] eqn:E; simpl in *. subst r.
  exists (rules g k), g'. split; [done|]. split.
  - by eapply gext_trans.
  - by rewrite (gext_rules _ _ Hg).
Qed.

Lemma wp_bind {A B} g0 (m : M A) (k : A → M B) (Q : B → Prop) :
  wp g0 m (λ a, wp g0 (k a) Q) → wp g0 (bind m k) Q.
Proof.
  intros Hm g Hg. destruct (Hm g Hg) as (a & g' & E & Hg' & Hk).
  destruct (Hk g' Hg') as (b & g'' & E' & Hg'' & Hb).
  exists b, g''. unfold bind. rewrite E. done.
Qed.

(** A loop with an invariant indexed by the elements already visited. *)
Lemma wp_for {A S} g0 (I : list A → S → Prop) (xs : list A)
    (body : A → S → M S) (s : S) :
  I [] s →
  (∀ pre x post s, xs = pre ++ x :: post → I pre s →
     wp g0 (body x s) (I (pre ++ [x]))) →
  wp g0 (for_ xs body s) (I xs).
Proof.
  intros H0 Hstep.
  cut (∀ post pre s, xs = pre ++ post → I pre s → wp g0 (for_ post body s) (I xs)).
  { intros Hc. by apply (Hc xs []). }
  induction post as [|x post IH]; intros pre s' Hxs Hpre; simpl.
  - apply wp_ret. by rewrite Hxs, app_nil_r.
  - apply wp_bind. eapply wp_mono; [by eapply Hstep|].
    intros s'' Hs''. apply (IH (pre ++ [x])); [|done].
    by rewrite <-app_assoc.
Qed.

(** A loop whose body computes a pure step [f] while [P] holds. *)
Lemma wp_for_fold {A S} g0 (P : S → Prop) (f : S → A → S) (xs : list A)
    (body : A → S → M S) (s : S) :
  P s →
  (∀ x s, x ∈ xs → P s → wp g0 (body x s) (λ s', s' = f s x ∧ P s')) →
  wp g0 (for_ xs body s) (λ s', s' = foldl f s xs ∧ P s').
Proof.
  intros Hs Hstep.
  eapply wp_mono.
  - apply (wp_for g0 (λ pre s', s' = foldl f s pre ∧ P s')); [done|].
    intros pre x post s' -> [-> HP].
    eapply wp_mono; [apply Hstep; [|done]|].
    { apply elem_of_app; right. by left. }
    intros s'' [-> HP']. split; [|done]. by rewrite foldl_app.
  - done.
Qed.

(** A loop over [range a b] with an invariant indexed by the next value. *)
Lemma wp_for_range {St} g0 (I : nat → St → Prop) (a b : nat)
    (body : nat → St → M St) (s : St) :
  I a s →
  (∀ i s, a ≤ i < b → I i s → wp g0 (body i s) (I (S i))) →
  wp g0 (for_ (range a b) body s) (I (a `max` b)).
Proof.
  intros H0 Hstep. unfold range.
  eapply wp_mono.
  - apply (wp_for g0 (λ pre s', I (a + length pre) s')).
    + simpl. by rewrite Nat.add_0_r.
    + intros pre x post s' Hxs Hpre.
      assert (x = a + length pre ∧ a + length pre < b) as [-> Hlt].
      { assert (seq a (b - a) !! length pre = Some x) as Hl.
        { rewrite Hxs. by rewrite lookup_app_r, Nat.sub_diag by lia. }
        apply lookup_seq in Hl. lia. }
      eapply wp_mono; [apply Hstep; [lia|done]|].
      intros s''. rewrite length_app. simpl.
      by replace (a + (length pre + 1)) with (S (a + length pre)) by lia.
  - intros s'. rewrite length_seq.
    by replace (a + (b - a)) with (a `max` b) by lia.
Qed.
End logic.

(** ** Slices and the shape of derivations over a span *)

Section spans.
Context `{FloatOps}.

Lemma slice_length toks i j :
  i ≤ j → j ≤ length toks → length (slice toks i j) = j - i.
Proof. intros. unfold slice. rewrite length_take, length_drop. lia. Qed.

Lemma slice_app toks i k j :
  i ≤ k → k ≤ j → slice toks i j = slice toks i k ++ slice toks k j.
Proof.
  intros Hik Hkj. unfold slice.
  replace (j - i) with ((k - i) + (j - k)) by lia.
  rewrite <-take_take_drop. f_equal.
  rewrite drop_drop. by replace (i + (k - i)) with k by lia.
Qed.

Lemma slice_one toks i tok : toks !! i = Some tok → slice toks i (i + 1) = [tok].
Proof.
  intros Hi. unfold slice. replace (i + 1 - i) with 1 by lia.
  rewrite <-(take_drop_middle toks i tok Hi) at 1.
  rewrite drop_app_length'; [done|].
  rewrite length_take. apply lookup_lt_Some in Hi. lia.
Qed.

Lemma slice_full toks : slice toks 0 (length toks) = toks.
Proof. unfold slice. rewrite drop_0, Nat.sub_0_r. apply firstn_all. Qed.

Lemma slice_split toks i j w1 w2 :
  i ≤ j → j ≤ length toks → slice toks i j = w1 ++ w2 →
  w1 = slice toks i (i + length w1) ∧ w2 = slice toks (i + length w1) j ∧
  i + length w1 + length w2 = j.
Proof.
  intros Hij Hj Hs.
  assert (length w1 + length w2 = j - i) as Hlen.
  { rewrite <-length_app, <-Hs. by apply slice_length. }
  rewrite (slice_app toks i (i + length w1) j) in Hs by lia.
  apply app_inj_1 in Hs as [-> ->]; [split; [done|split; [done|lia]]|].
  rewrite slice_length; lia.
Qed.

Lemma yield_length t : 0 < length (yield t).
Proof. induction t; simpl; [lia|]. rewrite length_app. lia. Qed.

Lemma has_rule_lhs g A rhs :
  A ∈ r_lhs <$> rules g rhs ↔ ∃ p, has_rule g A rhs p.
Proof.
  rewrite list_elem_of_fmap. unfold has_rule. split.
  - intros (r & -> & Hr). exists (r_prob r), r. done.
  - intros (p & r & Hr & <- & _). by exists r.
Qed.

(** A derivation of one token is a unary rule on that token. *)
Lemma derivation_leaf toks i t :
  i < length toks → yield t = slice toks i (i + 1) →
  ∃ A p tok, t = DLeaf A p tok ∧ toks !! i = Some tok.
Proof.
  intros Hi Hy.
  destruct (lookup_lt_is_Some_2 toks i Hi) as [tok Htok].
  rewrite (slice_one _ _ _ Htok) in Hy.
  destruct t as [A p tok'|A p l r]; simpl in Hy.
  - exists A, p, tok'. split; [done|]. congruence.
  - apply (f_equal length) in Hy. rewrite length_app in Hy. simpl in Hy.
    pose proof (yield_length l). pose proof (yield_length r). lia.
Qed.

(** A derivation of a longer span is a binary rule at some split point. *)
Lemma derivation_node toks i j t :
  i + 2 ≤ j → j ≤ length toks → yield t = slice toks i j →
  ∃ A p l r k, t = DNode A p l r ∧ i < k < j ∧
    yield l = slice toks i k ∧ yield r = slice toks k j.
Proof.
  intros Hij Hj Hy. destruct t as [A p tok|A p l r]; simpl in Hy.
  - apply (f_equal length) in Hy. rewrite slice_length in Hy by lia.
    simpl in Hy. lia.
  - symmetry in Hy. apply slice_split in Hy as (Hl & Hr & Hlen); [|lia|lia].
    exists A, p, l, r, (i + length (yield l)). split; [done|].
    pose proof (yield_length l). pose proof (yield_length r).
    split; [lia|]. split; congruence.
Qed.

Lemma derives_leaf g toks i tok A :
  toks !! i = Some tok →
  derives g A (slice toks i (i + 1)) ↔ A ∈ r_lhs <$> rules g [tok].
Proof.
  intros Htok. rewrite has_rule_lhs. split.
  - intros (t & Ht & Hr & Hy).
    apply derivation_leaf in Hy as (A' & p & tok' & -> & Htok');
      [|by eapply lookup_lt_Some].
    simpl in *. subst A'. exists p. congruence.
  - intros (p & Hp). exists (DLeaf A p tok). simpl.
    split; [done|]. split; [done|]. symmetry. by apply slice_one.
Qed.

Lemma derives_node g toks i j A :
  i + 2 ≤ j → j ≤ length toks →
  derives g A (slice toks i j) ↔
  ∃ k B C, i < k < j ∧ derives g B (slice toks i k) ∧
           derives g C (slice toks k j) ∧ A ∈ r_lhs <$> rules g [B; C].
Proof.
  intros Hij Hj. split.
  - intros (t & Ht & Hr & Hy).
    apply derivation_node in Hy as (A' & p & l & r & k & -> & Hk & Hl & Hr');
      [|done|done].
    simpl in *. subst A'. destruct Ht as (Hrule & Htl & Htr).
    exists k, (root l), (root r). split; [done|].
    split; [by exists l|]. split; [by exists r|].
    apply has_rule_lhs. by exists p.
  - intros (k & B & C & Hk & (l & Hl & <- & Hyl) & (r & Hr & <- & Hyr) & HA).
    apply has_rule_lhs in HA as [p Hp].
    exists (DNode A p l r). simpl. split; [done|]. split; [done|].
    rewrite Hyl, Hyr. symmetry. apply slice_app; lia.
Qed.

(** Derivability only depends on which left-hand sides are listed under
    each right-hand side. *)
Lemma derives_same_shape g1 g2 A w :
  (∀ k, r_lhs <$> rules g1 k = r_lhs <$> rules g2 k) →
  derives g1 A w → derives g2 A w.
Proof.
  intros Hsh (t & Ht & <- & <-).
  induction t as [A p tok|A p l IHl r IHr]; simpl in Ht.
  - assert (∃ p', has_rule g2 A [tok] p') as [p' Hp'].
    { apply has_rule_lhs. rewrite <-Hsh. apply has_rule_lhs. eauto. }
    by exists (DLeaf A p' tok).
  - destruct Ht as (Hrule & Hl & Hr).
    destruct (IHl Hl) as (l' & Hl' & Hrl & Hyl).
    destruct (IHr Hr) as (r' & Hr' & Hrr & Hyr).
    assert (∃ p', has_rule g2 A [root l; root r] p') as [p' Hp'].
    { apply has_rule_lhs. rewrite <-Hsh. apply has_rule_lhs. eauto. }
    exists (DNode A p' l' r'). simpl. rewrite Hrl, Hrr, Hyl, Hyr. done.
Qed.
End spans.

(** ** The recogniser computes derivability *)

Section recogniser.
Context `{FloatOps}.

(** The table [pi] has [n] rows of [n + 1] cells. *)
Definition shape (n : nat) (pi : list (list (gset string))) : Prop :=
  length pi = n ∧ Forall (λ row, length row = n + 1) pi.

Definition cellset (pi : list (list (gset string))) (i j : nat) : gset string :=
  default ∅ (pi !! i ≫= (.!! j)).

Lemma shape_replicate n : shape n (replicate n (replicate (n + 1) ∅)).
Proof.
  split; [by rewrite length_replicate|].
  apply Forall_replicate. by rewrite length_replicate.
Qed.

Lemma cellset_replicate n i j : cellset (replicate n (replicate (n + 1) ∅)) i j = ∅.
Proof.
  unfold cellset.
  destruct (replicate n (replicate (n + 1) ∅) !! i) as [row|] eqn:E; [|done].
  apply lookup_replicate in E as [-> _]. simpl.
  destruct (replicate (n + 1) (∅ : gset string) !! j) as [c|] eqn:E'; [|done].
  by apply lookup_replicate in E' as [-> _].
Qed.

Lemma getitem2_shape n pi i j :
  shape n pi → i < n → j ≤ n → getitem2 pi i j = Ok (cellset pi i j).
Proof.
  intros [Hlen Hrows] Hi Hj. unfold getitem2, cellset, index.
  destruct (lookup_lt_is_Some_2 pi i) as [row Hrow]; [lia|].
  rewrite Hrow. simpl.
  pose proof (Forall_lookup_1 _ _ _ _ Hrows Hrow) as Hl. simpl in Hl.
  destruct (lookup_lt_is_Some_2 row j) as [c Hc]; [lia|].
  by rewrite Hc.
Qed.

Lemma setitem2_shape n pi i j v :
  shape n pi → i < n → j ≤ n →
  ∃ pi', setitem2 pi i j v = Ok pi' ∧ shape n pi' ∧ cellset pi' i j = v ∧
         ∀ i' j', (i', j') ≠ (i, j) → cellset pi' i' j' = cellset pi i' j'.
Proof.
  intros [Hlen Hrows] Hi Hj. unfold setitem2.
  destruct (lookup_lt_is_Some_2 pi i) as [row Hrow]; [lia|].
  rewrite Hrow.
  pose proof (Forall_lookup_1 _ _ _ _ Hrows Hrow) as Hl. simpl in Hl.
  rewrite decide_True by lia.
  eexists. split; [done|]. split; [|split].
  - split; [by rewrite length_insert|].
    apply Forall_insert; [done|]. by rewrite length_insert.
  - unfold cellset. rewrite list_lookup_insert_eq by lia. simpl.
    by rewrite list_lookup_insert_eq by lia.
  - intros i' j' Hne. unfold cellset.
    destruct (decide (i' = i)) as [->|Hi'].
    + rewrite list_lookup_insert_eq by lia. rewrite Hrow. simpl.
      rewrite list_lookup_insert_ne; [done|]. congruence.
    + by rewrite list_lookup_insert_ne.
Qed.

(** The comprehension building [M] at a split point. *)
Lemma wp_join g0 (pi : list (list (gset string))) n k j (pik : gset string) :
  shape n pi → k < n → j ≤ n →
  wp g0
    (for_ (elements pik) (λ b acc,
       pkj <- lift (getitem2 pi k j) ;;
       for_ (elements pkj) (λ c acc,
         rs <- rhs_get [b; c] ;;
         ret (acc ++ (r_lhs <$> rs))) acc) [])
    (λ M, ∀ A, A ∈ M ↔
       ∃ B C, B ∈ pik ∧ C ∈ cellset pi k j ∧ A ∈ r_lhs <$> rules g0 [B; C]).
Proof.
  intros Hsh Hk Hj.
  eapply wp_mono.
  - apply (wp_for g0 (λ pre (M : list string), ∀ A, A ∈ M ↔
      ∃ B C, B ∈ pre ∧ C ∈ cellset pi k j ∧ A ∈ r_lhs <$> rules g0 [B; C])).
    + intros A. split; [by intros ?%elem_of_nil|].
      by intros (B & C & ?%elem_of_nil & _).
    + intros pre b post acc Hxs Hacc.
      apply wp_bind. eapply wp_lift; [by eapply getitem2_shape|].
      eapply wp_mono.
      * apply (wp_for g0 (λ pre' (M : list string), ∀ A, A ∈ M ↔
          A ∈ acc ∨ ∃ C, C ∈ pre' ∧ A ∈ r_lhs <$> rules g0 [b; C])).
        -- intros A. split; [by left|]. intros [?|(C & ?%elem_of_nil & _)]; done.
        -- intros pre' c post' acc' Hxs' Hacc'.
           apply wp_bind, wp_rhs_get, wp_ret. intros A.
           rewrite elem_of_app, Hacc'. split.
           ++ intros [[?|(C & HC & HA)]|HA]; [by left| |].
              ** right. exists C. split; [apply elem_of_app; by left|done].
              ** right. exists c. split; [|done].
                 apply elem_of_app; right. by apply list_elem_of_singleton.
           ++ intros [?|(C & [HC|HC%list_elem_of_singleton]%elem_of_app & HA)].
              ** by left; left.
              ** left; right. eauto.
              ** subst C. by right.
      * simpl. intros M HM A. rewrite HM, Hacc. split.
        -- intros [(B & C & HB & HC & HA)|(C & HC & HA)].
           ++ exists B, C. split; [apply elem_of_app; by left|done].
           ++ exists b, C.
              split; [apply elem_of_app; right; by apply list_elem_of_singleton|].
              split; [|done]. by apply elem_of_elements.
        -- intros (B & C & [HB|HB%list_elem_of_singleton]%elem_of_app & HC & HA).
           ++ left. eauto.
           ++ subst B. right. exists C. split; [|done]. by apply elem_of_elements.
  - simpl. intros M HM A. rewrite HM.
    split; intros (B & C & HB & HC & HA); exists B, C;
      (split; [by apply elem_of_elements|done]).
Qed.

(** The cells for which [P] holds are final and hold the derivable
    nonterminals of their span; the others are still empty. *)
Definition table_inv (g0 : Pcfg) (toks : list string) (P : nat → nat → Prop)
    (pi : list (list (gset string))) : Prop :=
  shape (length toks) pi ∧
  ∀ i j, i < length toks → j ≤ length toks →
    (P i j → ∀ A, A ∈ cellset pi i j ↔ derives g0 A (slice toks i j)) ∧
    (¬ P i j → cellset pi i j = ∅).

(** Spans of length below [l], and those of length [l] starting before [i0]. *)
Definition filled (l i0 i j : nat) : Prop :=
  i < j ∧ (j - i < l ∨ (j - i = l ∧ i < i0)).

Lemma wp_span g0 toks l i pi :
  2 ≤ l → i + l ≤ length toks →
  table_inv g0 toks (filled l i) pi →
  wp g0
    (for_ (range (i + 1) (i + l)) (λ k pi,
       pik <- lift (getitem2 pi i k) ;;
       M <- for_ (elements pik) (λ b acc,
              pkj <- lift (getitem2 pi k (i + l)) ;;
              for_ (elements pkj) (λ c acc,
                rs <- rhs_get [b; c] ;;
                ret (acc ++ (r_lhs <$> rs))) acc) [] ;;
       pij <- lift (getitem2 pi i (i + l)) ;;
       lift (setitem2 pi i (i + l) (pij ∪ list_to_set M))) pi)
    (table_inv g0 toks (filled l (S i))).
Proof.
  intros Hl Hil [Hsh Hinv]. set (n := length toks) in *. set (j := i + l).
  eapply wp_mono.
  - apply (wp_for_range g0 (λ k pi',
      shape n pi' ∧
      (∀ i' j', (i', j') ≠ (i, j) → cellset pi' i' j' = cellset pi i' j') ∧
      ∀ A, A ∈ cellset pi' i j ↔
        ∃ k' B C, i < k' < k ∧ B ∈ cellset pi i k' ∧ C ∈ cellset pi k' j ∧
                  A ∈ r_lhs <$> rules g0 [B; C])).
    + split; [done|]. split; [done|]. intros A.
      destruct (Hinv i j) as [_ Hempty]; [lia|lia|].
      rewrite Hempty by (unfold filled; lia).
      split; [by intros ?%not_elem_of_empty|]. intros (k' & _ & _ & ? & _). lia.
    + intros k pi' Hk (Hsh' & Hsame & Hcell).
      apply wp_bind. eapply wp_lift; [apply (getitem2_shape n); [done|lia|lia]|].
      apply wp_bind. eapply wp_mono; [apply (wp_join g0 pi' n); [done|lia|lia]|].
      intros M HM. cbv beta in HM. simpl.
      apply wp_bind. eapply wp_lift; [apply (getitem2_shape n); [done|lia|lia]|].
      destruct (setitem2_shape n pi' i j (cellset pi' i j ∪ list_to_set M))
        as (pi'' & Hset & Hsh'' & Hnew & Hold); [done|lia|lia|].
      eapply wp_lift; [exact Hset|].
      split; [done|]. split.
      * intros i' j' Hne. rewrite Hold by done. by apply Hsame.
      * intros A. rewrite Hnew, elem_of_union, elem_of_list_to_set, Hcell, HM.
        rewrite !Hsame by (intros [= ]; lia). split.
        -- intros [(k' & B & C & Hk' & HBC)|(B & C & HBC)].
           ++ exists k', B, C. split; [lia|done].
           ++ exists k, B, C. split; [lia|done].
        -- intros (k' & B & C & Hk' & HBC).
           destruct (decide (k' = k)) as [->|Hne].
           ++ right. eauto.
           ++ left. exists k', B, C. split; [lia|done].
  - simpl. replace ((i + 1) `max` (i + l)) with j by lia.
    intros pi' (Hsh' & Hsame & Hcell). split; [done|].
    intros i' j' Hi' Hj'.
    destruct (decide ((i', j') = (i, j))) as [[= -> ->]|Hne].
    + split; [|intros []; unfold filled; lia].
      intros _ A. rewrite Hcell. subst j. rewrite derives_node by lia.
      split; intros (k & B & C & Hk & HB & HC & HA); exists k, B, C.
      * split; [lia|]. split; [|split; [|done]].
        -- destruct (Hinv i k) as [Hd _]; [lia|lia|].
           apply Hd; [unfold filled; lia|done].
        -- destruct (Hinv k (i + l)) as [Hd _]; [lia|lia|].
           apply Hd; [unfold filled; lia|done].
      * split; [lia|]. split; [|split; [|done]].
        -- destruct (Hinv i k) as [Hd _]; [lia|lia|].
           apply Hd; [unfold filled; lia|done].
        -- destruct (Hinv k (i + l)) as [Hd _]; [lia|lia|].
           apply Hd; [unfold filled; lia|done].
    + rewrite Hsame by done.
      destruct (Hinv i' j') as [Hd He]; [done|done|].
      assert (filled l (S i) i' j' ↔ filled l i i' j') as Hiff.
      { unfold filled. split; [|lia]. intros [? [?|[? ?]]]; [lia|].
        destruct (decide (i' = i)) as [->|]; [|lia].
        exfalso. apply Hne. f_equal. lia. }
      split; [intros ?%Hiff; by apply Hd|intros Hn; apply He; by rewrite <-Hiff].
Qed.

Lemma table_inv_proper g0 toks (P P' : nat → nat → Prop) pi :
  (∀ i j, i < length toks → j ≤ length toks → P i j ↔ P' i j) →
  table_inv g0 toks P pi → table_inv g0 toks P' pi.
Proof.
  intros HP [Hsh Hinv]. split; [done|]. intros i j Hi Hj.
  destruct (Hinv i j Hi Hj) as [Hd He]. specialize (HP i j Hi Hj).
  split; [intros ?%HP; by apply Hd|intros Hn; apply He; by rewrite HP].
Qed.

Lemma is_in_language_wp g0 toks :
  toks ≠ [] →
  wp g0 (is_in_language toks)
    (λ b, b = true ↔ ∃ S, startsymbol g0 = Some S ∧ derives g0 S toks).
Proof.
  intros Hne. unfold is_in_language.
  assert (0 < length toks) as Hn by (destruct toks; [done|simpl; lia]).
  set (n := length toks) in *.
  set (fi := λ tok : string, (list_to_set (r_lhs <$> rules g0 [tok]) : gset string)).
  (* init *)
  apply wp_bind. eapply wp_mono.
  { apply (wp_for_fold g0 (λ _, True) (λ acc tok, acc ++ [fi tok])); [done|].
    intros tok acc _ _. by apply wp_bind, wp_rhs_get, wp_ret. }
  simpl. intros init [Hinit _].
  assert (init = fi <$> toks) as ->.
  { rewrite Hinit. clear.
    cut (∀ acc, foldl (λ acc tok, acc ++ [fi tok]) acc toks = acc ++ (fi <$> toks)).
    { intros Hc. apply (Hc []). }
    induction toks as [|t ts IH]; intros acc; simpl; [by rewrite app_nil_r|].
    by rewrite IH, <-app_assoc. }
  clear Hinit.
  (* base cells *)
  apply wp_bind. eapply wp_mono.
  { apply (wp_for_range g0 (λ m pi, table_inv g0 toks (λ i j, j = i + 1 ∧ i < m) pi)).
    - split; [apply shape_replicate|]. intros i j _ _. fold n.
      rewrite cellset_replicate. split; [lia|done].
    - intros i pi Hi [Hsh Hinv]. fold n in Hsh.
      destruct (lookup_lt_is_Some_2 toks i) as [tok Htok]; [lia|].
      apply wp_bind. eapply wp_lift.
      { unfold index. by rewrite list_lookup_fmap, Htok. }
      destruct (setitem2_shape n pi i (i + 1) (fi tok))
        as (pi' & Hset & Hsh' & Hnew & Hold); [done|lia|lia|].
      eapply wp_lift; [exact Hset|].
      split; [done|]. intros i' j' Hi' Hj'.
      destruct (decide ((i', j') = (i, i + 1))) as [[= -> ->]|Hne'].
      + split; [|lia]. intros _ A. rewrite Hnew. unfold fi.
        by rewrite elem_of_list_to_set, (derives_leaf _ _ _ tok).
      + rewrite Hold by done. destruct (Hinv i' j') as [Hd He]; [done|done|].
        split.
        * intros [-> Hlt]. apply Hd. split; [done|].
          destruct (decide (i' = i)) as [->|]; [done|lia].
        * intros Hn'. apply He. lia. }
  simpl. replace (0 `max` n) with n by lia. intros pi1 Hpi1.
  (* longer spans *)
  apply wp_bind. eapply wp_mono.
  { apply (wp_for_range g0 (λ l pi, table_inv g0 toks (filled l 0) pi)).
    - eapply table_inv_proper; [|exact Hpi1]. unfold filled. fold n. lia.
    - intros l pi Hl Hpi. eapply wp_mono.
      + apply (wp_for_range g0 (λ i pi, table_inv g0 toks (filled l i) pi)); [done|].
        intros i pi' Hi Hpi'. apply wp_span; [lia|fold n; lia|done].
      + simpl. intros pi'. apply table_inv_proper. unfold filled. fold n. lia. }
  simpl. replace (2 `max` (n + 1)) with (n + 1) by lia. intros pi [Hsh Hinv].
  fold n in Hsh.
  apply wp_bind, wp_get_startsymbol.
  destruct Hsh as [Hlen Hrows].
  destruct (lookup_lt_is_Some_2 pi 0) as [row Hrow]; [lia|].
  pose proof (Forall_lookup_1 _ _ _ _ Hrows Hrow) as Hlrow. simpl in Hlrow.
  apply wp_bind. eapply wp_lift; [unfold index; by rewrite Hrow|].
  destruct (lookup_lt_is_Some_2 row n) as [c Hc]; [lia|].
  assert (last row = Some c) as Hlast.
  { rewrite last_lookup, Hlrow. by replace (Init.Nat.pred (n + 1)) with n by lia. }
  apply wp_bind. eapply wp_lift; [unfold index_last; by rewrite Hlast|].
  apply wp_ret.
  assert (c = cellset pi 0 n) as ->.
  { unfold cellset. rewrite Hrow. simpl. by rewrite Hc. }
  destruct (Hinv 0 n) as [Hd _]; [lia|lia|].
  specialize (Hd ltac:(unfold filled; lia)).
  unfold n in Hd at 2. rewrite slice_full in Hd.
  destruct (startsymbol g0) as [S|].
  - rewrite bool_decide_eq_true, Hd. split; [eauto|]. by intros (S' & [= ->] & ?).
  - split; [done|]. by intros (S' & [= ] & _).
Qed.
End recogniser.

(** ** Ordered dictionaries: lookups after updates *)

Section odict_facts.
Context {K V : Type} `{EqDecision K}.
Implicit Types (d : list (K * V)).

Lemma od_get_set k k' v d :
  od_get k' (od_set k v d) = if decide (k' = k) then Some v else od_get k' d.
Proof.
  induction d as [|[k0 v0] d IH]; simpl.
  - by destruct (decide (k' = k)).
  - destruct (decide (k = k0)) as [->|Hne]; simpl.
    + by destruct (decide (k' = k0)).
    + destruct (decide (k' = k0)) as [->|Hne']; [|done].
      by rewrite decide_False by done.
Qed.

Lemma od_get_set_eq k v d : od_get k (od_set k v d) = Some v.
Proof. by rewrite od_get_set, decide_True. Qed.

Lemma od_get_set_ne k k' v d : k' ≠ k → od_get k' (od_set k v d) = od_get k' d.
Proof. intros. by rewrite od_get_set, decide_False. Qed.

Lemma od_get_is_Some k d : is_Some (od_get k d) ↔ k ∈ od_keys d.
Proof.
  unfold od_keys. induction d as [|[k0 v0] d IH]; simpl.
  - split; [by intros [? ?]|by intros ?%elem_of_nil].
  - rewrite elem_of_cons. destruct (decide (k = k0)) as [->|Hne].
    + split; [by left|eauto].
    + rewrite IH. split; [by right|]. by intros [?|?].
Qed.

Lemma od_get_None k d : od_get k d = None ↔ k ∉ od_keys d.
Proof. rewrite <-od_get_is_Some, eq_None_not_Some. done. Qed.
End odict_facts.

(** ** Filling one cell of the Viterbi chart

    The work done for one span, as a function of the candidates
    [(lhs, score, backpointer)] in enumeration order: every left-hand side
    is first bound to minus infinity and the placeholder, then each
    candidate replaces the entry of its left-hand side when its score is
    greater. *)

Section cells.
Context `{FloatOps}.

Definition cell : Type := list (string * bp) * list (string * float).

Definition cell_init (cp : cell) (l : string) : cell :=
  (od_set l Sentinel cp.1, od_set l neg_inf cp.2).

Definition cell_step (cp : cell) (c : string * float * bp) : cell :=
  match od_get c.1.1 cp.2 with
  | Some cur =>
      if fgt c.1.2 cur then (od_set c.1.1 c.2 cp.1, od_set c.1.1 c.1.2 cp.2)
      else cp
  | None => cp
  end.

Definition fill_cell (cs : list (string * float * bp)) : cell :=
  foldl cell_step (foldl cell_init ([], []) (cs.*1.*1)) cs.

(** The cell built for one token from the pairs [(lhs, prob)]. *)
Definition res_get (r : result float) : float :=
  match r with Ok s => s | Raise _ => neg_inf end.

Definition leaf_step (tok : string) (cp : cell) (ab : string * float) : cell :=
  (od_set ab.1 (Leaf tok) cp.1, od_set ab.1 (res_get (log2 ab.2)) cp.2).

Definition leaf_cell (tok : string) (ini : list (string * float)) : cell :=
  foldl (leaf_step tok) ([], []) ini.

Lemma cell_init_get (ls : list string) (cp : cell) A :
  let cp' := foldl cell_init cp ls in
  (A ∈ ls → od_get A cp'.1 = Some Sentinel ∧ od_get A cp'.2 = Some neg_inf) ∧
  (A ∉ ls → od_get A cp'.1 = od_get A cp.1 ∧ od_get A cp'.2 = od_get A cp.2).
Proof.
  revert cp. induction ls as [|l ls IH] using rev_ind; intros cp; simpl.
  - split; [by intros ?%elem_of_nil|done].
  - rewrite foldl_app. simpl. destruct (IH cp) as [IH1 IH2]. split.
    + intros HA. destruct (decide (A = l)) as [->|Hne].
      * by rewrite !od_get_set_eq.
      * rewrite !od_get_set_ne by done. apply IH1.
        apply elem_of_app in HA as [?|HA%list_elem_of_singleton]; done.
    + intros HA. rewrite not_elem_of_app, list_elem_of_singleton in HA.
      destruct HA as [HA Hne]. rewrite !od_get_set_ne by done. by apply IH2.
Qed.

Context `{!FloatLaws}.

Lemma fle_refl a : logscore a → fle a a.
Proof. apply fgt_irrefl. Qed.

Lemma fle_lt_trans a b c :
  logscore a → logscore b → logscore c →
  fle a b → fgt c b = true → fgt c a = true.
Proof.
  intros Ha Hb Hc Hab Hcb. destruct (fgt b a) eqn:Hba.
  - by apply (fgt_trans c b a).
  - by rewrite (fgt_total a b Ha Hb Hab Hba).
Qed.

Lemma fle_trans a b c :
  logscore a → logscore b → logscore c → fle a b → fle b c → fle a c.
Proof.
  intros Ha Hb Hc Hab Hbc. unfold fle. destruct (fgt a c) eqn:Hac; [|done].
  pose proof (fle_lt_trans b c a Hb Hc Ha Hbc Hac) as Hgt.
  unfold fle in Hab. congruence.
Qed.

Lemma logscore_not_neg_inf a : logscore a → a ≠ neg_inf.
Proof. intros [Hf _] ->. rewrite neg_inf_not_finite in Hf. done. Qed.

(** The entry of [A] after the candidates [pre] have been handled:
    untouched, or the first candidate of greatest score among those seen. *)
Definition best_of (pre : list (string * float * bp)) (A : string) (cp : cell) : Prop :=
  (od_get A cp.1 = Some Sentinel ∧ od_get A cp.2 = Some neg_inf ∧
   ∀ c, c ∈ pre → c.1.1 ≠ A) ∨
  (∃ idx s b, pre !! idx = Some (A, s, b) ∧
     od_get A cp.1 = Some b ∧ od_get A cp.2 = Some s ∧
     ∀ idx' s' b', pre !! idx' = Some (A, s', b') →
       fle s' s ∧ (idx' < idx → fgt s s' = true)).

Lemma best_of_other pre c (cp cp' : cell) A :
  c.1.1 ≠ A →
  od_get A cp'.1 = od_get A cp.1 → od_get A cp'.2 = od_get A cp.2 →
  best_of pre A cp → best_of (pre ++ [c]) A cp'.
Proof.
  intros Hne E1 E2 [(Ht & Hp & Hnone)|(idx & s & b & Hidx & Ht & Hp & Hmax)].
  - left. rewrite E1, E2. split; [done|]. split; [done|].
    intros c' [Hc|Hc%list_elem_of_singleton]%elem_of_app; [by apply Hnone|].
    by subst c'.
  - right. exists idx, s, b. rewrite E1, E2.
    split; [by apply lookup_app_l_Some|]. split; [done|]. split; [done|].
    intros idx' s' b' Hl.
    destruct (decide (idx' < length pre)) as [Hlt|Hge].
    + rewrite lookup_app_l in Hl by done. by apply (Hmax idx' s' b').
    + apply lookup_lt_Some in Hl as Hlen. rewrite length_app in Hlen. simpl in Hlen.
      assert (idx' = length pre) as -> by lia.
      rewrite lookup_app_r, Nat.sub_diag in Hl by lia.
      injection Hl as Hc. subst c. done.
Qed.

Lemma cell_step_best pre c cp :
  (∀ c', c' ∈ pre ++ [c] → logscore c'.1.2) →
  (∀ A, is_Some (od_get A cp.2) → best_of pre A cp) →
  is_Some (od_get c.1.1 cp.2) →
  ∀ A, is_Some (od_get A (cell_step cp c).2) → best_of (pre ++ [c]) A (cell_step cp c).
Proof.
  destruct c as [[A0 s0] b0]. simpl. intros Hfin Hbest [cur Hcur] A HA.
  assert (logscore s0) as Hs0.
  { apply (Hfin (A0, s0, b0)). apply elem_of_app; right. by left. }
  assert (∀ idx s b, pre !! idx = Some (A, s, b) → logscore s) as Hpre.
  { intros idx s b Hl. apply (Hfin (A, s, b)).
    apply elem_of_app; left. by eapply list_elem_of_lookup_2. }
  unfold cell_step in *. simpl in *. rewrite Hcur in *.
  destruct (decide (A = A0)) as [->|Hne].
  - (* the entry of the candidate's own left-hand side *)
    destruct (Hbest A0 (ex_intro _ cur Hcur)) as [(Ht & Hp & Hnone)|(idx & s & b & Hidx & Ht & Hp & Hmax)].
    + (* first candidate for [A0] *)
      assert (cur = neg_inf) as -> by congruence.
      rewrite fgt_neg_inf by apply Hs0. simpl.
      right. exists (length pre), s0, b0. cbn [fst snd].
      rewrite !od_get_set_eq.
      split; [by rewrite lookup_app_r, Nat.sub_diag by lia|].
      split; [done|]. split; [done|].
      intros idx' s' b' Hl.
      destruct (decide (idx' < length pre)) as [Hlt|Hge].
      * rewrite lookup_app_l in Hl by done.
        exfalso. by apply (Hnone (A0, s', b')); [eapply list_elem_of_lookup_2|].
      * apply lookup_lt_Some in Hl as Hlen. rewrite length_app in Hlen. simpl in Hlen.
        assert (idx' = length pre) as -> by lia.
        rewrite lookup_app_r, Nat.sub_diag in Hl by lia. injection Hl as <- <-.
        split; [by apply fle_refl|lia].
    + assert (cur = s) as -> by congruence.
      assert (logscore s) as Hs by eauto.
      destruct (fgt s0 s) eqn:Hgt; simpl.
      * (* strictly better: the candidate takes over *)
        right. exists (length pre), s0, b0. cbn [fst snd]. rewrite !od_get_set_eq.
        split; [by rewrite lookup_app_r, Nat.sub_diag by lia|].
        split; [done|]. split; [done|].
        intros idx' s' b' Hl.
        destruct (decide (idx' < length pre)) as [Hlt|Hge].
        -- rewrite lookup_app_l in Hl by done.
           destruct (Hmax idx' s' b' Hl) as [Hle _].
           assert (fgt s0 s' = true) as Hgt'.
           { apply (fle_lt_trans s' s s0); eauto. }
           split; [|done]. unfold fle.
           destruct (fgt s' s0) eqn:E; [|done].
           pose proof (fgt_trans s' s0 s' ltac:(eauto) Hs0 ltac:(eauto) E Hgt') as Hbad.
           rewrite fgt_irrefl in Hbad by eauto. done.
        -- apply lookup_lt_Some in Hl as Hlen. rewrite length_app in Hlen. simpl in Hlen.
           assert (idx' = length pre) as -> by lia.
           rewrite lookup_app_r, Nat.sub_diag in Hl by lia. injection Hl as <- <-.
           split; [by apply fle_refl|lia].
      * (* not better: the entry stays *)
        right. exists idx, s, b.
        split; [by apply lookup_app_l_Some|]. split; [done|]. split; [done|].
        intros idx' s' b' Hl.
        destruct (decide (idx' < length pre)) as [Hlt|Hge].
        -- rewrite lookup_app_l in Hl by done. by apply (Hmax idx' s' b').
        -- apply lookup_lt_Some in Hl as Hlen. rewrite length_app in Hlen. simpl in Hlen.
           assert (idx' = length pre) as -> by lia.
           rewrite lookup_app_r, Nat.sub_diag in Hl by lia. injection Hl as <- <-.
           split; [done|]. apply lookup_lt_Some in Hidx. lia.
  - (* another entry: untouched, and the candidate is not for it *)
    destruct (fgt s0 cur); cbn [fst snd] in HA |- *.
    + rewrite od_get_set_ne in HA by done.
      apply (best_of_other pre (A0, s0, b0) cp); cbn [fst snd];
        rewrite ?od_get_set_ne by done; auto.
    + apply (best_of_other pre (A0, s0, b0) cp); auto.
Qed.

Lemma cell_step_keys cp c A :
  is_Some (od_get A (cell_step cp c).2) ↔ is_Some (od_get A cp.2).
Proof.
  unfold cell_step. destruct (od_get c.1.1 cp.2) as [cur|] eqn:E; [|done].
  destruct (fgt c.1.2 cur); [|done]. cbn [snd].
  rewrite od_get_set. destruct (decide (A = c.1.1)) as [->|]; [|done].
  rewrite E. split; eauto.
Qed.

Lemma cell_step_absent cp c A :
  od_get A cp.2 = None → od_get A cp.1 = None → od_get A (cell_step cp c).1 = None.
Proof.
  intros Hp Ht. unfold cell_step.
  destruct (od_get c.1.1 cp.2) as [cur|] eqn:E; [|done].
  destruct (fgt c.1.2 cur); [|done]. cbn [fst].
  rewrite od_get_set_ne; [done|]. intros ->. congruence.
Qed.

(** What a filled cell holds: exactly the left-hand sides of the
    candidates, each with the score and backpointer of its first
    candidate of greatest score. *)
Lemma fill_cell_spec cs A :
  (∀ c, c ∈ cs → logscore c.1.2) →
  (A ∉ cs.*1.*1 →
     od_get A (fill_cell cs).1 = None ∧ od_get A (fill_cell cs).2 = None) ∧
  (A ∈ cs.*1.*1 →
     ∃ idx s b, cs !! idx = Some (A, s, b) ∧
       od_get A (fill_cell cs).1 = Some b ∧ od_get A (fill_cell cs).2 = Some s ∧
       ∀ idx' s' b', cs !! idx' = Some (A, s', b') →
         fle s' s ∧ (idx' < idx → fgt s s' = true)).
Proof.
  intros Hfin. unfold fill_cell.
  set (cp0 := foldl cell_init ([], []) (cs.*1.*1)).
  assert (∀ B, (B ∈ cs.*1.*1 → od_get B cp0.1 = Some Sentinel ∧ od_get B cp0.2 = Some neg_inf)
             ∧ (B ∉ cs.*1.*1 → od_get B cp0.1 = None ∧ od_get B cp0.2 = None)) as Hstart.
  { intros B. apply (cell_init_get (cs.*1.*1) ([], []) B). }
  assert (∀ post pre cp, cs = pre ++ post →
    (∀ B, is_Some (od_get B cp.2) ↔ B ∈ cs.*1.*1) →
    (∀ B, B ∉ cs.*1.*1 → od_get B cp.1 = None) →
    (∀ B, is_Some (od_get B cp.2) → best_of pre B cp) →
    let cp' := foldl cell_step cp post in
    (∀ B, is_Some (od_get B cp'.2) ↔ B ∈ cs.*1.*1) ∧
    (∀ B, B ∉ cs.*1.*1 → od_get B cp'.1 = None) ∧
    (∀ B, is_Some (od_get B cp'.2) → best_of cs B cp')) as Hgen.
  { induction post as [|c post IH]; intros pre cp Hcs Hk Ha Hb; simpl.
    - rewrite Hcs, app_nil_r. rewrite Hcs, app_nil_r in Hk, Ha. done.
    - apply (IH (pre ++ [c])).
      + by rewrite <-app_assoc.
      + intros B. by rewrite cell_step_keys.
      + intros B HB. apply cell_step_absent; [|by apply Ha].
        apply eq_None_not_Some. by rewrite Hk.
      + apply cell_step_best; [|done|].
        * intros c' Hc'. apply Hfin. rewrite Hcs, cons_middle, app_assoc.
          apply elem_of_app. by left.
        * apply Hk. rewrite Hcs, !fmap_app, !fmap_cons.
          apply elem_of_app. right. by left. }
  destruct (Hgen cs [] cp0) as (Hk & Ha & Hb); [done| | | |].
  - intros B. destruct (decide (B ∈ cs.*1.*1)) as [HB|HB].
    + destruct (Hstart B) as [[_ ->] _]; [done|]. split; eauto.
    + destruct (Hstart B) as [_ [_ ->]]; [done|]. split; [by intros [? ?]|done].
  - intros B HB. by destruct (Hstart B) as [_ [-> _]].
  - intros B HB. left. assert (B ∈ cs.*1.*1) as HB'.
    { destruct (decide (B ∈ cs.*1.*1)) as [|Hn]; [done|].
      destruct (Hstart B) as [_ [_ E]]; [done|]. rewrite E in HB. by destruct HB. }
    destruct (Hstart B) as [[-> ->] _]; [done|]. split; [done|]. split; [done|].
    by intros c ?%elem_of_nil.
  - split.
    + intros HA. split; [by apply Ha|]. apply eq_None_not_Some. by rewrite Hk.
    + intros HA. destruct (Hb A) as [(_ & _ & Hnone)|Hbest]; [by apply Hk| |done].
      exfalso. apply list_elem_of_fmap in HA as (x & -> & Hx).
      apply list_elem_of_fmap in Hx as (c & -> & Hc). by apply (Hnone c).
Qed.
End cells.

(** ** The candidates of a span, in the order the engine enumerates them *)

Section enumeration.
Context `{FloatOps}.

(** [ch[sp]], empty when the span is absent. *)
Definition chart_cell {V} (ch : gmap (nat * nat) (list (string * V)))
    (sp : nat * nat) : list (string * V) :=
  default [] (ch !! sp).

(** [for k in range(i+1,j) for x in pb[(i,k)] for y in pb[(k,j)]] *)
Definition pairs (pb : gmap (nat * nat) (list (string * float))) (i j : nat)
    : list (nat * string * string) :=
  k ← range (i + 1) j;
  x ← od_keys (chart_cell pb (i, k));
  y ← od_keys (chart_cell pb (k, j));
  [(k, x, y)].

(** ... [for l,_,p in self.grammar.rhs_to_rules[(x,y)]] *)
Definition cands (g : Pcfg) (pb : gmap (nat * nat) (list (string * float)))
    (i j : nat) : list (nat * string * string * rule) :=
  kxy ← pairs pb i j;
  (λ r, (kxy, r)) <$> rules g [kxy.1.2; kxy.2].

(** [math.log2(p)+pb[(i,k)][x]+pb[(k,j)][y]] *)
Definition cand_score (pb : gmap (nat * nat) (list (string * float)))
    (i j : nat) (c : nat * string * string * rule) : result float :=
  result_bind (log2 (r_prob c.2)) (λ lp,
  result_bind (getentry pb (i, c.1.1.1) c.1.1.2) (λ a,
  result_bind (getentry pb (c.1.1.1, j) c.1.2) (λ b,
  Ok (fadd (fadd lp a) b)))).

(** [((x,i,k),(y,k,j))] *)
Definition cand_bp (i j : nat) (c : nat * string * string * rule) : bp :=
  Split (c.1.1.2, i, c.1.1.1) (c.1.2, c.1.1.1, j).

Definition scored_cand (pb : gmap (nat * nat) (list (string * float)))
    (i j : nat) (c : nat * string * string * rule) : string * float * bp :=
  (r_lhs c.2, res_get (cand_score pb i j c), cand_bp i j c).

Definition scored (g : Pcfg) (pb : gmap (nat * nat) (list (string * float)))
    (i j : nat) : list (string * float * bp) :=
  scored_cand pb i j <$> cands g pb i j.

Lemma elem_of_range a b k : k ∈ range a b ↔ a ≤ k < b.
Proof. unfold range. rewrite elem_of_seq. lia. Qed.

Lemma elem_of_pairs pb i j k x y :
  (k, x, y) ∈ pairs pb i j ↔
  i < k < j ∧ x ∈ od_keys (chart_cell pb (i, k)) ∧ y ∈ od_keys (chart_cell pb (k, j)).
Proof.
  unfold pairs. rewrite list_elem_of_bind. split.
  - intros (k' & (x' & (y' & Hy & Hy')%list_elem_of_bind & Hx')%list_elem_of_bind
               & Hk'%elem_of_range).
    apply list_elem_of_singleton in Hy. injection Hy as -> -> ->.
    split; [lia|done].
  - intros (Hk & Hx & Hy). exists k. split; [|apply elem_of_range; lia].
    apply list_elem_of_bind. exists x. split; [|done].
    apply list_elem_of_bind. exists y. split; [|done]. by left.
Qed.

Lemma elem_of_cands g pb i j k x y r :
  (k, x, y, r) ∈ cands g pb i j ↔
  i < k < j ∧ x ∈ od_keys (chart_cell pb (i, k)) ∧
  y ∈ od_keys (chart_cell pb (k, j)) ∧ r ∈ rules g [x; y].
Proof.
  unfold cands. rewrite list_elem_of_bind. split.
  - intros ([[k' x'] y'] & (r' & [= -> -> -> ->] & Hr)%list_elem_of_fmap & Hp).
    apply elem_of_pairs in Hp as (? & ? & ?). done.
  - intros (Hk & Hx & Hy & Hr). exists (k, x, y). split.
    + apply list_elem_of_fmap. by exists r.
    + by apply elem_of_pairs.
Qed.

(** The candidates of a span only depend on the cells of its parts. *)
Lemma pairs_agree pb pb' i j :
  (∀ k, i < k < j → pb !! (i, k) = pb' !! (i, k) ∧ pb !! (k, j) = pb' !! (k, j)) →
  pairs pb i j = pairs pb' i j.
Proof.
  intros Hag. unfold pairs. apply Forall_bind_ext, Forall_forall.
  intros k Hk%elem_of_range. unfold chart_cell.
  destruct (Hag k) as [-> ->]; [lia|]. done.
Qed.

Lemma cands_agree g pb pb' i j :
  (∀ k, i < k < j → pb !! (i, k) = pb' !! (i, k) ∧ pb !! (k, j) = pb' !! (k, j)) →
  cands g pb i j = cands g pb' i j.
Proof. intros Hag. unfold cands. by rewrite (pairs_agree pb pb'). Qed.

Lemma cand_in_span g pb i j c : c ∈ cands g pb i j → i < c.1.1.1 < j.
Proof. destruct c as [[[k x] y] r]. rewrite elem_of_cands. simpl. tauto. Qed.

Lemma cand_score_agree pb pb' i j c :
  i < c.1.1.1 < j →
  (∀ k, i < k < j → pb !! (i, k) = pb' !! (i, k) ∧ pb !! (k, j) = pb' !! (k, j)) →
  cand_score pb i j c = cand_score pb' i j c.
Proof.
  intros Hk Hag. unfold cand_score, getentry, getcell.
  destruct (Hag _ Hk) as [-> ->]. done.
Qed.

Lemma scored_agree g pb pb' i j :
  (∀ k, i < k < j → pb !! (i, k) = pb' !! (i, k) ∧ pb !! (k, j) = pb' !! (k, j)) →
  scored g pb i j = scored g pb' i j.
Proof.
  intros Hag. unfold scored. rewrite <-(cands_agree g pb pb') by done.
  apply list_fmap_ext. intros idx c Hc. unfold scored_cand.
  rewrite (cand_score_agree pb pb'); [done| |done].
  eapply cand_in_span. by eapply list_elem_of_lookup_2.
Qed.

Lemma foldl_bind_ext {A B C} (h : C → B → C) (f : A → list B) (F : C → A → C)
    (l : list A) (c : C) :
  (∀ c x, F c x = foldl h c (f x)) → foldl F c l = foldl h c (l ≫= f).
Proof.
  intros HF. revert c. induction l as [|x l IH]; intros c; [done|].
  rewrite bind_cons, foldl_app. simpl. by rewrite HF, IH.
Qed.
End enumeration.

(** ** The Viterbi engine fills each cell as [fill_cell] describes *)

Section viterbi_loops.
Context `{FloatOps}.

(** A loop that acts on a representation [α c] as the pure step [f]
    acts on [c], while [P] holds. *)
Lemma wp_for_abs {A C St} (g0 : Pcfg) (α : C → St) (P : C → Prop) (f : C → A → C)
    (xs : list A) (body : A → St → M St) (c : C) :
  P c →
  (∀ x c, x ∈ xs → P c →
     wp g0 (body x (α c)) (λ s', s' = α (f c x) ∧ P (f c x))) →
  wp g0 (for_ xs body (α c)) (λ s', s' = α (foldl f c xs) ∧ P (foldl f c xs)).
Proof.
  intros Hc Hstep.
  apply (wp_for g0 (λ pre s', s' = α (foldl f c pre) ∧ P (foldl f c pre))); [done|].
  intros pre x post s' -> [-> HP].
  eapply wp_mono; [apply Hstep; [|done]|].
  { apply elem_of_app; right. by left. }
  intros s'' [-> HP']. by rewrite foldl_app.
Qed.

(** The three outer loops over split points and the keys of the two
    parts, around an arbitrary inner block. *)
Lemma wp_pairs {C St} (g0 : Pcfg) (α : C → St)
    (pb_of : St → gmap (nat * nat) (list (string * float)))
    (pb0 : gmap (nat * nat) (list (string * float))) (i j : nat)
    (P : C → Prop) (h : C → nat * string * string → C)
    (inner : nat → string → string → St → M St) (c0 : C) :
  (∀ c k, P c → i < k < j →
     pb_of (α c) !! (i, k) = pb0 !! (i, k) ∧ pb_of (α c) !! (k, j) = pb0 !! (k, j)) →
  (∀ k, i < k < j → is_Some (pb0 !! (i, k)) ∧ is_Some (pb0 !! (k, j))) →
  (∀ c k x y, (k, x, y) ∈ pairs pb0 i j → P c →
     wp g0 (inner k x y (α c)) (λ s', s' = α (h c (k, x, y)) ∧ P (h c (k, x, y)))) →
  P c0 →
  wp g0
    (for_ (range (i + 1) j) (λ k s,
       cik <- lift (getcell (pb_of s) (i, k)) ;;
       for_ (od_keys cik) (λ x s,
         ckj <- lift (getcell (pb_of s) (k, j)) ;;
         for_ (od_keys ckj) (λ y s, inner k x y s) s) s) (α c0))
    (λ s', s' = α (foldl h c0 (pairs pb0 i j)) ∧ P (foldl h c0 (pairs pb0 i j))).
Proof.
  intros Hag Hdom Hinner HP0.
  set (F := λ (c : C) (k : nat),
    foldl (λ c x, foldl (λ c y, h c (k, x, y)) c (od_keys (chart_cell pb0 (k, j))))
      c (od_keys (chart_cell pb0 (i, k)))).
  assert (∀ c, foldl F c (range (i + 1) j) = foldl h c (pairs pb0 i j)) as Hflat.
  { intros c. unfold pairs. apply foldl_bind_ext. intros c1 k. unfold F.
    apply foldl_bind_ext. intros c2 x. apply foldl_bind_ext. by intros c3 y. }
  rewrite <-Hflat.
  apply (wp_for_abs g0 α P F); [done|].
  intros k c Hk%elem_of_range HP.
  assert (∀ c, P c → getcell (pb_of (α c)) (i, k) = Ok (chart_cell pb0 (i, k)) ∧
                     getcell (pb_of (α c)) (k, j) = Ok (chart_cell pb0 (k, j))) as Hget.
  { intros c' HP'. unfold getcell, chart_cell.
    destruct (Hag c' k HP') as [-> ->]; [lia|].
    destruct (Hdom k) as [[c1 ->] [c2 ->]]; [lia|]. done. }
  apply wp_bind. eapply wp_lift; [by apply Hget|].
  unfold F.
  apply (wp_for_abs g0 α P
    (λ c x, foldl (λ c y, h c (k, x, y)) c (od_keys (chart_cell pb0 (k, j))))); [done|].
  intros x c1 Hx HP1.
  apply wp_bind. eapply wp_lift; [by apply Hget|].
  apply (wp_for_abs g0 α P (λ c y, h c (k, x, y))); [done|].
  intros y c2 Hy HP2. apply Hinner; [|done].
  apply elem_of_pairs. split; [lia|done].
Qed.

(** The two charts with the cell of one span replaced. *)
Definition put (tb : gmap (nat * nat) (list (string * bp)))
    (pb : gmap (nat * nat) (list (string * float))) (sp : nat * nat) (cp : cell)
    : gmap (nat * nat) (list (string * bp)) * gmap (nat * nat) (list (string * float)) :=
  (<[sp := cp.1]> tb, <[sp := cp.2]> pb).

Lemma setcell_insert {V} (ch : gmap (nat * nat) (list (string * V))) sp c a v :
  setcell (<[sp := c]> ch) sp a v = Ok (<[sp := od_set a v c]> ch).
Proof. unfold setcell. by rewrite lookup_insert_eq, insert_insert_eq. Qed.

Lemma getentry_insert {V} (ch : gmap (nat * nat) (list (string * V))) sp c a v :
  od_get a c = Some v → getentry (<[sp := c]> ch) sp a = Ok v.
Proof. intros Hv. unfold getentry, getcell. rewrite lookup_insert_eq. simpl. by rewrite Hv. Qed.

Lemma getentry_insert_ne {V} (ch : gmap (nat * nat) (list (string * V))) sp sp' c a :
  sp ≠ sp' → getentry (<[sp := c]> ch) sp' a = getentry ch sp' a.
Proof. intros Hne. unfold getentry, getcell. by rewrite lookup_insert_ne. Qed.

Lemma scored_lhs g pb i j :
  (scored g pb i j).*1.*1 = (λ c, r_lhs c.2) <$> cands g pb i j.
Proof. unfold scored. rewrite <-!list_fmap_compose. by apply list_fmap_ext. Qed.

Lemma lhs_fold (g : Pcfg) (ps : list (nat * string * string)) (acc : list string) :
  foldl (λ acc kxy, acc ++ (r_lhs <$> rules g [kxy.1.2; kxy.2])) acc ps =
  acc ++ ((λ c : nat * string * string * rule, r_lhs c.2) <$>
            (ps ≫= λ kxy, (λ r, (kxy, r)) <$> rules g [kxy.1.2; kxy.2])).
Proof.
  revert acc. induction ps as [|p ps IH]; intros acc; simpl.
  - by rewrite app_nil_r.
  - rewrite IH, fmap_app, <-list_fmap_compose, app_assoc. done.
Qed.

(** The block run for one span of length at least two. *)
Lemma wp_fill (g0 : Pcfg) (i l : nat)
    (tp : gmap (nat * nat) (list (string * bp)) *
          gmap (nat * nat) (list (string * float))) :
  2 ≤ l →
  (∀ k, i < k < i + l → is_Some (tp.2 !! (i, k)) ∧ is_Some (tp.2 !! (k, i + l))) →
  (∀ c, c ∈ cands g0 tp.2 i (i + l) → ∃ s, cand_score tp.2 i (i + l) c = Ok s) →
  wp g0
    (let j := i + l in
     let pb := <[(i, j) := []]> tp.2 in
     let tb := <[(i, j) := []]> tp.1 in
     L <- for_ (range (i + 1) j) (λ k acc,
            cik <- lift (getcell pb (i, k)) ;;
            for_ (od_keys cik) (λ x acc,
              ckj <- lift (getcell pb (k, j)) ;;
              for_ (od_keys ckj) (λ y acc,
                rs <- rhs_get [x; y] ;;
                ret (acc ++ (r_lhs <$> rs))) acc) acc) [] ;;
     tp <- for_ L (λ l tp,
             pb <- lift (setcell tp.2 (i, j) l neg_inf) ;;
             tb <- lift (setcell tp.1 (i, j) l Sentinel) ;;
             ret (tb, pb)) (tb, pb) ;;
     for_ (range (i + 1) j) (λ k tp,
       cik <- lift (getcell tp.2 (i, k)) ;;
       for_ (od_keys cik) (λ x tp,
         ckj <- lift (getcell tp.2 (k, j)) ;;
         for_ (od_keys ckj) (λ y tp,
           rs <- rhs_get [x; y] ;;
           for_ rs (λ r tp,
             lp <- lift (log2 (r_prob r)) ;;
             a <- lift (getentry tp.2 (i, k) x) ;;
             b <- lift (getentry tp.2 (k, j) y) ;;
             let prob := fadd (fadd lp a) b in
             cur <- lift (getentry tp.2 (i, j) (r_lhs r)) ;;
             if fgt prob cur then
               pb <- lift (setcell tp.2 (i, j) (r_lhs r) prob) ;;
               tb <- lift (setcell tp.1 (i, j) (r_lhs r)
                             (Split (x, i, k) (y, k, j))) ;;
               ret (tb, pb)
             else ret tp) tp) tp) tp) tp)
    (λ tp', tp' = put tp.1 tp.2 (i, i + l) (fill_cell (scored g0 tp.2 i (i + l)))).
Proof.
  intros Hl Hdom Hsc. destruct tp as [tb pb]. cbn [fst snd] in *.
  cbv zeta. set (j := i + l) in *.
  (* the left-hand sides to initialise *)
  apply wp_bind. eapply wp_mono.
  { apply (wp_pairs g0 id (λ _, <[(i, j) := []]> pb) pb i j (λ _, True)
             (λ acc kxy, acc ++ (r_lhs <$> rules g0 [kxy.1.2; kxy.2]))
             (λ k x y acc, rs <- rhs_get [x; y] ;; ret (acc ++ (r_lhs <$> rs))) []).
    - intros _ k _ Hk. rewrite !lookup_insert_ne by (intros [= ]; lia). done.
    - done.
    - intros acc k x y _ _. by apply wp_bind, wp_rhs_get, wp_ret.
    - done. }
  intros L [HL _]. cbv beta in HL. unfold id in HL.
  assert (L = (scored g0 pb i j).*1.*1) as ->.
  { rewrite HL, lhs_fold, scored_lhs. done. }
  clear HL.
  (* initialisation *)
  apply wp_bind. eapply wp_mono.
  { apply (wp_for_abs g0 (put tb pb (i, j)) (λ _, True) cell_init _ _ ([], [])); [done|].
    intros l0 cp _ _. unfold put; cbn [fst snd].
    apply wp_bind. eapply wp_lift; [apply setcell_insert|].
    apply wp_bind. eapply wp_lift; [apply setcell_insert|].
    by apply wp_ret. }
  intros tp1 [-> _].
  set (cp0 := foldl cell_init ([], []) (scored g0 pb i j).*1.*1).
  (* the candidates *)
  pose (P := λ cp : cell,
          ∀ c, c ∈ cands g0 pb i j → is_Some (od_get (r_lhs c.2) cp.2)).
  eapply wp_mono.
  { apply (wp_pairs g0 (put tb pb (i, j)) snd pb i j P
             (λ cp kxy, foldl (λ cp r, cell_step cp (scored_cand pb i j (kxy, r)))
                          cp (rules g0 [kxy.1.2; kxy.2]))
             (λ k x y tp,
                rs <- rhs_get [x; y] ;;
                for_ rs (λ r tp,
                  lp <- lift (log2 (r_prob r)) ;;
                  a <- lift (getentry tp.2 (i, k) x) ;;
                  b <- lift (getentry tp.2 (k, j) y) ;;
                  let prob := fadd (fadd lp a) b in
                  cur <- lift (getentry tp.2 (i, j) (r_lhs r)) ;;
                  if fgt prob cur then
                    pb <- lift (setcell tp.2 (i, j) (r_lhs r) prob) ;;
                    tb <- lift (setcell tp.1 (i, j) (r_lhs r)
                                  (Split (x, i, k) (y, k, j))) ;;
                    ret (tb, pb)
                  else ret tp) tp) cp0).
    - intros cp k _ Hk. unfold put; cbn [fst snd].
      rewrite !lookup_insert_ne by (intros [= ]; lia). done.
    - done.
    - intros cp k x y Hp HP. apply elem_of_pairs in Hp as (Hk & Hx & Hy).
      apply wp_bind, wp_rhs_get. cbn [fst snd].
      apply (wp_for_abs g0 (put tb pb (i, j)) P
               (λ cp r, cell_step cp (scored_cand pb i j (k, x, y, r)))); [done|].
      intros r cp' Hr HP'.
      assert ((k, x, y, r) ∈ cands g0 pb i j) as Hc by by apply elem_of_cands.
      destruct (Hsc _ Hc) as [s Hs]. unfold cand_score in Hs. cbn [fst snd] in Hs.
      destruct (log2 (r_prob r)) as [lp|] eqn:Elp; [|done]. cbn in Hs.
      destruct (getentry pb (i, k) x) as [a|] eqn:Ea; [|done]. cbn in Hs.
      destruct (getentry pb (k, j) y) as [b|] eqn:Eb; [|done]. cbn in Hs.
      injection Hs as Hs.
      destruct (HP' _ Hc) as [cur Hcur]. cbn [fst snd] in Hcur.
      assert (cell_step cp' (scored_cand pb i j (k, x, y, r)) =
              if fgt s cur
              then (od_set (r_lhs r) (Split (x, i, k) (y, k, j)) cp'.1,
                    od_set (r_lhs r) s cp'.2)
              else cp') as Hstep.
      { unfold cell_step, scored_cand, cand_bp, cand_score. cbn [fst snd].
        rewrite Hcur, Elp. cbn. rewrite Ea. cbn. rewrite Eb. cbn. by rewrite Hs. }
      apply wp_bind. eapply wp_lift; [done|].
      apply wp_bind. eapply wp_lift.
      { unfold put; cbn [fst snd]. rewrite getentry_insert_ne by (intros [= ]; lia).
        exact Ea. }
      apply wp_bind. eapply wp_lift.
      { unfold put; cbn [fst snd]. rewrite getentry_insert_ne by (intros [= ]; lia).
        exact Eb. }
      cbv zeta. rewrite Hs.
      apply wp_bind. eapply wp_lift.
      { unfold put; cbn [fst snd]. by apply getentry_insert. }
      assert (∀ c, c ∈ cands g0 pb i j →
                is_Some (od_get (r_lhs c.2)
                           (cell_step cp' (scored_cand pb i j (k, x, y, r))).2)) as HP''.
      { intros c' Hc'. apply cell_step_keys. by apply HP'. }
      rewrite Hstep in HP'' |- *.
      destruct (fgt s cur).
      + unfold put; cbn [fst snd].
        apply wp_bind. eapply wp_lift; [apply setcell_insert|].
        apply wp_bind. eapply wp_lift; [apply setcell_insert|].
        by apply wp_ret.
      + by apply wp_ret.
    - intros c Hc. unfold cp0.
      destruct (cell_init_get (scored g0 pb i j).*1.*1 ([], []) (r_lhs c.2)) as [Hin _].
      destruct Hin as [_ ->]; [|eauto].
      rewrite scored_lhs. apply list_elem_of_fmap. by exists c. }
  intros tp' [-> _]. f_equal. unfold fill_cell. fold cp0.
  unfold scored, cands. rewrite foldl_fmap.
  apply foldl_bind_ext. intros cp kxy. by rewrite foldl_fmap.
Qed.
End viterbi_loops.

(** ** The charts returned by the Viterbi engine *)

Section viterbi_charts.
Context `{FloatOps} `{!SetOrder}.

(** The pairs [(lhs, prob)] iterated for one token. *)
Definition leaf_pairs (g : Pcfg) (tok : string) : list (string * float) :=
  set_list ((λ r, (r_lhs r, r_prob r)) <$> rules g [tok]).

(** Every rule probability is in the domain of [math.log2]. *)
Definition log2_defined (g : Pcfg) : Prop :=
  ∀ k r, r ∈ rules g k → ∃ s, log2 (r_prob r) = Ok s.

(** The charts hold exactly the spans in [D]; a span of one token holds
    its leaf cell, a longer span the cell filled from its candidates. *)
Definition chart_eqs (g : Pcfg) (toks : list string) (D : nat → nat → Prop)
    (tp : gmap (nat * nat) (list (string * bp)) *
          gmap (nat * nat) (list (string * float))) : Prop :=
  (∀ i j, is_Some (tp.1 !! (i, j)) ↔ D i j) ∧
  (∀ i j, is_Some (tp.2 !! (i, j)) ↔ D i j) ∧
  (∀ i tok, D i (i + 1) → toks !! i = Some tok →
     tp.1 !! (i, i + 1) = Some (leaf_cell tok (leaf_pairs g tok)).1 ∧
     tp.2 !! (i, i + 1) = Some (leaf_cell tok (leaf_pairs g tok)).2) ∧
  (∀ i j, i + 2 ≤ j → D i j →
     tp.1 !! (i, j) = Some (fill_cell (scored g tp.2 i j)).1 ∧
     tp.2 !! (i, j) = Some (fill_cell (scored g tp.2 i j)).2).

Lemma chart_eqs_proper g toks (D D' : nat → nat → Prop) tp :
  (∀ i j, D i j ↔ D' i j) → chart_eqs g toks D tp → chart_eqs g toks D' tp.
Proof.
  intros HD (H1 & H2 & H3 & H4). split; [|split; [|split]].
  - intros i j. by rewrite H1.
  - intros i j. by rewrite H2.
  - intros i tok Hi. apply H3. by apply HD.
  - intros i j Hij Hd. apply H4; [done|]. by apply HD.
Qed.

Lemma cand_score_ok g pb i j c :
  log2_defined g →
  (∀ k, i < k < j → is_Some (pb !! (i, k)) ∧ is_Some (pb !! (k, j))) →
  c ∈ cands g pb i j → ∃ s, cand_score pb i j c = Ok s.
Proof.
  intros Hlog Hdom Hc. destruct c as [[[k x] y] r].
  apply elem_of_cands in Hc as (Hk & Hx & Hy & Hr).
  destruct (Hlog _ _ Hr) as [lp Hlp].
  destruct (Hdom k Hk) as [[c1 Hc1] [c2 Hc2]].
  unfold chart_cell in Hx, Hy. rewrite Hc1 in Hx. rewrite Hc2 in Hy. simpl in Hx, Hy.
  apply od_get_is_Some in Hx as [a Ha]. apply od_get_is_Some in Hy as [b Hb].
  unfold cand_score, getentry, getcell. cbn [fst snd].
  rewrite Hlp, Hc1, Hc2. cbn. rewrite Ha, Hb. cbn. eauto.
Qed.

(** Adding the cell of a span of length [l] when the shorter spans, and
    those of length [l] that start earlier, are there. *)
Lemma chart_eqs_put g toks l i tp :
  2 ≤ l → i + l ≤ length toks →
  chart_eqs g toks (λ i' j', filled l i i' j' ∧ j' ≤ length toks) tp →
  chart_eqs g toks (λ i' j', filled l (S i) i' j' ∧ j' ≤ length toks)
    (put tp.1 tp.2 (i, i + l) (fill_cell (scored g tp.2 i (i + l)))).
Proof.
  intros Hl Hil (H1 & H2 & H3 & H4). destruct tp as [tb pb]. cbn [fst snd] in *.
  assert (∀ i' j', filled l (S i) i' j' ∧ j' ≤ length toks ↔
            (i', j') = (i, i + l) ∨ (filled l i i' j' ∧ j' ≤ length toks)) as HD.
  { intros i' j'. unfold filled. split.
    - intros [[Hlt [Hlen|[Hlen Hi']]] Hj']; [right; lia|].
      destruct (decide (i' = i)) as [->|]; [left; f_equal; lia|right; lia].
    - intros [[= -> ->]|?]; lia. }
  assert (∀ i' j', filled l i i' j' → ∀ k, i' < k < j' →
            (i, i + l) ≠ (i', k) ∧ (i, i + l) ≠ (k, j')) as Hparts.
  { intros i' j' Hf k Hk. unfold filled in Hf. split; intros [= ]; lia. }
  unfold put, chart_eqs; cbn [fst snd]. split; [|split; [|split]].
  - intros i' j'. rewrite HD, lookup_insert_is_Some, H1.
    split; [intros [<-|[_ ?]]; auto|].
    intros [->|?]; [by left|].
    destruct (decide ((i, i + l) = (i', j'))); [by left|by right].
  - intros i' j'. rewrite HD, lookup_insert_is_Some, H2.
    split; [intros [<-|[_ ?]]; auto|].
    intros [->|?]; [by left|].
    destruct (decide ((i, i + l) = (i', j'))); [by left|by right].
  - intros i' tok Hd Htok. rewrite !lookup_insert_ne by (intros [= ]; lia).
    apply H3; [|done]. apply HD in Hd as [[= ]|?]; [lia|done].
  - intros i' j' Hij Hd. apply HD in Hd as [[= -> ->]|[Hf Hj']].
    + rewrite !lookup_insert_eq.
      rewrite (scored_agree g (<[(i, i + l):=(fill_cell (scored g pb i (i + l))).2]> pb) pb);
        [done|].
      intros k Hk. rewrite !lookup_insert_ne by (intros [= ]; lia). done.
    + assert ((i, i + l) ≠ (i', j')) as Hne.
      { intros [= <- <-]. unfold filled in Hf. lia. }
      rewrite !lookup_insert_ne by done.
      rewrite (scored_agree g (<[(i, i + l):=(fill_cell (scored g pb i (i + l))).2]> pb) pb).
      * apply H4; [done|]. done.
      * intros k Hk. destruct (Hparts i' j' Hf k Hk) as [? ?].
        by rewrite !lookup_insert_ne.
Qed.

Lemma wp_parse (g0 : Pcfg) (toks : list string) :
  log2_defined g0 →
  wp g0 (parse_with_backpointers toks)
    (chart_eqs g0 toks (λ i j, i < j ≤ length toks)).
Proof.
  intros Hlog. unfold parse_with_backpointers. set (n := length toks).
  (* init *)
  apply wp_bind. eapply wp_mono.
  { apply (wp_for_fold g0 (λ _, True) (λ acc tok, acc ++ [leaf_pairs g0 tok])); [done|].
    intros tok acc _ _. by apply wp_bind, wp_rhs_get, wp_ret. }
  simpl. intros init [Hinit _].
  assert (init = leaf_pairs g0 <$> toks) as ->.
  { rewrite Hinit. clear.
    cut (∀ acc, foldl (λ acc tok, acc ++ [leaf_pairs g0 tok]) acc toks
                = acc ++ (leaf_pairs g0 <$> toks)).
    { intros Hc. apply (Hc []). }
    induction toks as [|t ts IH]; intros acc; simpl; [by rewrite app_nil_r|].
    by rewrite IH, <-app_assoc. }
  clear Hinit.
  (* spans of one token *)
  apply wp_bind. eapply wp_mono.
  { apply (wp_for_range g0 (λ m tp, chart_eqs g0 toks (λ i j, j = i + 1 ∧ i < m) tp)).
    - split; [|split; [|split]]; cbn [fst snd].
      + intros i j. rewrite lookup_empty. split; [by intros [? ?]|lia].
      + intros i j. rewrite lookup_empty. split; [by intros [? ?]|lia].
      + intros i tok [_ ?]. lia.
      + intros i j ? [? ?]. lia.
    - intros i tp Hi (H1 & H2 & H3 & H4). cbv zeta.
      destruct (lookup_lt_is_Some_2 toks i) as [tok Htok]; [fold n; lia|].
      apply wp_bind. eapply wp_lift.
      { unfold index. by rewrite list_lookup_fmap, Htok. }
      eapply wp_mono.
      { apply (wp_for_abs g0 (put tp.1 tp.2 (i, i + 1)) (λ _, True) (leaf_step tok)
                 _ _ ([], [])); [done|].
        intros ab cp Hab _. unfold put; cbn [fst snd].
        assert (∃ s, log2 ab.2 = Ok s) as [s Hs].
        { unfold leaf_pairs in Hab. rewrite set_list_elem in Hab.
          apply list_elem_of_fmap in Hab as (r & -> & Hr). by eapply Hlog. }
        apply wp_bind. eapply wp_lift; [unfold index; by rewrite Htok|].
        apply wp_bind. eapply wp_lift; [apply setcell_insert|].
        apply wp_bind. eapply wp_lift; [exact Hs|].
        apply wp_bind. eapply wp_lift; [apply setcell_insert|].
        apply wp_ret. split; [|done]. unfold leaf_step. by rewrite Hs. }
      intros tp' [-> _]. fold (leaf_cell tok (leaf_pairs g0 tok)).
      unfold put. split; [|split; [|split]]; cbn [fst snd].
      + intros i' j'. rewrite lookup_insert_is_Some, H1. split.
        * intros [[= <- <-]|[_ [-> ?]]]; lia.
        * intros [-> ?]. destruct (decide (i' = i)) as [->|]; [by left|].
          right. split; [intros [= ]; lia|lia].
      + intros i' j'. rewrite lookup_insert_is_Some, H2. split.
        * intros [[= <- <-]|[_ [-> ?]]]; lia.
        * intros [-> ?]. destruct (decide (i' = i)) as [->|]; [by left|].
          right. split; [intros [= ]; lia|lia].
      + intros i' tok' [_ Hi'] Htok'. destruct (decide (i' = i)) as [->|Hne].
        * rewrite !lookup_insert_eq. assert (tok' = tok) as -> by congruence. done.
        * rewrite !lookup_insert_ne by (intros [= ]; lia).
          apply H3; [lia|done].
      + intros i' j' ? [? ?]. lia. }
  simpl. replace (0 `max` n) with n by lia. intros tp1 Htp1.
  (* longer spans *)
  eapply wp_mono.
  { apply (wp_for_range g0
      (λ l tp, chart_eqs g0 toks (λ i j, filled l 0 i j ∧ j ≤ n) tp)).
    - eapply chart_eqs_proper; [|exact Htp1]. unfold filled. lia.
    - intros l tp Hl Htp. eapply wp_mono.
      + apply (wp_for_range g0
          (λ i tp, chart_eqs g0 toks (λ i' j', filled l i i' j' ∧ j' ≤ n) tp)); [done|].
        intros i tp' Hi Htp'. eapply wp_mono.
        * apply wp_fill; [lia| |].
          -- intros k Hk. destruct Htp' as (_ & H2 & _).
             rewrite !H2. unfold filled. lia.
          -- intros c Hc. apply (cand_score_ok g0 _ _ _ c Hlog); [|done].
             intros k Hk. destruct Htp' as (_ & H2 & _).
             rewrite !H2. unfold filled. lia.
        * intros tp'' ->. apply chart_eqs_put; [lia|fold n; lia|done].
      + simpl. intros tp'. apply chart_eqs_proper. unfold filled. lia. }
  simpl. intros tp. apply chart_eqs_proper. unfold filled. lia.
Qed.
End viterbi_charts.

(** ** The charts, whenever the Viterbi engine returns

    The same description of the charts without an assumption on the
    grammar: a run that returns has found every logarithm defined and every
    entry it read. *)

Section returned_charts.
Context {FO : FloatOps} {SO : SetOrder}.

(** If the computation, started from an extension of [g0], returns, then
    it leaves an extension of [g0] and the value satisfies [Q]. *)
Definition pc {A} (g0 : Pcfg) (m : M A) (Q : A → Prop) : Prop :=
  ∀ g a g', gext g0 g → m g = (Ok a, g') → gext g0 g' ∧ Q a.

Lemma pc_mono {A} (g0 : Pcfg) (m : M A) (Q Q' : A → Prop) :
  pc g0 m Q → (∀ a, Q a → Q' a) → pc g0 m Q'.
Proof. intros Hm HQ g a g' Hg Hrun. destruct (Hm g a g' Hg Hrun). auto. Qed.

Lemma pc_ret {A} (g0 : Pcfg) (a : A) (Q : A → Prop) : Q a → pc g0 (ret a) Q.
Proof. intros Ha g a' g' Hg [= <- <-]. done. Qed.

Lemma pc_lift {A} (g0 : Pcfg) (r : result A) (Q : A → Prop) :
  (∀ a, r = Ok a → Q a) → pc g0 (lift r) Q.
Proof. intros Hr g a g' Hg [= -> <-]. split; [done|]. by apply Hr. Qed.

Lemma pc_rhs_get (g0 : Pcfg) k (Q : list rule → Prop) :
  Q (rules g0 k) → pc g0 (rhs_get k) Q.
Proof.
  intros HQ g a g' Hg Hrun. destruct (gext_rhs_get g k) as [Hext Hres].
  rewrite Hrun in Hext, Hres. simpl in *. injection Hres as ->.
  split; [by eapply gext_trans|]. by rewrite (gext_rules _ _ Hg).
Qed.

Lemma pc_bind {A B} (g0 : Pcfg) (m : M A) (k : A → M B) (Q : B → Prop) :
  pc g0 m (λ a, pc g0 (k a) Q) → pc g0 (bind m k) Q.
Proof.
  intros Hm g b g' Hg. unfold bind.
  destruct (m g) as [[a|e] g1] eqn:E; [|done]. intros Hrun.
  destruct (Hm g a g1 Hg E) as [Hg1 Hk]. by apply (Hk g1).
Qed.

Lemma pc_frame {A} (g0 : Pcfg) (m : M A) (P : Prop) :
  frame m → P → pc g0 m (λ _, P).
Proof.
  intros Hf HP g a g' Hg Hrun. split; [|done].
  eapply gext_trans; [exact Hg|]. specialize (Hf g). by rewrite Hrun in Hf.
Qed.

Lemma pc_for {A S} (g0 : Pcfg) (I : list A → S → Prop) (xs : list A)
    (body : A → S → M S) (s : S) :
  I [] s →
  (∀ pre x post s, xs = pre ++ x :: post → I pre s →
     pc g0 (body x s) (I (pre ++ [x]))) →
  pc g0 (for_ xs body s) (I xs).
Proof.
  intros H0 Hstep.
  cut (∀ post pre s, xs = pre ++ post → I pre s → pc g0 (for_ post body s) (I xs)).
  { intros Hc. by apply (Hc xs []). }
  induction post as [|x post IH]; intros pre s' Hxs Hpre; simpl.
  - apply pc_ret. by rewrite Hxs, app_nil_r.
  - apply pc_bind. eapply pc_mono; [by eapply Hstep|].
    intros s'' Hs''. apply (IH (pre ++ [x])); [|done]. by rewrite <-app_assoc.
Qed.

(** A loop over [range a b] with an invariant indexed by the next value. *)
Lemma pc_for_range {St} (g0 : Pcfg) (I : nat → St → Prop) (a b : nat)
    (body : nat → St → M St) (s : St) :
  I a s →
  (∀ i s, a ≤ i < b → I i s → pc g0 (body i s) (I (S i))) →
  pc g0 (for_ (range a b) body s) (I (a `max` b)).
Proof.
  intros H0 Hstep. unfold range.
  eapply pc_mono.
  - apply (pc_for g0 (λ pre s', I (a + length pre) s')).
    + simpl. by rewrite Nat.add_0_r.
    + intros pre x post s' Hxs Hpre.
      assert (x = a + length pre ∧ a + length pre < b) as [-> Hlt].
      { assert (seq a (b - a) !! length pre = Some x) as Hl.
        { rewrite Hxs. by rewrite lookup_app_r, Nat.sub_diag by lia. }
        apply lookup_seq in Hl. lia. }
      eapply pc_mono; [apply Hstep; [lia|done]|].
      intros s''. rewrite length_app. simpl.
      by replace (a + (length pre + 1)) with (S (a + length pre)) by lia.
  - intros s'. rewrite length_seq.
    by replace (a + (b - a)) with (a `max` b) by lia.
Qed.

(** A loop that acts on a representation [α c] as the pure step [f] acts
    on [c]; [G] is what returning from the body tells about its element. *)
Lemma pc_for_abs {A C St} (g0 : Pcfg) (α : C → St) (G : A → Prop) (f : C → A → C)
    (xs : list A) (body : A → St → M St) (c : C) :
  (∀ x c, x ∈ xs → pc g0 (body x (α c)) (λ s', s' = α (f c x) ∧ G x)) →
  pc g0 (for_ xs body (α c))
    (λ s', s' = α (foldl f c xs) ∧ ∀ x, x ∈ xs → G x).
Proof.
  intros Hstep.
  apply (pc_for g0 (λ pre s', s' = α (foldl f c pre) ∧ ∀ x, x ∈ pre → G x)).
  - split; [done|]. by intros x ?%elem_of_nil.
  - intros pre x post s' -> [-> HG].
    eapply pc_mono; [apply Hstep|].
    { apply elem_of_app; right. by left. }
    intros s'' [-> Hx]. rewrite foldl_app. split; [done|].
    intros x' [?| ->%list_elem_of_singleton]%elem_of_app; auto.
Qed.

(** The three outer loops over split points and the keys of the two
    parts, around an arbitrary inner block. *)
Lemma pc_pairs {C St} (g0 : Pcfg) (α : C → St)
    (pb_of : St → gmap (nat * nat) (list (string * float)))
    (pb0 : gmap (nat * nat) (list (string * float))) (i j : nat)
    (G : nat * string * string → Prop) (h : C → nat * string * string → C)
    (inner : nat → string → string → St → M St) (c0 : C) :
  (∀ c k, i < k < j →
     pb_of (α c) !! (i, k) = pb0 !! (i, k) ∧ pb_of (α c) !! (k, j) = pb0 !! (k, j)) →
  (∀ c k x y, (k, x, y) ∈ pairs pb0 i j →
     pc g0 (inner k x y (α c)) (λ s', s' = α (h c (k, x, y)) ∧ G (k, x, y))) →
  pc g0
    (for_ (range (i + 1) j) (λ k s,
       cik <- lift (getcell (pb_of s) (i, k)) ;;
       for_ (od_keys cik) (λ x s,
         ckj <- lift (getcell (pb_of s) (k, j)) ;;
         for_ (od_keys ckj) (λ y s, inner k x y s) s) s) (α c0))
    (λ s', s' = α (foldl h c0 (pairs pb0 i j)) ∧ ∀ p, p ∈ pairs pb0 i j → G p).
Proof.
  intros Hag Hinner.
  set (F := λ (c : C) (k : nat),
    foldl (λ c x, foldl (λ c y, h c (k, x, y)) c (od_keys (chart_cell pb0 (k, j))))
      c (od_keys (chart_cell pb0 (i, k)))).
  assert (∀ c, foldl F c (range (i + 1) j) = foldl h c (pairs pb0 i j)) as Hflat.
  { intros c. unfold pairs. apply foldl_bind_ext. intros c1 k. unfold F.
    apply foldl_bind_ext. intros c2 x. apply foldl_bind_ext. by intros c3 y. }
  rewrite <-Hflat.
  assert (∀ c k cell, i < k < j →
            (getcell (pb_of (α c)) (i, k) = Ok cell → cell = chart_cell pb0 (i, k)) ∧
            (getcell (pb_of (α c)) (k, j) = Ok cell → cell = chart_cell pb0 (k, j)))
    as Hget.
  { intros c k cell Hk. unfold getcell, chart_cell.
    destruct (Hag c k Hk) as [-> ->].
    split; intros Hc.
    - destruct (pb0 !! (i, k)); [by injection Hc as ->|done].
    - destruct (pb0 !! (k, j)); [by injection Hc as ->|done]. }
  eapply pc_mono.
  { apply (pc_for_abs g0 α
             (λ k, ∀ x y, x ∈ od_keys (chart_cell pb0 (i, k)) →
                          y ∈ od_keys (chart_cell pb0 (k, j)) → G (k, x, y)) F).
    intros k c Hk%elem_of_range.
    apply pc_bind, pc_lift. intros cik Hcik.
    apply (Hget c k cik) in Hcik; [|lia]. subst cik.
    unfold F. eapply pc_mono.
    { apply (pc_for_abs g0 α
               (λ x, ∀ y, y ∈ od_keys (chart_cell pb0 (k, j)) → G (k, x, y))
               (λ c x, foldl (λ c y, h c (k, x, y)) c (od_keys (chart_cell pb0 (k, j))))).
      intros x c1 Hx.
      apply pc_bind, pc_lift. intros ckj Hckj.
      apply (Hget c1 k ckj) in Hckj; [|lia]. subst ckj.
      apply (pc_for_abs g0 α (λ y, G (k, x, y)) (λ c y, h c (k, x, y))).
      intros y c2 Hy. apply Hinner. apply elem_of_pairs. split; [lia|done]. }
    cbv beta. intros s' [-> HG]. split; [done|]. intros x y Hx Hy. by apply HG. }
  cbv beta. intros s' [-> HG]. split; [done|].
  intros [[k x] y] (Hk & Hx & Hy)%elem_of_pairs.
  apply HG; [apply elem_of_range; lia|done|done].
Qed.

(** The block run for one span of length at least two. *)
Lemma pc_fill (g0 : Pcfg) (i l : nat)
    (tp : gmap (nat * nat) (list (string * bp)) *
          gmap (nat * nat) (list (string * float))) :
  2 ≤ l →
  pc g0
    (let j := i + l in
     let pb := <[(i, j) := []]> tp.2 in
     let tb := <[(i, j) := []]> tp.1 in
     L <- for_ (range (i + 1) j) (λ k acc,
            cik <- lift (getcell pb (i, k)) ;;
            for_ (od_keys cik) (λ x acc,
              ckj <- lift (getcell pb (k, j)) ;;
              for_ (od_keys ckj) (λ y acc,
                rs <- rhs_get [x; y] ;;
                ret (acc ++ (r_lhs <$> rs))) acc) acc) [] ;;
     tp <- for_ L (λ l tp,
             pb <- lift (setcell tp.2 (i, j) l neg_inf) ;;
             tb <- lift (setcell tp.1 (i, j) l Sentinel) ;;
             ret (tb, pb)) (tb, pb) ;;
     for_ (range (i + 1) j) (λ k tp,
       cik <- lift (getcell tp.2 (i, k)) ;;
       for_ (od_keys cik) (λ x tp,
         ckj <- lift (getcell tp.2 (k, j)) ;;
         for_ (od_keys ckj) (λ y tp,
           rs <- rhs_get [x; y] ;;
           for_ rs (λ r tp,
             lp <- lift (log2 (r_prob r)) ;;
             a <- lift (getentry tp.2 (i, k) x) ;;
             b <- lift (getentry tp.2 (k, j) y) ;;
             let prob := fadd (fadd lp a) b in
             cur <- lift (getentry tp.2 (i, j) (r_lhs r)) ;;
             if fgt prob cur then
               pb <- lift (setcell tp.2 (i, j) (r_lhs r) prob) ;;
               tb <- lift (setcell tp.1 (i, j) (r_lhs r)
                             (Split (x, i, k) (y, k, j))) ;;
               ret (tb, pb)
             else ret tp) tp) tp) tp) tp)
    (λ tp', tp' = put tp.1 tp.2 (i, i + l) (fill_cell (scored g0 tp.2 i (i + l))) ∧
            ∀ c, c ∈ cands g0 tp.2 i (i + l) → ∃ s, cand_score tp.2 i (i + l) c = Ok s).
Proof.
  intros Hl. destruct tp as [tb pb]. cbn [fst snd] in *.
  cbv zeta. set (j := i + l) in *.
  (* the left-hand sides to initialise *)
  apply pc_bind. eapply pc_mono.
  { apply (pc_pairs g0 id (λ _, <[(i, j) := []]> pb) pb i j (λ _, True)
             (λ acc kxy, acc ++ (r_lhs <$> rules g0 [kxy.1.2; kxy.2]))
             (λ k x y acc, rs <- rhs_get [x; y] ;; ret (acc ++ (r_lhs <$> rs))) []).
    - intros _ k Hk. rewrite !lookup_insert_ne by (intros [= ]; lia). done.
    - intros acc k x y _. by apply pc_bind, pc_rhs_get, pc_ret. }
  cbv beta. intros L [HL _]. unfold id in HL.
  assert (L = (scored g0 pb i j).*1.*1) as ->.
  { rewrite HL, lhs_fold, scored_lhs. done. }
  clear HL.
  (* initialisation *)
  apply pc_bind. eapply pc_mono.
  { apply (pc_for_abs g0 (put tb pb (i, j)) (λ _, True) cell_init _ _ ([], [])).
    intros l0 cp _. unfold put; cbn [fst snd].
    apply pc_bind, pc_lift. intros pb' Hpb'.
    rewrite setcell_insert in Hpb'. injection Hpb' as <-.
    apply pc_bind, pc_lift. intros tb' Htb'.
    rewrite setcell_insert in Htb'. injection Htb' as <-.
    by apply pc_ret. }
  cbv beta. intros tp1 [-> _].
  set (cp0 := foldl cell_init ([], []) (scored g0 pb i j).*1.*1).
  (* the candidates *)
  eapply pc_mono.
  { apply (pc_pairs g0 (put tb pb (i, j)) snd pb i j
             (λ kxy, ∀ r, r ∈ rules g0 [kxy.1.2; kxy.2] →
                          ∃ s, cand_score pb i j (kxy, r) = Ok s)
             (λ cp kxy, foldl (λ cp r, cell_step cp (scored_cand pb i j (kxy, r)))
                          cp (rules g0 [kxy.1.2; kxy.2]))
             (λ k x y tp,
                rs <- rhs_get [x; y] ;;
                for_ rs (λ r tp,
                  lp <- lift (log2 (r_prob r)) ;;
                  a <- lift (getentry tp.2 (i, k) x) ;;
                  b <- lift (getentry tp.2 (k, j) y) ;;
                  let prob := fadd (fadd lp a) b in
                  cur <- lift (getentry tp.2 (i, j) (r_lhs r)) ;;
                  if fgt prob cur then
                    pb <- lift (setcell tp.2 (i, j) (r_lhs r) prob) ;;
                    tb <- lift (setcell tp.1 (i, j) (r_lhs r)
                                  (Split (x, i, k) (y, k, j))) ;;
                    ret (tb, pb)
                  else ret tp) tp) cp0).
    - intros cp k Hk. unfold put; cbn [fst snd].
      rewrite !lookup_insert_ne by (intros [= ]; lia). done.
    - intros cp k x y Hp. apply elem_of_pairs in Hp as (Hk & Hx & Hy).
      apply pc_bind, pc_rhs_get. cbn [fst snd].
      apply (pc_for_abs g0 (put tb pb (i, j))
               (λ r, ∃ s, cand_score pb i j (k, x, y, r) = Ok s)
               (λ cp r, cell_step cp (scored_cand pb i j (k, x, y, r)))).
      intros r cp' Hr.
      apply pc_bind, pc_lift. intros lp Elp.
      apply pc_bind, pc_lift. intros a Ea.
      unfold put in Ea; cbn [fst snd] in Ea.
      rewrite getentry_insert_ne in Ea by (intros [= ]; lia).
      apply pc_bind, pc_lift. intros b Eb.
      unfold put in Eb; cbn [fst snd] in Eb.
      rewrite getentry_insert_ne in Eb by (intros [= ]; lia).
      cbv zeta.
      apply pc_bind, pc_lift. intros cur Ecur.
      assert (od_get (r_lhs r) cp'.2 = Some cur) as Hcur.
      { unfold put, getentry, getcell in Ecur. cbn [fst snd] in Ecur.
        rewrite lookup_insert_eq in Ecur. simpl in Ecur.
        destruct (od_get (r_lhs r) cp'.2); [by injection Ecur as ->|done]. }
      assert (cand_score pb i j (k, x, y, r) = Ok (fadd (fadd lp a) b)) as Hs.
      { unfold cand_score. cbn [fst snd]. rewrite Elp. cbn. rewrite Ea. cbn.
        by rewrite Eb. }
      assert (cell_step cp' (scored_cand pb i j (k, x, y, r)) =
              if fgt (fadd (fadd lp a) b) cur
              then (od_set (r_lhs r) (Split (x, i, k) (y, k, j)) cp'.1,
                    od_set (r_lhs r) (fadd (fadd lp a) b) cp'.2)
              else cp') as Hstep.
      { unfold cell_step, scored_cand, cand_bp. cbn [fst snd]. by rewrite Hcur, Hs. }
      rewrite Hstep.
      destruct (fgt (fadd (fadd lp a) b) cur).
      + unfold put; cbn [fst snd].
        apply pc_bind, pc_lift. intros pb' Hpb'.
        rewrite setcell_insert in Hpb'. injection Hpb' as <-.
        apply pc_bind, pc_lift. intros tb' Htb'.
        rewrite setcell_insert in Htb'. injection Htb' as <-.
        apply pc_ret. split; [done|]. eauto.
      + apply pc_ret. split; [done|]. eauto. }
  cbv beta. intros tp' [-> HG]. split.
  - f_equal. unfold fill_cell. fold cp0.
    unfold scored, cands. rewrite foldl_fmap.
    apply foldl_bind_ext. intros cp kxy. by rewrite foldl_fmap.
  - intros c Hc. unfold cands in Hc.
    apply list_elem_of_bind in Hc as (kxy & Hc & Hkxy).
    apply list_elem_of_fmap in Hc as (r & -> & Hr). by apply (HG kxy).
Qed.

(** Every logarithm and every sum of a candidate of the spans in [D] is
    defined. *)
Definition scores_defined (g : Pcfg) (toks : list string) (D : nat → nat → Prop)
    (pb : gmap (nat * nat) (list (string * float))) : Prop :=
  (∀ i tok ab, D i (i + 1) → toks !! i = Some tok → ab ∈ leaf_pairs g tok →
     ∃ s, log2 ab.2 = Ok s) ∧
  (∀ i j c, i + 2 ≤ j → D i j → c ∈ cands g pb i j →
     ∃ s, cand_score pb i j c = Ok s).

Lemma scores_defined_proper g toks (D D' : nat → nat → Prop) pb :
  (∀ i j, D i j ↔ D' i j) → scores_defined g toks D pb → scores_defined g toks D' pb.
Proof.
  intros HD [H1 H2]. split.
  - intros i tok ab Hd. apply (H1 i tok ab). by apply HD.
  - intros i j c Hij Hd. apply H2; [done|]. by apply HD.
Qed.

Lemma scores_defined_put g toks l i pb cell :
  2 ≤ l →
  scores_defined g toks (λ i' j', filled l i i' j' ∧ j' ≤ length toks) pb →
  (∀ c, c ∈ cands g pb i (i + l) → ∃ s, cand_score pb i (i + l) c = Ok s) →
  scores_defined g toks (λ i' j', filled l (S i) i' j' ∧ j' ≤ length toks)
    (<[(i, i + l) := cell]> pb).
Proof.
  intros Hl [H1 H2] Hnew.
  assert (∀ i' j', i' + 2 ≤ j' → filled l (S i) i' j' →
            (i', j') = (i, i + l) ∨ filled l i i' j') as HD.
  { intros i' j' Hij'. unfold filled. intros [Hlt [Hlen|[Hlen Hi']]]; [right; lia|].
    destruct (decide (i' = i)) as [->|]; [left; f_equal; lia|right; lia]. }
  assert (∀ i' j', (i', j') = (i, i + l) ∨ filled l i i' j' →
            ∀ k, i' < k < j' →
              <[(i, i + l) := cell]> pb !! (i', k) = pb !! (i', k) ∧
              <[(i, i + l) := cell]> pb !! (k, j') = pb !! (k, j')) as Hparts.
  { intros i' j' Hcase k Hk.
    rewrite !lookup_insert_ne; [done| |].
    - destruct Hcase as [[= -> ->]|Hf]; intros [= ]; unfold filled in *; lia.
    - destruct Hcase as [[= -> ->]|Hf]; intros [= ]; unfold filled in *; lia. }
  split.
  - intros i' tok ab [Hf Hj'] Htok Hab. apply (H1 i' tok ab); [|done|done].
    split; [|done]. unfold filled in *. lia.
  - intros i' j' c Hij' [Hf Hj'] Hc.
    pose proof (Hparts i' j' (HD i' j' Hij' Hf)) as Hag.
    rewrite (cands_agree g _ pb) in Hc by done.
    rewrite (cand_score_agree _ pb); [|by eapply cand_in_span|done].
    destruct (HD i' j' Hij' Hf) as [[= -> ->]|Hf']; [by apply Hnew|].
    by apply H2.
Qed.

(** Whenever the engine returns, the charts are as [chart_eqs] says, and
    every score that went into them was defined. *)
Lemma pc_parse (g0 : Pcfg) (toks : list string) :
  pc g0 (parse_with_backpointers toks)
    (λ tp, chart_eqs g0 toks (λ i j, i < j ≤ length toks) tp ∧
           scores_defined g0 toks (λ i j, i < j ≤ length toks) tp.2).
Proof.
  unfold parse_with_backpointers. set (n := length toks).
  (* init *)
  apply pc_bind.
  apply (pc_mono _ _ (λ init, init = leaf_pairs g0 <$> toks)).
  { eapply pc_mono.
    - apply (pc_for g0 (λ pre acc, acc = leaf_pairs g0 <$> pre)); [done|].
      intros pre tok post acc _ ->. apply pc_bind, pc_rhs_get, pc_ret.
      by rewrite fmap_app.
    - done. }
  intros init ->.
  (* spans of one token *)
  apply pc_bind. eapply pc_mono.
  { apply (pc_for_range g0
             (λ m tp, chart_eqs g0 toks (λ i j, j = i + 1 ∧ i < m) tp ∧
                      scores_defined g0 toks (λ i j, j = i + 1 ∧ i < m) tp.2)).
    - split; [split; [|split; [|split]]|split]; cbn [fst snd].
      + intros i j. rewrite lookup_empty. split; [by intros [? ?]|lia].
      + intros i j. rewrite lookup_empty. split; [by intros [? ?]|lia].
      + intros i tok [_ ?]. lia.
      + intros i j ? [? ?]. lia.
      + intros i tok ab [_ ?]. lia.
      + intros i j c ? [? ?]. lia.
    - intros i tp Hi [(H1 & H2 & H3 & H4) [S1 S2]]. cbv zeta.
      destruct (lookup_lt_is_Some_2 toks i) as [tok Htok]; [fold n; lia|].
      apply pc_bind, pc_lift. intros ini Hini.
      assert (ini = leaf_pairs g0 tok) as ->.
      { unfold index in Hini. rewrite list_lookup_fmap, Htok in Hini.
        by injection Hini as <-. }
      eapply pc_mono.
      { apply (pc_for_abs g0 (put tp.1 tp.2 (i, i + 1))
                 (λ ab, ∃ s, log2 ab.2 = Ok s) (leaf_step tok) _ _ ([], [])).
        intros ab cp Hab. unfold put; cbn [fst snd].
        apply pc_bind, pc_lift. intros tok' Htok'.
        assert (tok' = tok) as ->.
        { unfold index in Htok'. rewrite Htok in Htok'. by injection Htok' as <-. }
        apply pc_bind, pc_lift. intros tb' Htb'.
        rewrite setcell_insert in Htb'. injection Htb' as <-.
        apply pc_bind, pc_lift. intros s Hs.
        apply pc_bind, pc_lift. intros pb' Hpb'.
        rewrite setcell_insert in Hpb'. injection Hpb' as <-.
        apply pc_ret. split; [|eauto]. unfold leaf_step. by rewrite Hs. }
      cbv beta. intros tp' [-> HG]. fold (leaf_cell tok (leaf_pairs g0 tok)).
      unfold put. split; [split; [|split; [|split]]|split]; cbn [fst snd].
      + intros i' j'. rewrite lookup_insert_is_Some, H1. split.
        * intros [[= <- <-]|[_ [-> ?]]]; lia.
        * intros [-> ?]. destruct (decide (i' = i)) as [->|]; [by left|].
          right. split; [intros [= ]; lia|lia].
      + intros i' j'. rewrite lookup_insert_is_Some, H2. split.
        * intros [[= <- <-]|[_ [-> ?]]]; lia.
        * intros [-> ?]. destruct (decide (i' = i)) as [->|]; [by left|].
          right. split; [intros [= ]; lia|lia].
      + intros i' tok' [_ Hi'] Htok'. destruct (decide (i' = i)) as [->|Hne].
        * rewrite !lookup_insert_eq. assert (tok' = tok) as -> by congruence. done.
        * rewrite !lookup_insert_ne by (intros [= ]; lia).
          apply H3; [lia|done].
      + intros i' j' ? [? ?]. lia.
      + intros i' tok' ab [_ Hi'] Htok' Hab. destruct (decide (i' = i)) as [->|Hne].
        * assert (tok' = tok) as -> by congruence. by apply HG.
        * apply (S1 i' tok' ab); [lia|done|done].
      + intros i' j' c ? [? ?]. lia. }
  cbv beta. replace (0 `max` n) with n by lia. intros tp1 [Htp1 Hsc1].
  (* longer spans *)
  eapply pc_mono.
  { apply (pc_for_range g0
      (λ l tp, chart_eqs g0 toks (λ i j, filled l 0 i j ∧ j ≤ n) tp ∧
               scores_defined g0 toks (λ i j, filled l 0 i j ∧ j ≤ n) tp.2)).
    - split.
      + eapply chart_eqs_proper; [|exact Htp1]. unfold filled. lia.
      + eapply scores_defined_proper; [|exact Hsc1]. unfold filled. lia.
    - intros l tp Hl [Htp Hsc]. eapply pc_mono.
      + apply (pc_for_range g0
          (λ i tp, chart_eqs g0 toks (λ i' j', filled l i i' j' ∧ j' ≤ n) tp ∧
                   scores_defined g0 toks (λ i' j', filled l i i' j' ∧ j' ≤ n) tp.2));
          [done|].
        intros i tp' Hi [Htp' Hsc']. eapply pc_mono.
        * apply pc_fill. lia.
        * cbv beta. intros tp'' [-> Hnew]. split.
          -- apply chart_eqs_put; [lia|fold n; lia|done].
          -- unfold put; cbn [fst snd]. apply scores_defined_put; [lia|done|done].
      + cbv beta. intros tp' [Htp' Hsc']. split.
        * eapply chart_eqs_proper; [|exact Htp']. unfold filled. lia.
        * eapply scores_defined_proper; [|exact Hsc']. unfold filled. lia. }
  cbv beta. intros tp [Htp Hsc]. split.
  - eapply chart_eqs_proper; [|exact Htp]. unfold filled. lia.
  - eapply scores_defined_proper; [|exact Hsc]. unfold filled. lia.
Qed.

Lemma parse_returned (g : Pcfg) (toks : list string) tb pb g' :
  parse_with_backpointers toks g = (Ok (tb, pb), g') →
  chart_eqs g toks (λ i j, i < j ≤ length toks) (tb, pb) ∧
  scores_defined g toks (λ i j, i < j ≤ length toks) pb.
Proof.
  intros Hrun. by destruct (pc_parse g toks g (tb, pb) g' (gext_refl g) Hrun) as [_ ?].
Qed.
End returned_charts.

(** ** What the cells of the returned charts hold *)

Section chart_facts.
Context {FO : FloatOps} {SO : SetOrder} {FL : FloatLaws}.

Lemma leaf_cell_snoc tok (ini : list (string * float)) a p :
  leaf_cell tok (ini ++ [(a, p)]) =
  (od_set a (Leaf tok) (leaf_cell tok ini).1,
   od_set a (res_get (log2 p)) (leaf_cell tok ini).2).
Proof. unfold leaf_cell. by rewrite foldl_snoc. Qed.

Lemma leaf_cell_spec tok (ini : list (string * float)) A :
  (A ∉ ini.*1 →
     od_get A (leaf_cell tok ini).1 = None ∧ od_get A (leaf_cell tok ini).2 = None) ∧
  (A ∈ ini.*1 →
     od_get A (leaf_cell tok ini).1 = Some (Leaf tok) ∧
     ∃ p, (A, p) ∈ ini ∧ od_get A (leaf_cell tok ini).2 = Some (res_get (log2 p))).
Proof.
  induction ini as [|[a p] ini IH] using rev_ind.
  - split; [done|]. by intros ?%elem_of_nil.
  - rewrite leaf_cell_snoc, fmap_app. cbn [fst snd].
    change ([(a, p)].*1) with [a].
    destruct IH as [IH1 IH2]. split.
    + rewrite not_elem_of_app, list_elem_of_singleton. intros [HA Hne].
      rewrite !od_get_set_ne by done. by apply IH1.
    + intros HA. destruct (decide (A = a)) as [->|Hne].
      * rewrite !od_get_set_eq. split; [done|]. exists p. split; [|done].
        apply elem_of_app. right. by left.
      * rewrite !od_get_set_ne by done.
        apply elem_of_app in HA as [HA|HA%list_elem_of_singleton]; [|done].
        destruct (IH2 HA) as (Ht & p' & Hp' & Hv). split; [done|].
        exists p'. split; [|done]. apply elem_of_app. by left.
Qed.

Lemma elem_of_leaf_pairs g tok A p :
  (A, p) ∈ leaf_pairs g tok ↔ has_rule g A [tok] p.
Proof.
  unfold leaf_pairs, has_rule. rewrite set_list_elem, list_elem_of_fmap. split.
  - intros (r & [= -> ->] & Hr). by exists r.
  - intros (r & Hr & <- & <-). by exists r.
Qed.

Lemma leaf_pairs_lhs g tok A :
  A ∈ (leaf_pairs g tok).*1 ↔ A ∈ r_lhs <$> rules g [tok].
Proof.
  rewrite has_rule_lhs, list_elem_of_fmap. split.
  - intros ([a p] & -> & Hin). exists p. by apply elem_of_leaf_pairs.
  - intros (p & Hp). exists (A, p). split; [done|]. by apply elem_of_leaf_pairs.
Qed.

(** The score of a derivation is a log-score when the grammar's
    probabilities are in (0,1]. *)
Lemma score_logscore g t :
  unit_probs g → derivation g t → ∃ s, score t = Ok s ∧ logscore s.
Proof.
  intros Hu. induction t as [A p tok|A p l IHl r IHr]; simpl.
  - intros (r & Hr & _ & <-). apply log2_unit. by eapply Hu.
  - intros ((r0 & Hr0 & _ & <-) & Hl & Hr).
    destruct (log2_unit (r_prob r0)) as (lp & -> & Hlp); [by eapply Hu|].
    destruct (IHl Hl) as (sl & -> & Hsl). destruct (IHr Hr) as (sr & -> & Hsr).
    simpl. eexists. split; [done|]. by repeat apply fadd_logscore.
Qed.

(** The cell of a span: present in both charts, with the same keys, the
    derivable nonterminals; every stored score is the log-score of some
    derivation. *)
Definition cell_ok (g : Pcfg) (toks : list string)
    (tp : gmap (nat * nat) (list (string * bp)) *
          gmap (nat * nat) (list (string * float))) (i j : nat) : Prop :=
  ∃ tc pc, tp.1 !! (i, j) = Some tc ∧ tp.2 !! (i, j) = Some pc ∧
    ∀ A, (is_Some (od_get A pc) ↔ derives g A (slice toks i j)) ∧
         (is_Some (od_get A tc) ↔ is_Some (od_get A pc)) ∧
         (∀ v, od_get A pc = Some v →
            logscore v ∧
            ∃ t, derivation g t ∧ root t = A ∧ yield t = slice toks i j ∧
                 score t = Ok v).

(** A candidate over parts whose cells are in order. *)
Lemma cand_parts g toks tp i j k x y r :
  unit_probs g →
  cell_ok g toks tp i k → cell_ok g toks tp k j →
  (k, x, y, r) ∈ cands g tp.2 i j →
  ∃ lp a b tl tr,
    log2 (r_prob r) = Ok lp ∧ logscore lp ∧ logscore a ∧ logscore b ∧
    cand_score tp.2 i j (k, x, y, r) = Ok (fadd (fadd lp a) b) ∧
    derivation g tl ∧ root tl = x ∧ yield tl = slice toks i k ∧ score tl = Ok a ∧
    derivation g tr ∧ root tr = y ∧ yield tr = slice toks k j ∧ score tr = Ok b ∧
    is_Some (od_get x (chart_cell tp.1 (i, k))) ∧
    is_Some (od_get y (chart_cell tp.1 (k, j))).
Proof.
  intros Hu (tc1 & pc1 & Ht1 & Hp1 & Hc1) (tc2 & pc2 & Ht2 & Hp2 & Hc2) Hc.
  apply elem_of_cands in Hc as (Hk & Hx & Hy & Hr).
  unfold chart_cell in *. rewrite Hp1 in Hx. rewrite Hp2 in Hy. simpl in Hx, Hy.
  apply od_get_is_Some in Hx as [a Ha]. apply od_get_is_Some in Hy as [b Hb].
  destruct (Hc1 x) as (_ & Hk1 & Hv1). destruct (Hc2 y) as (_ & Hk2 & Hv2).
  destruct (Hv1 a Ha) as (Hla & tl & Htl & Hrl & Hyl & Hsl).
  destruct (Hv2 b Hb) as (Hlb & tr & Htr & Hrr & Hyr & Hsr).
  destruct (log2_unit (r_prob r)) as (lp & Hlp & Hllp); [by eapply Hu|].
  exists lp, a, b, tl, tr. rewrite Ht1, Ht2. simpl.
  split; [done|]. split; [done|]. split; [done|]. split; [done|].
  split.
  { unfold cand_score, getentry, getcell. cbn [fst snd].
    rewrite Hlp, Hp1, Hp2. cbn. rewrite Ha, Hb. done. }
  repeat (split; [done|]).
  split; [apply Hk1; eauto|apply Hk2; eauto].
Qed.

Lemma scored_logscore g toks tp i j :
  unit_probs g →
  (∀ k, i < k < j → cell_ok g toks tp i k ∧ cell_ok g toks tp k j) →
  ∀ c, c ∈ scored g tp.2 i j → logscore c.1.2.
Proof.
  intros Hu Hparts c (c0 & -> & Hc0)%list_elem_of_fmap.
  destruct c0 as [[[k x] y] r].
  destruct (Hparts k) as [H1 H2]; [by apply (cand_in_span _ _ _ _ _ Hc0)|].
  destruct (cand_parts g toks tp i j k x y r Hu H1 H2 Hc0)
    as (lp & a & b & _ & _ & _ & Hlp & Ha & Hb & Hs & _).
  unfold scored_cand. cbn [fst snd]. rewrite Hs. simpl.
  by repeat apply fadd_logscore.
Qed.

Lemma cells_ok g toks tp :
  unit_probs g →
  chart_eqs g toks (λ i j, i < j ≤ length toks) tp →
  ∀ d i j, i < j ≤ length toks → j - i ≤ d → cell_ok g toks tp i j.
Proof.
  intros Hu (H1 & H2 & H3 & H4).
  induction d as [|d IH]; intros i j Hij Hd; [lia|].
  destruct (decide (j = i + 1)) as [->|Hlong].
  - (* one token *)
    destruct (lookup_lt_is_Some_2 toks i) as [tok Htok]; [lia|].
    destruct (H3 i tok Hij Htok) as [Et Ep].
    eexists _, _. split; [exact Et|]. split; [exact Ep|]. intros A.
    destruct (leaf_cell_spec tok (leaf_pairs g tok) A) as [Hout Hin].
    destruct (decide (A ∈ (leaf_pairs g tok).*1)) as [HA|HA].
    + destruct (Hin HA) as (Ht & p & Hp & Hv). rewrite Ht, Hv.
      split; [|split].
      * rewrite (derives_leaf _ _ _ tok) by done. rewrite <-leaf_pairs_lhs.
        split; eauto.
      * split; eauto.
      * intros v [= <-]. apply elem_of_leaf_pairs in Hp as Hrule.
        destruct Hrule as (r & Hr & Hlhs & Hprob).
        destruct (log2_unit p) as (s & Hs & Hls); [rewrite <-Hprob; by eapply Hu|].
        rewrite Hs. simpl. split; [done|].
        exists (DLeaf A p tok). simpl. split; [by exists r|]. split; [done|].
        split; [|done]. symmetry. by apply slice_one.
    + destruct (Hout HA) as [Ht Hv]. rewrite Ht, Hv.
      split; [|split].
      * rewrite (derives_leaf _ _ _ tok) by done. rewrite <-leaf_pairs_lhs.
        split; [by intros [? ?]|done].
      * done.
      * done.
  - (* a longer span *)
    assert (i + 2 ≤ j) as Hij2 by lia.
    destruct (H4 i j Hij2 Hij) as [Et Ep].
    assert (∀ k, i < k < j → cell_ok g toks tp i k ∧ cell_ok g toks tp k j) as Hparts.
    { intros k Hk. split; apply IH; lia. }
    pose proof (scored_logscore g toks tp i j Hu Hparts) as Hfin.
    eexists _, _. split; [exact Et|]. split; [exact Ep|]. intros A.
    destruct (fill_cell_spec (scored g tp.2 i j) A Hfin) as [Hout Hin].
    assert (A ∈ (scored g tp.2 i j).*1.*1 ↔ derives g A (slice toks i j)) as Hder.
    { rewrite scored_lhs, derives_node by lia. rewrite list_elem_of_fmap. split.
      - intros ([[[k x] y] r] & -> & Hc). simpl.
        destruct (Hparts k) as [Hc1 Hc2]; [by apply (cand_in_span _ _ _ _ _ Hc)|].
        destruct (cand_parts g toks tp i j k x y r Hu Hc1 Hc2 Hc)
          as (lp & a & b & tl & tr & _ & _ & _ & _ & _ & Htl & Hrl & Hyl & _
                 & Htr & Hrr & Hyr & _).
        apply elem_of_cands in Hc as (Hk & _ & _ & Hr).
        exists k, x, y. split; [done|]. split; [by exists tl|]. split; [by exists tr|].
        apply list_elem_of_fmap. by exists r.
      - intros (k & B & C & Hk & HB & HC & (r & -> & Hr)%list_elem_of_fmap).
        exists (k, B, C, r). split; [done|]. apply elem_of_cands.
        destruct (Hparts k Hk) as [(tc1 & pc1 & _ & Hp1 & Hc1) (tc2 & pc2 & _ & Hp2 & Hc2)].
        unfold chart_cell. rewrite Hp1, Hp2. simpl.
        split; [done|]. split; [|split; [|done]].
        + apply od_get_is_Some. destruct (Hc1 B) as [HdB _]. by apply HdB.
        + apply od_get_is_Some. destruct (Hc2 C) as [HdC _]. by apply HdC. }
    destruct (decide (A ∈ (scored g tp.2 i j).*1.*1)) as [HA|HA].
    + destruct (Hin HA) as (idx & s & b & Hidx & Ht & Hv & Hmax). rewrite Ht, Hv.
      split; [|split].
      * rewrite <-Hder. split; eauto.
      * split; eauto.
      * intros v [= <-].
        unfold scored in Hidx. rewrite list_lookup_fmap in Hidx.
        destruct (cands g tp.2 i j !! idx) as [[[[k x] y] r]|] eqn:Ec; [|done].
        simpl in Hidx. injection Hidx as Hlhs Hs Hb.
        apply list_elem_of_lookup_2 in Ec.
        destruct (Hparts k) as [Hc1 Hc2]; [by apply (cand_in_span _ _ _ _ _ Ec)|].
        destruct (cand_parts g toks tp i j k x y r Hu Hc1 Hc2 Ec)
          as (lp & a & b' & tl & tr & Hlp & Hllp & Hla & Hlb & Hsc & Htl & Hrl & Hyl & Hsl
                 & Htr & Hrr & Hyr & Hsr & _).
        rewrite Hsc in Hs. simpl in Hs. subst s.
        split; [by repeat apply fadd_logscore|].
        apply elem_of_cands in Ec as (Hk & _ & _ & Hr).
        exists (DNode A (r_prob r) tl tr). simpl.
        rewrite Hrl, Hrr, Hyl, Hyr, Hlp, Hsl, Hsr. simpl.
        split; [split; [by exists r|done]|]. split; [done|].
        split; [|done]. symmetry. apply slice_app; lia.
    + destruct (Hout HA) as [Ht Hv]. rewrite Ht, Hv.
      split; [|split].
      * rewrite <-Hder. split; [by intros [? ?]|done].
      * done.
      * done.
Qed.
End chart_facts.

(** ** Best scores, backpointers and trees *)

Section chart_best.
Context {FO : FloatOps} {SO : SetOrder} {FL : FloatLaws}.

(** No two unary rules rewrite the same nonterminal to the same token
    with different probabilities. *)
Definition unary_functional (g : Pcfg) : Prop :=
  ∀ tok r r', r ∈ rules g [tok] → r' ∈ rules g [tok] →
    r_lhs r = r_lhs r' → r_prob r = r_prob r'.

Lemma cand_score_val pb i j k x y r lp a b :
  log2 (r_prob r) = Ok lp →
  od_get x (chart_cell pb (i, k)) = Some a →
  od_get y (chart_cell pb (k, j)) = Some b →
  cand_score pb i j (k, x, y, r) = Ok (fadd (fadd lp a) b).
Proof.
  intros Hlp Ha Hb. unfold cand_score, getentry, getcell, chart_cell in *.
  cbn [fst snd]. rewrite Hlp. cbn.
  destruct (pb !! (i, k)) as [c1|]; [|done]. cbn in *. rewrite Ha. cbn.
  destruct (pb !! (k, j)) as [c2|]; [|done]. cbn in *. by rewrite Hb.
Qed.

(** Every derivation over a span scores at most what the chart stores. *)
Lemma cells_max g toks tp :
  unit_probs g → unary_functional g →
  chart_eqs g toks (λ i j, i < j ≤ length toks) tp →
  ∀ d i j, i < j ≤ length toks → j - i ≤ d →
  ∀ t, derivation g t → yield t = slice toks i j →
  ∃ s v, score t = Ok s ∧ od_get (root t) (chart_cell tp.2 (i, j)) = Some v ∧ fle s v.
Proof.
  intros Hu Hfun Heqs.
  pose proof (cells_ok g toks tp Hu Heqs) as Hok.
  destruct Heqs as (E1 & E2 & E3 & E4).
  induction d as [|d IH]; intros i j Hij Hd t Ht Hy; [lia|].
  destruct (decide (j = i + 1)) as [->|Hlong].
  - apply derivation_leaf in Hy as (A & p & tok & -> & Htok); [|lia].
    simpl in Ht. simpl.
    destruct (E3 i tok Hij Htok) as [_ Ep]. unfold chart_cell. rewrite Ep. simpl.
    destruct (leaf_cell_spec tok (leaf_pairs g tok) A) as [_ Hin].
    destruct Hin as (_ & p' & Hp' & Hv).
    { apply leaf_pairs_lhs, has_rule_lhs. eauto. }
    assert (p' = p) as ->.
    { apply elem_of_leaf_pairs in Hp' as (r' & Hr' & Hl' & <-).
      destruct Ht as (r & Hr & Hl & <-). apply (Hfun tok); congruence. }
    destruct (log2_unit p) as (s & Hs & Hls).
    { destruct Ht as (r & Hr & _ & <-). by eapply Hu. }
    exists s, s. rewrite Hv, Hs. split; [done|]. split; [done|]. by apply fle_refl.
  - assert (i + 2 ≤ j) as Hij2 by lia.
    apply derivation_node in Hy as (A & p & l & r & k & -> & Hk & Hyl & Hyr); [|lia|lia].
    simpl in Ht. destruct Ht as ((r0 & Hr0 & Hlhs & Hprob) & Hl & Hr).
    destruct (IH i k ltac:(lia) ltac:(lia) l Hl Hyl) as (sl & vl & Hsl & Hvl & Hlel).
    destruct (IH k j ltac:(lia) ltac:(lia) r Hr Hyr) as (sr & vr & Hsr & Hvr & Hler).
    assert (∀ k, i < k < j → cell_ok g toks tp i k ∧ cell_ok g toks tp k j) as Hparts.
    { intros k' Hk'. split; apply (Hok (length toks)); lia. }
    assert ((k, root l, root r, r0) ∈ cands g tp.2 i j) as Hc.
    { apply elem_of_cands. split; [done|].
      split; [apply od_get_is_Some; eauto|]. split; [apply od_get_is_Some; eauto|done]. }
    destruct (Hparts k Hk) as [Hc1 Hc2].
    destruct (log2_unit (r_prob r0)) as (lp & Hlp & Hllp); [by eapply Hu|].
    pose proof (cand_score_val tp.2 i j k _ _ r0 lp vl vr Hlp Hvl Hvr) as Hcs.
    (* log-scores involved *)
    destruct (score_logscore g l Hu Hl) as (sl' & Hsl' & Hlsl).
    destruct (score_logscore g r Hu Hr) as (sr' & Hsr' & Hlsr).
    assert (sl' = sl) as -> by congruence. assert (sr' = sr) as -> by congruence.
    assert (logscore vl ∧ logscore vr) as [Hlvl Hlvr].
    { destruct Hc1 as (tc1 & pc1 & _ & Hp1 & Hcell1).
      destruct Hc2 as (tc2 & pc2 & _ & Hp2 & Hcell2).
      unfold chart_cell in Hvl, Hvr. rewrite Hp1 in Hvl. rewrite Hp2 in Hvr.
      simpl in Hvl, Hvr.
      destruct (Hcell1 (root l)) as (_ & _ & Hv1). destruct (Hcell2 (root r)) as (_ & _ & Hv2).
      split; [by apply (Hv1 vl)|by apply (Hv2 vr)]. }
    (* the stored entry dominates the candidate *)
    destruct (E4 i j Hij2 Hij) as [_ Ep]. unfold chart_cell at 1. rewrite Ep. simpl.
    pose proof (scored_logscore g toks tp i j Hu Hparts) as Hfin.
    destruct (fill_cell_spec (scored g tp.2 i j) A Hfin) as [_ Hin].
    assert (scored_cand tp.2 i j (k, root l, root r, r0) ∈ scored g tp.2 i j) as Hsc.
    { apply list_elem_of_fmap. by eexists. }
    unfold scored_cand in Hsc. cbn [fst snd] in Hsc. rewrite Hcs, Hlhs in Hsc. simpl in Hsc.
    destruct Hin as (idx & s & b & Hidx & _ & Hv & Hmax).
    { rewrite scored_lhs. apply list_elem_of_fmap.
      exists (k, root l, root r, r0). by split. }
    apply list_elem_of_lookup_1 in Hsc as [idx' Hidx'].
    destruct (Hmax idx' _ _ Hidx') as [Hle _].
    rewrite Hprob in Hlp. rewrite Hlp, Hsl, Hsr. simpl.
    exists (fadd (fadd lp sl) sr), s. split; [done|]. split; [done|].
    assert (logscore s) as Hls.
    { apply (Hfin (A, s, b)). by eapply list_elem_of_lookup_2. }
    apply (fle_trans _ (fadd (fadd lp vl) vr)); [| |done| |done].
    + by repeat apply fadd_logscore.
    + by repeat apply fadd_logscore.
    + apply (fle_trans _ (fadd (fadd lp vl) sr)).
      * by repeat apply fadd_logscore.
      * by repeat apply fadd_logscore.
      * by repeat apply fadd_logscore.
      * apply fadd_mono_l; [by apply fadd_logscore|by apply fadd_logscore|done|].
        by apply fadd_mono_r.
      * apply fadd_mono_r; [by apply fadd_logscore|done|done|done].
Qed.

(** Among the candidates of a span for a nonterminal, the chart keeps
    the first one of greatest score. *)
Lemma first_best g toks tp i j A v :
  unit_probs g →
  chart_eqs g toks (λ i j, i < j ≤ length toks) tp →
  i + 2 ≤ j → j ≤ length toks →
  od_get A (chart_cell tp.2 (i, j)) = Some v →
  ∃ idx c, cands g tp.2 i j !! idx = Some c ∧ r_lhs c.2 = A ∧
    cand_score tp.2 i j c = Ok v ∧
    od_get A (chart_cell tp.1 (i, j)) = Some (cand_bp i j c) ∧
    ∀ idx' c', cands g tp.2 i j !! idx' = Some c' → r_lhs c'.2 = A →
      ∃ s', cand_score tp.2 i j c' = Ok s' ∧ fle s' v ∧ (idx' < idx → fgt v s' = true).
Proof.
  intros Hu Heqs Hij Hj Hv.
  pose proof (cells_ok g toks tp Hu Heqs) as Hok.
  destruct Heqs as (E1 & E2 & E3 & E4).
  assert (∀ k, i < k < j → cell_ok g toks tp i k ∧ cell_ok g toks tp k j) as Hparts.
  { intros k' Hk'. split; apply (Hok (length toks)); lia. }
  assert (∀ c, c ∈ cands g tp.2 i j → ∃ s, cand_score tp.2 i j c = Ok s) as Hscore.
  { intros [[[k x] y] r] Hc.
    destruct (Hparts k) as [Hc1 Hc2]; [by apply (cand_in_span _ _ _ _ _ Hc)|].
    destruct (cand_parts g toks tp i j k x y r Hu Hc1 Hc2 Hc)
      as (lp & a & b & _ & _ & _ & _ & _ & _ & Hs & _). eauto. }
  destruct (E4 i j Hij ltac:(lia)) as [Et Ep].
  unfold chart_cell in *. rewrite Ep in Hv. rewrite Et. simpl in *.
  pose proof (scored_logscore g toks tp i j Hu Hparts) as Hfin.
  destruct (fill_cell_spec (scored g tp.2 i j) A Hfin) as [Hout Hin].
  destruct (decide (A ∈ (scored g tp.2 i j).*1.*1)) as [HA|HA];
    [|destruct (Hout HA); congruence].
  destruct (Hin HA) as (idx & s & b & Hidx & Htb & Hpb & Hmax).
  assert (s = v) as -> by congruence.
  unfold scored in Hidx. rewrite list_lookup_fmap in Hidx.
  destruct (cands g tp.2 i j !! idx) as [c|] eqn:Ec; [|done].
  simpl in Hidx. injection Hidx as Hlhs Hs Hb.
  exists idx, c. split; [done|]. split; [done|].
  destruct (Hscore c) as [s Hcs]; [by eapply list_elem_of_lookup_2|].
  rewrite Hcs in Hs. simpl in Hs. subst s.
  split; [done|]. split; [by rewrite Htb, Hb|].
  intros idx' c' Ec' Hlhs'.
  destruct (Hscore c') as [s' Hcs']; [by eapply list_elem_of_lookup_2|].
  exists s'. split; [done|]. apply (Hmax idx' s' (cand_bp i j c')).
  unfold scored. rewrite list_lookup_fmap, Ec'. simpl. unfold scored_cand.
  by rewrite Hcs', Hlhs'.
Qed.

(** Stored scores are log-scores and stored backpointers are not the
    placeholder. *)
Lemma entries_final g toks tp :
  unit_probs g →
  chart_eqs g toks (λ i j, i < j ≤ length toks) tp →
  (∀ sp pc A v, tp.2 !! sp = Some pc → od_get A pc = Some v → logscore v) ∧
  (∀ sp tc A b, tp.1 !! sp = Some tc → od_get A tc = Some b → b ≠ Sentinel).
Proof.
  intros Hu Heqs.
  pose proof (cells_ok g toks tp Hu Heqs) as Hok.
  destruct Heqs as (E1 & E2 & E3 & E4). split.
  - intros [i j] pc A v Hpc Hv.
    assert (i < j ≤ length toks) as Hij by (apply E2; eauto).
    destruct (Hok (length toks) i j Hij ltac:(lia)) as (tc' & pc' & _ & Hpc' & Hcell).
    assert (pc' = pc) as -> by congruence.
    destruct (Hcell A) as (_ & _ & Hval). by apply (Hval v).
  - intros [i j] tc A b Htc Hb.
    assert (i < j ≤ length toks) as Hij by (apply E1; eauto).
    destruct (decide (j = i + 1)) as [->|Hlong].
    + destruct (lookup_lt_is_Some_2 toks i) as [tok Htok]; [lia|].
      destruct (E3 i tok Hij Htok) as [Et _].
      assert (tc = (leaf_cell tok (leaf_pairs g tok)).1) as -> by congruence.
      destruct (leaf_cell_spec tok (leaf_pairs g tok) A) as [Hout Hin].
      destruct (decide (A ∈ (leaf_pairs g tok).*1)) as [HA|HA].
      * destruct (Hin HA) as [Ht _]. congruence.
      * destruct (Hout HA) as [Ht _]. congruence.
    + destruct (E4 i j ltac:(lia) Hij) as [Et _].
      assert (tc = (fill_cell (scored g tp.2 i j)).1) as -> by congruence.
      assert (∀ k, i < k < j → cell_ok g toks tp i k ∧ cell_ok g toks tp k j) as Hparts.
      { intros k' Hk'. split; apply (Hok (length toks)); lia. }
      pose proof (scored_logscore g toks tp i j Hu Hparts) as Hfin.
      destruct (fill_cell_spec (scored g tp.2 i j) A Hfin) as [Hout Hin].
      destruct (decide (A ∈ (scored g tp.2 i j).*1.*1)) as [HA|HA];
        [|destruct (Hout HA); congruence].
      destruct (Hin HA) as (idx & s & b' & Hidx & Htb & _).
      assert (b' = b) as -> by congruence.
      unfold scored in Hidx. rewrite list_lookup_fmap in Hidx.
      destruct (cands g tp.2 i j !! idx) as [c|]; [|done].
      simpl in Hidx. injection Hidx as _ _ <-. done.
Qed.

(** [get_tree] on a nonterminal present in a cell returns a tree over
    exactly the tokens of the span, given fuel for the span length. *)
Lemma get_tree_ok g toks tp :
  unit_probs g →
  chart_eqs g toks (λ i j, i < j ≤ length toks) tp →
  ∀ d i j, i < j ≤ length toks → j - i ≤ d →
  ∀ A, is_Some (od_get A (chart_cell tp.1 (i, j))) →
  ∀ fuel, d ≤ fuel →
  ∃ t, get_tree fuel tp.1 i j A = Ok t ∧ leaves t = slice toks i j.
Proof.
  intros Hu Heqs.
  pose proof (cells_ok g toks tp Hu Heqs) as Hok.
  destruct Heqs as (E1 & E2 & E3 & E4).
  induction d as [|d IH]; intros i j Hij Hd A HA fuel Hfuel; [lia|].
  destruct fuel as [|fuel]; [lia|]. simpl.
  unfold getentry, getcell. unfold chart_cell in HA.
  destruct (decide (j = i + 1)) as [->|Hlong].
  - destruct (lookup_lt_is_Some_2 toks i) as [tok Htok]; [lia|].
    destruct (E3 i tok Hij Htok) as [Et _]. rewrite Et in HA |- *. simpl in *.
    destruct (leaf_cell_spec tok (leaf_pairs g tok) A) as [Hout Hin].
    destruct (decide (A ∈ (leaf_pairs g tok).*1)) as [Hk|Hk].
    + destruct (Hin Hk) as [-> _]. simpl. eexists. split; [done|].
      simpl. symmetry. by apply slice_one.
    + destruct (Hout Hk) as [Hn _]. rewrite Hn in HA. by destruct HA.
  - destruct (E4 i j ltac:(lia) Hij) as [Et _]. rewrite Et in HA |- *. simpl in *.
    assert (∀ k, i < k < j → cell_ok g toks tp i k ∧ cell_ok g toks tp k j) as Hparts.
    { intros k' Hk'. split; apply (Hok (length toks)); lia. }
    pose proof (scored_logscore g toks tp i j Hu Hparts) as Hfin.
    destruct (fill_cell_spec (scored g tp.2 i j) A Hfin) as [Hout Hin].
    destruct (decide (A ∈ (scored g tp.2 i j).*1.*1)) as [Hk|Hk].
    + destruct (Hin Hk) as (idx & s & b & Hidx & -> & _). simpl.
      unfold scored in Hidx. rewrite list_lookup_fmap in Hidx.
      destruct (cands g tp.2 i j !! idx) as [[[[k x] y] r]|] eqn:Ec; [|done].
      simpl in Hidx. injection Hidx as _ _ <-.
      apply list_elem_of_lookup_2 in Ec.
      pose proof (cand_in_span _ _ _ _ _ Ec) as Hspan. simpl in Hspan.
      destruct (Hparts k Hspan) as [Hc1 Hc2].
      destruct (cand_parts g toks tp i j k x y r Hu Hc1 Hc2 Ec)
        as (lp & a & b' & tl & tr & _ & _ & _ & _ & _ & _ & _ & _ & _ & _ & _ & _ & _
               & Hx & Hy).
      unfold cand_bp. cbn [fst snd].
      destruct (IH i k ltac:(lia) ltac:(lia) x Hx fuel ltac:(lia)) as (t1 & -> & Hl1).
      destruct (IH k j ltac:(lia) ltac:(lia) y Hy fuel ltac:(lia)) as (t2 & -> & Hl2).
      simpl. eexists. split; [done|]. simpl. rewrite Hl1, Hl2.
      symmetry. apply slice_app; lia.
    + destruct (Hout Hk) as [Hn _]. rewrite Hn in HA. by destruct HA.
Qed.
End chart_best.

(** ** Grammar validation ([Pcfg.verify_grammar])

    [str.isupper] is a primitive of Python's string library, defined on
    Unicode text through the case of each character.  It is taken as it
    is: the validation is a function of its answers, whatever they are. *)

Class CaseOps : Type := {
  isupper : string → bool;               (* s.isupper() *)
}.

Module AsciiCase.
(** [str.isupper] on symbols written in ASCII: no lower-case letter and at
    least one upper-case letter.  The example grammars are written in
    ASCII. *)
Definition is_upper_char (c : Ascii.ascii) : bool :=
  (65 <=? Ascii.nat_of_ascii c) && (Ascii.nat_of_ascii c <=? 90).

Definition is_lower_char (c : Ascii.ascii) : bool :=
  (97 <=? Ascii.nat_of_ascii c) && (Ascii.nat_of_ascii c <=? 122).

Definition ascii_isupper (s : string) : bool :=
  forallb (λ c, negb (is_lower_char c)) (String.list_ascii_of_string s) &&
  existsb is_upper_char (String.list_ascii_of_string s).

Global Instance ascii_case : CaseOps := {| isupper := ascii_isupper |}.
End AsciiCase.

Section verify.
Context {FO : FloatOps} {CO : CaseOps}.

(** [(len(rule)==2 and all([i.isupper() for i in rule])) or len(rule)==1] *)
Definition shape_ok (rhs : list string) : bool :=
  ((length rhs =? 2) && forallb isupper rhs) || (length rhs =? 1).

(** [isclose(fsum([i for _,_,i in rules]),1,rel_tol=1e-05)]; what
    [math.fsum] raises is raised by the validation. *)
Definition sum_ok (rs : list rule) : result bool :=
  result_bind (fsum (r_prob <$> rs)) (λ s, Ok (isclose1 s)).

(** The inner loop over the rules of one left-hand side: the first rule of
    a wrong shape ends the validation. *)
Fixpoint check_shapes (rs : list rule) : option string :=
  match rs with
  | [] => None
  | r :: rs' =>
      if negb (shape_ok (r_rhs r)) then Some "error: wrong format!"
      else check_shapes rs'
  end.

(** The outer loop over the keys of [lhs_to_rules], in dictionary order. *)
Fixpoint verify_lhs (d : list (string * list rule)) : result string :=
  match d with
  | [] => Ok "confirmation!"
  | (_, rs) :: d' =>
      match sum_ok rs with
      | Raise e => Raise e
      | Ok false => Ok "error: sum!=1!"
      | Ok true =>
          match check_shapes rs with
          | Some e => Ok e
          | None => verify_lhs d'
          end
      end
  end.

Definition verify_grammar (g : Pcfg) : result string :=
  verify_lhs (lhs_to_rules g).
End verify.

(** ** The backpointer-chart validator ([check_table_format])

    The validator inspects an arbitrary Python object.  The values it can
    tell apart are modelled: [None], integers, strings, tuples and dicts
    (as lists of items, in iteration order). *)

#[local] Unset Elimination Schemes.
Inductive pyval : Type :=
  | PNone
  | PInt (z : Z)
  | PStr (s : string)
  | PTuple (l : list pyval)
  | PDict (d : list (pyval * pyval)).
#[local] Set Elimination Schemes.

Definition is_tuple (v : pyval) : bool := match v with PTuple _ => true | _ => false end.
Definition is_str (v : pyval) : bool := match v with PStr _ => true | _ => false end.
Definition is_int (v : pyval) : bool := match v with PInt _ => true | _ => false end.

(** [len(v)]: [TypeError] on values without a length. *)
Definition py_len (v : pyval) : result nat :=
  match v with
  | PStr s => Ok (String.length s)
  | PTuple l => Ok (length l)
  | PDict d => Ok (length d)
  | PNone | PInt _ => Raise TypeError
  end.

(** [v[n]] for a non-negative integer [n]. *)
Definition py_index (v : pyval) (n : nat) : result pyval :=
  match v with
  | PStr s =>
      match String.get n s with
      | Some c => Ok (PStr (String c EmptyString))
      | None => Raise IndexError
      end
  | PTuple l => index l n
  | PDict _ => Raise KeyError
  | PNone | PInt _ => Raise TypeError
  end.

(** What a run of the validator does: the messages written to the error
    stream, and the value returned or the exception raised. *)
Definition outcome : Type := list string * result bool.

(** The condition on a key:
    [not isinstance(split, tuple) and len(split) ==2 and
     isinstance(split[0], int) and isinstance(split[1], int)],
    where [not] applies to the first test only. *)
Definition key_rejected (split : pyval) : result bool :=
  if is_tuple split then Ok false
  else
    result_bind (py_len split) (λ n,
      if n =? 2 then
        result_bind (py_index split 0) (λ a,
          if is_int a then
            result_bind (py_index split 1) (λ b, Ok (is_int b))
          else Ok false)
      else Ok false).

(** One backpointer [bp] of a pair; [None] when it passes. *)
Definition check_bp (b : pyval) : option outcome :=
  match b with
  | PTuple [b0; b1; b2] =>
      if is_str b0 && is_int b1 && is_int b2 then None
      else Some (["Values of the inner dictionary (for each span and nonterminal) must be a pair ((i,k,A),(k,j,B)) of backpointers. Backpointer has incorrect type."], Ok false)
  | _ => Some (["Values of the inner dictionary (for each span and nonterminal) must be a pair ((i,k,A),(k,j,B)) of backpointers. Backpointer has length != 3."], Ok false)
  end.

Fixpoint check_bps (bps : list pyval) : option outcome :=
  match bps with
  | [] => None
  | b :: bps' =>
      match check_bp b with
      | Some o => Some o
      | None => check_bps bps'
      end
  end.

(** One item [nt, bps] of the inner dictionary of a span. *)
Definition check_entry (nt bps : pyval) : option outcome :=
  if negb (is_str nt) then
    Some (["Keys of the inner dictionary (for each span) must be strings representing nonterminals."], Ok false)
  else if is_str bps then None
  else
    match bps with
    | PTuple l =>
        if negb (length l =? 2) then
          Some (["Values of the inner dictionary (for each span and nonterminal) must be a pair ((i,k,A),(k,j,B)) of backpointers. Found more than two backpointers: {}"], Ok false)
        else check_bps l
    | _ =>
        Some (["Values of the inner dictionary (for each span and nonterminal) must be a pair ((i,k,A),(k,j,B)) of backpointers. Incorrect type: {}"], Ok false)
    end.

Fixpoint check_entries (d : list (pyval * pyval)) : option outcome :=
  match d with
  | [] => None
  | (nt, bps) :: d' =>
      match check_entry nt bps with
      | Some o => Some o
      | None => check_entries d'
      end
  end.

(** One item [split, table[split]] of the table. *)
Definition check_span (split v : pyval) : option outcome :=
  match key_rejected split with
  | Raise e => Some ([], Raise e)
  | Ok true =>
      Some (["Keys of the backpointer table must be tuples (i,j) representing spans."], Ok false)
  | Ok false =>
      match v with
      | PDict d => check_entries d
      | _ => Some (["Value of backpointer table (for each span) is not a dict."], Ok false)
      end
  end.

Fixpoint check_spans (d : list (pyval * pyval)) : option outcome :=
  match d with
  | [] => None
  | (split, v) :: d' =>
      match check_span split v with
      | Some o => Some o
      | None => check_spans d'
      end
  end.

Definition check_table_format (table : pyval) : outcome :=
  match table with
  | PDict d =>
      match check_spans d with
      | Some o => o
      | None => ([], Ok true)
      end
  | _ => (["Backpointer table is not a dict."], Ok false)
  end.

(** A key that is a pair of integers, as the validator's message asks. *)
Definition is_span_key (v : pyval) : bool :=
  match v with
  | PTuple [PInt _; PInt _] => true
  | _ => false
  end.

(** ** The fixed-point model satisfies the float laws *)

Module FixedLaws.
Import Fixed.

Lemma fx_log2_bound m : (0 < m ≤ 1024)%Z → ((Z.log2 m - 10) * 1024 ≤ 0)%Z.
Proof.
  intros Hm. assert (Z.log2 m ≤ Z.log2 1024)%Z as Hle by (apply Z.log2_le_mono; lia).
  change (Z.log2 1024) with 10%Z in Hle. lia.
Qed.

Global Instance fx_laws : FloatLaws.
Proof.
  split.
  - intros [|m] [Hpos Hone]; simpl in *; [done|].
    apply Z.ltb_lt in Hpos. apply Z.ltb_ge in Hone.
    rewrite (proj2 (Z.ltb_lt 0 m) Hpos). eexists. split; [done|].
    split; [done|]. simpl. apply Z.ltb_ge. apply fx_log2_bound. lia.
  - intros [|a] [|b] [Ha Ha'] [Hb Hb']; simpl in *; try done.
    split; [done|]. simpl. apply Z.ltb_ge. apply Z.ltb_ge in Ha', Hb'. lia.
  - done.
  - by intros [|a].
  - intros [|a] _; simpl; [done|]. apply Z.ltb_irrefl.
  - intros [|a] [|b] [|c] _ _ _; simpl; try done.
    rewrite !Z.ltb_lt. lia.
  - intros [|a] [|b] [Ha _] [Hb _]; simpl in *; try done.
    rewrite !Z.ltb_ge. intros. f_equal. lia.
  - intros [|a] [|a'] [|b] [Ha _] [Ha' _] [Hb _]; unfold fle; simpl in *; try done.
    rewrite !Z.ltb_ge. lia.
  - intros [|a] [|b] [|b'] [Ha _] [Hb _] [Hb' _]; unfold fle; simpl in *; try done.
    rewrite !Z.ltb_ge. lia.
Qed.
End FixedLaws.

(** ** Runs of the engines *)

Section runs.
Context {FO : FloatOps} {SO : SetOrder}.

Lemma frame_is_in_language toks : frame (is_in_language toks).
Proof.
  unfold is_in_language.
  repeat first
    [ apply frame_ret | apply frame_lift | apply frame_rhs_get
    | apply frame_get_startsymbol | apply frame_bind | apply frame_for
    | match goal with |- ∀ _, _ => intro end ].
Qed.

Lemma frame_parse toks : frame (parse_with_backpointers toks).
Proof.
  unfold parse_with_backpointers.
  repeat first
    [ apply frame_ret | apply frame_lift | apply frame_rhs_get
    | apply frame_bind | apply frame_for
    | match goal with
      | |- frame (if ?b then _ else _) => destruct b
      | |- ∀ _, _ => intro
      end ].
Qed.


Lemma parse_nil g : parse_with_backpointers [] g = (Ok (∅, ∅), g).
Proof. reflexivity. Qed.

Context {FL : FloatLaws}.

Lemma unit_probs_log2 g : unit_probs g → log2_defined g.
Proof.
  intros Hu k r Hr. destruct (log2_unit (r_prob r)) as (s & Hs & _); [by eapply Hu|].
  eauto.
Qed.

Lemma parse_returns g toks :
  unit_probs g →
  ∃ tb pb g', parse_with_backpointers toks g = (Ok (tb, pb), g') ∧
    chart_eqs g toks (λ i j, i < j ≤ length toks) (tb, pb).
Proof.
  intros Hu.
  destruct (wp_parse g toks (unit_probs_log2 g Hu) g (gext_refl g))
    as ([tb pb] & g' & Hrun & _ & Heqs).
  by exists tb, pb, g'.
Qed.
End runs.

(** ** Validation: the result of [verify_grammar] *)

Section verify_facts.
Context {FO : FloatOps} {CO : CaseOps}.

(** A right-hand side of one symbol, or of two upper-case symbols. *)
Definition cnf_shape (rhs : list string) : Prop :=
  length rhs = 1 ∨ (length rhs = 2 ∧ ∀ s, s ∈ rhs → isupper s = true).

(** [math.fsum] returns the sum of the probabilities of the rules, and it
    is 1 within the tolerance. *)
Definition sums_to_one (rs : list rule) : Prop :=
  ∃ s, fsum (r_prob <$> rs) = Ok s ∧ isclose1 s = true.

(** [math.fsum] returns a sum that is not 1 within the tolerance. *)
Definition sum_off (rs : list rule) : Prop :=
  ∃ s, fsum (r_prob <$> rs) = Ok s ∧ isclose1 s = false.

(** The rules of one left-hand side pass both checks. *)
Definition lhs_ok (rs : list rule) : Prop :=
  sums_to_one rs ∧ ∀ r, r ∈ rs → cnf_shape (r_rhs r).

(** The left-hand sides before the entry [(A, rs)] of the dictionary pass
    both checks. *)
Definition first_failing (d : list (string * list rule)) (rs : list rule) : Prop :=
  ∃ pre A post, d = pre ++ (A, rs) :: post ∧ ∀ B rs', (B, rs') ∈ pre → lhs_ok rs'.

Lemma shape_ok_spec rhs : shape_ok rhs = true ↔ cnf_shape rhs.
Proof.
  unfold shape_ok, cnf_shape.
  rewrite orb_true_iff, andb_true_iff, !Nat.eqb_eq, forallb_forall. split.
  - intros [[Hl Hall]|Hl]; [right|by left].
    split; [done|]. intros s Hs. apply Hall. by apply list_elem_of_In.
  - intros [Hl|[Hl Hall]]; [by right|left].
    split; [done|]. intros s Hs. apply Hall. by apply list_elem_of_In.
Qed.

Lemma check_shapes_spec rs :
  (check_shapes rs = None ∧ ∀ r, r ∈ rs → cnf_shape (r_rhs r)) ∨
  (check_shapes rs = Some "error: wrong format!" ∧
   ∃ r, r ∈ rs ∧ ¬ cnf_shape (r_rhs r)).
Proof.
  induction rs as [|r rs IH]; simpl.
  - left. split; [done|]. by intros r ?%elem_of_nil.
  - destruct (shape_ok (r_rhs r)) eqn:E; simpl.
    + apply shape_ok_spec in E. destruct IH as [[-> Hall]|[-> (r' & Hr' & Hbad)]].
      * left. split; [done|]. intros r' [->|?]%elem_of_cons; auto.
      * right. split; [done|]. exists r'. split; [by right|done].
    + right. split; [done|]. exists r. split; [by left|].
      rewrite <-shape_ok_spec. congruence.
Qed.

Lemma sum_ok_cases rs :
  (sum_ok rs = Ok true ∧ sums_to_one rs) ∨
  (sum_ok rs = Ok false ∧ sum_off rs) ∨
  (∃ e, sum_ok rs = Raise e ∧ fsum (r_prob <$> rs) = Raise e).
Proof.
  unfold sum_ok, sums_to_one, sum_off.
  destruct (fsum (r_prob <$> rs)) as [s|e]; simpl.
  - destruct (isclose1 s) eqn:E.
    + left. split; [done|]. by exists s.
    + right; left. split; [done|]. by exists s.
  - right; right. by exists e.
Qed.

(** The three outcomes of the sum check exclude one another. *)
Lemma sum_one_off rs : sums_to_one rs → sum_off rs → False.
Proof. intros (s & Hs & H1) (s' & Hs' & H2). congruence. Qed.

Lemma sum_one_raise rs e : sums_to_one rs → fsum (r_prob <$> rs) = Raise e → False.
Proof. intros (s & Hs & _) He. congruence. Qed.



(** The first left-hand side (in dictionary order) that fails a check, and
    the check it fails first, decide the result. *)
Lemma verify_lhs_cases d :
  (verify_lhs d = Ok "confirmation!" ∧ ∀ A rs, (A, rs) ∈ d → lhs_ok rs) ∨
  (verify_lhs d = Ok "error: sum!=1!" ∧
   ∃ rs, first_failing d rs ∧ sum_off rs) ∨
  (verify_lhs d = Ok "error: wrong format!" ∧
   ∃ rs r, first_failing d rs ∧ sums_to_one rs ∧ r ∈ rs ∧ ¬ cnf_shape (r_rhs r)) ∨
  (∃ e, verify_lhs d = Raise e ∧
   ∃ rs, first_failing d rs ∧ fsum (r_prob <$> rs) = Raise e).
Proof.
  assert (∀ A rs d' rs', lhs_ok rs → first_failing d' rs' →
            first_failing ((A, rs) :: d') rs') as Hcons.
  { intros A rs d' rs' Hrs (pre & B & post & -> & Hpre).
    exists ((A, rs) :: pre), B, post. split; [done|].
    intros C rs'' [[= -> ->]|?]%elem_of_cons; eauto. }
  assert (∀ A rs d', first_failing ((A, rs) :: d') rs) as Hhead.
  { intros A rs d'. exists [], A, d'. split; [done|]. by intros B rs' ?%elem_of_nil. }
  induction d as [|[A rs] d IH]; simpl.
  - left. split; [done|]. by intros A rs ?%elem_of_nil.
  - destruct (sum_ok_cases rs) as [[-> Hsum]|[[-> Hoff]|(e & -> & He)]].
    + destruct (check_shapes_spec rs) as [[-> Hall]|[-> (r & Hr & Hbad)]].
      * assert (lhs_ok rs) as Hrs by done.
        destruct IH as [[-> Hok]|[[-> (rs' & Hff & Hbad)]
                                 |[[-> (rs' & r & Hff & Hs & Hr & Hbad)]
                                  |(e & -> & rs' & Hff & He)]]].
        -- left. split; [done|]. intros B rs' [[= -> ->]|?]%elem_of_cons; eauto.
        -- right; left. split; [done|]. exists rs'. split; [by apply Hcons|done].
        -- right; right; left. split; [done|]. exists rs', r.
           split; [by apply Hcons|done].
        -- right; right; right. exists e. split; [done|]. exists rs'.
           split; [by apply Hcons|done].
      * right; right; left. split; [done|]. by exists rs, r.
    + right; left. split; [done|]. by exists rs.
    + right; right; right. exists e. split; [done|]. by exists rs.
Qed.
End verify_facts.

(** * The stated properties *)

Section recogniser_claims.
Context {FO : FloatOps}.

(** The grammar [g'] is [g] with, possibly, new keys in [rhs_to_rules]
    bound to the empty list. *)
Definition extended (g g' : Pcfg) : Prop :=
  lhs_to_rules g' = lhs_to_rules g ∧
  startsymbol g' = startsymbol g ∧
  ∀ k, rhs_to_rules g' !! k = rhs_to_rules g !! k ∨
       (rhs_to_rules g !! k = None ∧ rhs_to_rules g' !! k = Some []).

(** C2.  For a non-empty token sequence [is_in_language] returns, and it
    returns [True] exactly when the start symbol derives the sequence by
    rules in Chomsky normal form (unary rules on the tokens, binary rules
    above them).  The answer is the same for any grammar that lists the
    same left-hand sides under every right-hand side, whatever the
    probabilities. *)
Theorem is_in_language_correct (g : Pcfg) (toks : list string) :
  toks ≠ [] →
  (∃ b g', is_in_language toks g = (Ok b, g') ∧
     (b = true ↔ ∃ S, startsymbol g = Some S ∧ derives g S toks)) ∧
  (∀ g2, startsymbol g2 = startsymbol g →
     (∀ k, r_lhs <$> rules g2 k = r_lhs <$> rules g k) →
     (is_in_language toks g2).1 = (is_in_language toks g).1).
Proof.
  intros Hne.
  destruct (is_in_language_wp g toks Hne g (gext_refl g)) as (b & g' & Hrun & _ & Hb).
  split; [by exists b, g'|].
  intros g2 Hstart Hshape.
  destruct (is_in_language_wp g2 toks Hne g2 (gext_refl g2)) as (b2 & g2' & Hrun2 & _ & Hb2).
  rewrite Hrun, Hrun2. simpl. f_equal.
  assert (b2 = true ↔ b = true) as Hiff.
  { rewrite Hb, Hb2, Hstart. split; intros (S & HS & Hd); exists S; (split; [done|]).
    - by apply (derives_same_shape g2 g).
    - by apply (derives_same_shape g g2). }
  destruct b, b2; try done; [by apply Hiff|symmetry; by apply Hiff].
Qed.

(** C6.  On the empty token sequence [parse_with_backpointers] returns
    two empty charts, but [is_in_language] does not return [False]: the
    table [pi] has no row and [pi[0]] raises [IndexError]. *)
Theorem empty_tokens (SO : SetOrder) (g : Pcfg) :
  is_in_language [] g = (Raise IndexError, g) ∧
  parse_with_backpointers [] g = (Ok (∅, ∅), g).
Proof. split; reflexivity. Qed.

(** C7 (as amended).  Whatever they return or raise, the engines leave
    [lhs_to_rules] and the start symbol as they were and only extend
    [rhs_to_rules]: a key that was bound keeps its rule list, and a key
    that is new is bound to the empty list. *)
Theorem engines_extend_grammar (SO : SetOrder) (g : Pcfg) (toks : list string) :
  extended g (is_in_language toks g).2 ∧
  extended g (parse_with_backpointers toks g).2.
Proof.
  assert (∀ g', gext g g' → extended g g') as Hext.
  { intros g' [Hl Hs Hr Hk]. split; [done|]. split; [done|]. intros k.
    specialize (Hr k). specialize (Hk k). unfold rules in Hr.
    destruct (rhs_to_rules g !! k) as [rs|] eqn:E.
    - left. destruct Hk as [rs' Hrs']; [eauto|]. rewrite Hrs' in Hr |- *.
      simpl in Hr. by subst.
    - destruct (rhs_to_rules g' !! k) as [rs'|]; [|by left].
      right. simpl in Hr. by subst. }
  split; apply Hext; [apply frame_is_in_language|apply frame_parse].
Qed.
End recogniser_claims.

Section viterbi_claims.
Context {FO : FloatOps} {SO : SetOrder} {FL : FloatLaws}.

(** C1 (as amended).  When no nonterminal has two unary rules of different
    probabilities for the same token, every score stored in the returned
    probability chart is the score of a derivation of its nonterminal over
    its span, and no derivation of that nonterminal over that span scores
    more. *)
Theorem viterbi_score_is_max (g : Pcfg) (toks : list string) :
  unit_probs g → unary_functional g →
  ∃ tb pb g', parse_with_backpointers toks g = (Ok (tb, pb), g') ∧
    ∀ i j pc A v, pb !! (i, j) = Some pc → od_get A pc = Some v →
      (∃ t, derivation g t ∧ root t = A ∧ yield t = slice toks i j ∧ score t = Ok v) ∧
      (∀ t, derivation g t → root t = A → yield t = slice toks i j →
         ∃ s, score t = Ok s ∧ fle s v).
Proof.
  intros Hu Hfun. destruct (parse_returns g toks Hu) as (tb & pb & g' & Hrun & Heqs).
  exists tb, pb, g'. split; [done|]. intros i j pc A v Hpc Hv.
  assert (i < j ≤ length toks) as Hij.
  { destruct Heqs as (_ & E2 & _). apply (E2 i j). eauto. }
  split.
  - destruct (cells_ok g toks (tb, pb) Hu Heqs (length toks) i j Hij ltac:(lia))
      as (tc' & pc' & _ & Hpc' & Hcell). cbn [fst snd] in *.
    assert (pc' = pc) as -> by congruence.
    destruct (Hcell A) as (_ & _ & Hval). by apply (Hval v).
  - intros t Ht Hroot Hy.
    destruct (cells_max g toks (tb, pb) Hu Hfun Heqs (length toks) i j Hij ltac:(lia) t Ht Hy)
      as (s & v' & Hs & Hv' & Hle).
    unfold chart_cell in Hv'. cbn [fst snd] in Hv'. rewrite Hpc, Hroot in Hv'. simpl in Hv'.
    exists s. split; [done|]. congruence.
Qed.



(** C8.  With rule probabilities in (0,1], every score in the returned
    probability chart is finite and not positive, so it is not the initial
    minus infinity, and no entry of the returned backpointer chart is the
    placeholder. *)
Theorem chart_entries_final (g : Pcfg) (toks : list string) :
  unit_probs g →
  ∃ tb pb g', parse_with_backpointers toks g = (Ok (tb, pb), g') ∧
    (∀ sp pc A v, pb !! sp = Some pc → od_get A pc = Some v →
       isfinite v = true ∧ fgt v fzero = false ∧ v ≠ neg_inf) ∧
    (∀ sp tc A b, tb !! sp = Some tc → od_get A tc = Some b → b ≠ Sentinel).
Proof.
  intros Hu. destruct (parse_returns g toks Hu) as (tb & pb & g' & Hrun & Heqs).
  exists tb, pb, g'. split; [done|].
  destruct (entries_final g toks (tb, pb) Hu Heqs) as [Hp Ht]. split; [|exact Ht].
  intros sp pc A v Hpc Hv. pose proof (Hp sp pc A v Hpc Hv) as Hls.
  destruct Hls as [Hfin Hle]. split; [done|]. split; [done|].
  by apply logscore_not_neg_inf.
Qed.
End viterbi_claims.

(** ** One nonterminal of a cell: a scan of its candidates

    For one left-hand side, filling a cell is a scan of the candidates for
    it, in enumeration order, that starts from minus infinity and the
    placeholder and takes a candidate when its score is greater than the
    score kept so far.  Nothing is assumed of the floats. *)

Section cell_scan.
Context {FO : FloatOps}.

(** [if prob > pb[(i,j)][l]: pb[(i,j)][l] = prob; tb[(i,j)][l] = ...],
    over the candidates of one left-hand side. *)
Fixpoint kept (cur : float * bp) (cs : list (float * bp)) : float * bp :=
  match cs with
  | [] => cur
  | c :: cs' => kept (if fgt c.1 cur.1 then c else cur) cs'
  end.

(** The scores and backpointers of the candidates for [A], in order. *)
Definition for_lhs (A : string) (cs : list (string * float * bp)) : list (float * bp) :=
  (λ c, (c.1.2, c.2)) <$> filter (λ c, c.1.1 = A) cs.

Lemma kept_app cur cs1 cs2 : kept cur (cs1 ++ cs2) = kept (kept cur cs1) cs2.
Proof. revert cur. induction cs1 as [|c cs1 IH]; intros cur; simpl; [done|apply IH]. Qed.

Lemma kept_stays cur cs : (∀ c, c ∈ cs → fgt c.1 cur.1 = false) → kept cur cs = cur.
Proof.
  induction cs as [|c cs IH]; intros Hle; simpl; [done|].
  rewrite (Hle c) by by left. apply IH. intros c' Hc'. apply Hle. by right.
Qed.

Lemma kept_from cur cs : kept cur cs = cur ∨ kept cur cs ∈ cs.
Proof.
  revert cur. induction cs as [|c cs IH]; intros cur; simpl; [by left|].
  destruct (fgt c.1 cur.1).
  - right. destruct (IH c) as [->|Hin]; [by left|by right].
  - destruct (IH cur) as [->|Hin]; [by left|right; by right].
Qed.

(** A candidate that exceeds the initial score and every candidate before
    it, and that no later candidate exceeds, is the one kept. *)
Lemma kept_first cur pre c post :
  fgt c.1 cur.1 = true →
  (∀ c', c' ∈ pre → fgt c.1 c'.1 = true) →
  (∀ c', c' ∈ post → fgt c'.1 c.1 = false) →
  kept cur (pre ++ c :: post) = c.
Proof.
  intros Hcur Hpre Hpost. rewrite kept_app. simpl.
  assert (fgt c.1 (kept cur pre).1 = true) as ->.
  { destruct (kept_from cur pre) as [->|Hin]; [done|by apply Hpre]. }
  by apply kept_stays.
Qed.

Lemma cell_step_entry (cp : cell) c A v b :
  od_get A cp.2 = Some v → od_get A cp.1 = Some b →
  let e := if decide (c.1.1 = A)
           then (if fgt c.1.2 v then (c.1.2, c.2) else (v, b)) else (v, b) in
  od_get A (cell_step cp c).2 = Some e.1 ∧ od_get A (cell_step cp c).1 = Some e.2.
Proof.
  intros Hv Hb. cbv zeta. unfold cell_step. destruct (decide (c.1.1 = A)) as [E|Hne].
  - rewrite E, Hv. destruct (fgt c.1.2 v); cbn [fst snd]; [|done].
    by rewrite !od_get_set_eq.
  - destruct (od_get c.1.1 cp.2) as [cur|]; [|done].
    destruct (fgt c.1.2 cur); [|done]. cbn [fst snd].
    rewrite !od_get_set_ne by (intros ->; done). done.
Qed.

Lemma foldl_cell_step_kept cs A (cp : cell) v b :
  od_get A cp.2 = Some v → od_get A cp.1 = Some b →
  od_get A (foldl cell_step cp cs).2 = Some (kept (v, b) (for_lhs A cs)).1 ∧
  od_get A (foldl cell_step cp cs).1 = Some (kept (v, b) (for_lhs A cs)).2.
Proof.
  revert cp v b. induction cs as [|c cs IH]; intros cp v b Hv Hb; [done|].
  simpl. destruct (cell_step_entry cp c A v b Hv Hb) as [Hv' Hb'].
  cbv zeta in Hv', Hb'. unfold for_lhs.
  destruct (decide (c.1.1 = A)) as [E|Hne].
  - rewrite filter_cons_True by done. rewrite fmap_cons. simpl.
    fold (for_lhs A cs). cbn [fst snd].
    destruct (fgt c.1.2 v); by apply IH.
  - rewrite filter_cons_False by done. fold (for_lhs A cs). by apply IH.
Qed.

Lemma foldl_cell_step_absent cs A (cp : cell) :
  od_get A cp.2 = None → od_get A cp.1 = None →
  od_get A (foldl cell_step cp cs).2 = None ∧
  od_get A (foldl cell_step cp cs).1 = None.
Proof.
  revert cp. induction cs as [|c cs IH]; intros cp Hp Ht; [done|].
  simpl. apply IH.
  - apply eq_None_not_Some. rewrite cell_step_keys. by rewrite Hp; intros [? ?].
  - by apply cell_step_absent.
Qed.

(** What a filled cell holds for each left-hand side. *)
Lemma fill_cell_scan cs A :
  (A ∈ cs.*1.*1 →
     od_get A (fill_cell cs).2 = Some (kept (neg_inf, Sentinel) (for_lhs A cs)).1 ∧
     od_get A (fill_cell cs).1 = Some (kept (neg_inf, Sentinel) (for_lhs A cs)).2) ∧
  (A ∉ cs.*1.*1 →
     od_get A (fill_cell cs).2 = None ∧ od_get A (fill_cell cs).1 = None).
Proof.
  unfold fill_cell.
  destruct (cell_init_get (cs.*1.*1) ([], []) A) as [Hin Hout]. cbv zeta in Hin, Hout.
  split; intros HA.
  - destruct (Hin HA) as [Ht Hp]. by apply foldl_cell_step_kept.
  - destruct (Hout HA) as [Ht Hp]. by apply foldl_cell_step_absent.
Qed.

Lemma elem_of_for_lhs A cs e :
  e ∈ for_lhs A cs ↔ ∃ c, c ∈ cs ∧ c.1.1 = A ∧ e = (c.1.2, c.2).
Proof.
  unfold for_lhs. rewrite list_elem_of_fmap. split.
  - intros (c & -> & [HA Hc]%list_elem_of_filter). by exists c.
  - intros (c & Hc & HA & ->). exists c. split; [done|]. by apply list_elem_of_filter.
Qed.

Lemma fill_cell_first pre c post :
  fgt c.1.2 neg_inf = true →
  (∀ c', c' ∈ pre → c'.1.1 = c.1.1 → fgt c.1.2 c'.1.2 = true) →
  (∀ c', c' ∈ post → c'.1.1 = c.1.1 → fgt c'.1.2 c.1.2 = false) →
  od_get c.1.1 (fill_cell (pre ++ c :: post)).2 = Some c.1.2 ∧
  od_get c.1.1 (fill_cell (pre ++ c :: post)).1 = Some c.2.
Proof.
  intros Hcur Hpre Hpost.
  destruct (fill_cell_scan (pre ++ c :: post) c.1.1) as [Hin _].
  destruct Hin as [-> ->].
  { rewrite !fmap_app, !fmap_cons. apply elem_of_app. right. by left. }
  assert (for_lhs c.1.1 (pre ++ c :: post)
          = for_lhs c.1.1 pre ++ (c.1.2, c.2) :: for_lhs c.1.1 post) as ->.
  { unfold for_lhs. rewrite filter_app, filter_cons_True by done.
    by rewrite fmap_app, fmap_cons. }
  rewrite (kept_first (neg_inf, Sentinel) _ (c.1.2, c.2)); [done|done| |].
  - intros e (c' & Hc' & HA & ->)%elem_of_for_lhs. by apply Hpre.
  - intros e (c' & Hc' & HA & ->)%elem_of_for_lhs. by apply Hpost.
Qed.
End cell_scan.

Section tie_break.
Context {FO : FloatOps} {SO : SetOrder}.

(** C5.  In the charts that the engine returns there is a cell for every
    span of the input, and the cell of a single token has a key for each
    left-hand side of a rule for that token.  For a longer span, in the
    enumeration order of the engine (split point, then keys of the left
    cell, then keys of the right cell, then rules): every candidate has a
    score; the keys of the cell are the left-hand sides of the candidates;
    the entry of a left-hand side is what the scan of its candidates
    keeps, starting from minus infinity and the placeholder and taking a
    candidate only when its score is greater than the score kept so far;
    hence a candidate that scores more than minus infinity and than every
    earlier candidate for its left-hand side, and that no later candidate
    exceeds, gives the entry: of the candidates of greatest score the first
    one is kept. *)
Theorem tie_break_first (g : Pcfg) (toks : list string) tb pb g' :
  parse_with_backpointers toks g = (Ok (tb, pb), g') →
  (∀ i j, is_Some (tb !! (i, j)) ∧ is_Some (pb !! (i, j)) ↔ i < j ≤ length toks) ∧
  (∀ i tok A, toks !! i = Some tok →
     is_Some (od_get A (chart_cell pb (i, i + 1))) ↔ A ∈ r_lhs <$> rules g [tok]) ∧
  ∀ i j, i + 2 ≤ j → j ≤ length toks →
    (∀ c, c ∈ cands g pb i j → ∃ s, cand_score pb i j c = Ok s) ∧
    (∀ A, is_Some (od_get A (chart_cell pb (i, j))) ↔
          ∃ c, c ∈ cands g pb i j ∧ r_lhs c.2 = A) ∧
    (∀ A, is_Some (od_get A (chart_cell pb (i, j))) →
       od_get A (chart_cell pb (i, j))
         = Some (kept (neg_inf, Sentinel) (for_lhs A (scored g pb i j))).1 ∧
       od_get A (chart_cell tb (i, j))
         = Some (kept (neg_inf, Sentinel) (for_lhs A (scored g pb i j))).2) ∧
    (∀ pre c post s, cands g pb i j = pre ++ c :: post →
       cand_score pb i j c = Ok s → fgt s neg_inf = true →
       (∀ c' s', c' ∈ pre → r_lhs c'.2 = r_lhs c.2 →
          cand_score pb i j c' = Ok s' → fgt s s' = true) →
       (∀ c' s', c' ∈ post → r_lhs c'.2 = r_lhs c.2 →
          cand_score pb i j c' = Ok s' → fgt s' s = false) →
       od_get (r_lhs c.2) (chart_cell pb (i, j)) = Some s ∧
       od_get (r_lhs c.2) (chart_cell tb (i, j)) = Some (cand_bp i j c)).
Proof.
  intros Hrun. destruct (parse_returned g toks tb pb g' Hrun) as [Heqs [_ Hsc]].
  destruct Heqs as (E1 & E2 & E3 & E4). cbn [fst snd] in *.
  split; [|split].
  { intros i j. rewrite E1, E2. tauto. }
  { intros i tok A Htok.
    destruct (E3 i tok) as [_ Ep]; [apply lookup_lt_Some in Htok; lia|done|].
    unfold chart_cell. rewrite Ep. simpl. rewrite <-leaf_pairs_lhs.
    destruct (leaf_cell_spec tok (leaf_pairs g tok) A) as [Hout Hin].
    destruct (decide (A ∈ (leaf_pairs g tok).*1)) as [HA|HA].
    - destruct (Hin HA) as (_ & p & _ & ->). split; eauto.
    - destruct (Hout HA) as [_ ->]. split; [by intros [? ?]|done]. }
  intros i j Hij Hj.
  destruct (E4 i j) as [Et Ep]; [done|lia|].
  unfold chart_cell. rewrite Et, Ep. simpl.
  assert (∀ c, c ∈ cands g pb i j → ∃ s, cand_score pb i j c = Ok s) as Hdef.
  { intros c Hc. apply (Hsc i j c); [done|lia|done]. }
  assert (∀ A, A ∈ (scored g pb i j).*1.*1 ↔ ∃ c, c ∈ cands g pb i j ∧ r_lhs c.2 = A)
    as Hlhs.
  { intros A. rewrite scored_lhs, list_elem_of_fmap. split.
    - intros (c & -> & Hc). by exists c.
    - intros (c & Hc & <-). by exists c. }
  assert (∀ A, is_Some (od_get A (fill_cell (scored g pb i j)).2) ↔
               A ∈ (scored g pb i j).*1.*1) as Hkeys.
  { intros A. destruct (fill_cell_scan (scored g pb i j) A) as [Hin Hout].
    destruct (decide (A ∈ (scored g pb i j).*1.*1)) as [HA|HA].
    - destruct (Hin HA) as [-> _]. split; eauto.
    - destruct (Hout HA) as [-> _]. split; [by intros [? ?]|done]. }
  split; [done|]. split; [|split].
  - intros A. by rewrite Hkeys, Hlhs.
  - intros A HA%Hkeys. by apply fill_cell_scan.
  - intros pre c post s Hcs Hs Hgt Hpre Hpost.
    assert (scored g pb i j
            = (scored_cand pb i j <$> pre) ++ scored_cand pb i j c
                :: (scored_cand pb i j <$> post)) as ->.
    { unfold scored. by rewrite Hcs, fmap_app, fmap_cons. }
    assert (∀ c', c' ∈ cands g pb i j →
              ∃ s', cand_score pb i j c' = Ok s' ∧
                    scored_cand pb i j c' = (r_lhs c'.2, s', cand_bp i j c')) as Hsco.
    { intros c' Hc'. destruct (Hdef c' Hc') as [s' Hs']. exists s'. split; [done|].
      unfold scored_cand. by rewrite Hs'. }
    assert (scored_cand pb i j c = (r_lhs c.2, s, cand_bp i j c)) as Hc.
    { unfold scored_cand. by rewrite Hs. }
    destruct (fill_cell_first (scored_cand pb i j <$> pre) (scored_cand pb i j c)
                (scored_cand pb i j <$> post)) as [Hp Ht].
    + by rewrite Hc.
    + intros e (c' & -> & Hc')%list_elem_of_fmap. rewrite Hc.
      destruct (Hsco c') as (s' & Hs' & ->).
      { rewrite Hcs. apply elem_of_app. by left. }
      cbn [fst snd]. intros Hl. by apply (Hpre c').
    + intros e (c' & -> & Hc')%list_elem_of_fmap. rewrite Hc.
      destruct (Hsco c') as (s' & Hs' & ->).
      { rewrite Hcs. apply elem_of_app. right. by right. }
      cbn [fst snd]. intros Hl. by apply (Hpost c').
    + split; [|exact Ht]. etrans; [exact Hp|]. f_equal.
      unfold scored_cand. cbn [fst snd]. by rewrite Hs.
Qed.
End tie_break.

(** C9.  A table whose key is a tuple of three integers passes the
    validator without a message, and a table whose key is an integer
    makes it raise: the test on keys negates its first conjunct only. *)
Theorem check_table_format_bad_keys :
  is_span_key (PTuple [PInt 1; PInt 2; PInt 3]) = false ∧
  check_table_format (PDict [(PTuple [PInt 1; PInt 2; PInt 3], PDict [])])
    = ([], Ok true) ∧
  is_span_key (PInt 5) = false ∧
  check_table_format (PDict [(PInt 5, PDict [])]) = ([], Raise TypeError).
Proof. repeat split; reflexivity. Qed.


(** * Concrete runs *)

Section read_rules_facts.
Context {FO : FloatOps}.

Lemma rules_read_line g l k :
  rules (read_line g l) k =
  match l with
  | RuleLine r => if decide (r_rhs r = k) then rules g k ++ [r] else rules g k
  | StartLine _ => rules g k
  end.
Proof.
  destruct l as [r|s]; [|done]. unfold rules at 1. simpl.
  destruct (decide (r_rhs r = k)) as [<-|Hne].
  - by rewrite lookup_insert_eq.
  - by rewrite lookup_insert_ne.
Qed.

(** The index by right-hand side lists nothing but the rules read. *)
Lemma rules_read_rules ls k r :
  r ∈ rules (read_rules ls) k → RuleLine r ∈ ls.
Proof.
  unfold read_rules. induction ls as [|l ls IH] using rev_ind.
  - unfold rules. simpl. rewrite lookup_empty. by intros ?%elem_of_nil.
  - rewrite foldl_snoc, rules_read_line. intros Hr. apply elem_of_app.
    destruct l as [r'|s]; [|left; by apply IH].
    destruct (decide (r_rhs r' = k)); [|left; by apply IH].
    apply elem_of_app in Hr as [?|Hr%list_elem_of_singleton]; [left; by apply IH|].
    subst. right. by left.
Qed.
End read_rules_facts.

Module Examples.
Import Fixed FixedLaws.

Lemma dogs_bark_unit : unit_probs dogs_bark.
Proof.
  intros k r Hr%rules_read_rules.
  repeat (apply elem_of_cons in Hr as [Hr|Hr]; [by simplify_eq|]).
  by apply elem_of_nil in Hr.
Qed.

Lemma dogs_bark_functional : unary_functional dogs_bark.
Proof.
  intros tok r r' Hr%rules_read_rules Hr'%rules_read_rules Hlhs.
  repeat (apply elem_of_cons in Hr as [Hr|Hr]; [simplify_eq|]);
    try (by apply elem_of_nil in Hr);
    repeat (apply elem_of_cons in Hr' as [Hr'|Hr']; [by simplify_eq|]);
    by apply elem_of_nil in Hr'.
Qed.

(** [A -> x] three times, with probabilities 0.5, 0.25 and 0.25. *)
Definition twice : Pcfg :=
  read_rules
    [ RuleLine ("A", ["x"], Fx 512);
      RuleLine ("A", ["x"], Fx 256);
      RuleLine ("A", ["x"], Fx 256);
      StartLine "A" ].

Lemma twice_unit : unit_probs twice.
Proof.
  intros k r Hr%rules_read_rules.
  repeat (apply elem_of_cons in Hr as [Hr|Hr]; [by simplify_eq|]).
  by apply elem_of_nil in Hr.
Qed.

(** [A -> x ;0.0], [A -> y ;1.0], start [A]: the probabilities of [A] sum
    to 1. *)
Definition zero_first : Pcfg :=
  read_rules
    [ RuleLine ("A", ["x"], Fx 0);
      RuleLine ("A", ["y"], Fx 1024);
      StartLine "A" ].

(** [A -> x ;1.0], [B -> x ;1.0], [S -> A B ;0.5], [S -> B A ;0.5], start
    [S]: the two parses of [x x] have the same score. *)
Definition tie : Pcfg :=
  read_rules
    [ RuleLine ("A", ["x"], Fx 1024);
      RuleLine ("B", ["x"], Fx 1024);
      RuleLine ("S", ["A"; "B"], Fx 512);
      RuleLine ("S", ["B"; "A"], Fx 512);
      StartLine "S" ].

(** [S -> A b ;1.0], [T -> x ;0.5]: the rule of [S] has a wrong shape and
    the probabilities of [T] sum to 0.5. *)
Definition format_first : Pcfg :=
  read_rules
    [ RuleLine ("S", ["A"; "b"], Fx 1024);
      RuleLine ("T", ["x"], Fx 512) ].
End Examples.

Module WithNan.
Import Fixed.
(** The fixed-point model with a not-a-number value, as [float("nan")]
    gives: it propagates through [+] and [math.log2], and every comparison
    with it is false. *)
Inductive fn : Type := NaN | Num (a : fx).

Global Instance fn_eq_dec : EqDecision fn.
Proof. solve_decision. Defined.

Definition fn_add (a b : fn) : fn :=
  match a, b with
  | Num x, Num y => Num (fx_add x y)
  | _, _ => NaN
  end.

Definition fn_gt (a b : fn) : bool :=
  match a, b with
  | Num x, Num y => fx_gt x y
  | _, _ => false
  end.

Definition fn_log2 (a : fn) : result fn :=
  match a with
  | NaN => Ok NaN
  | Num x => match fx_log2 x with Ok s => Ok (Num s) | Raise e => Raise e end
  end.

Definition fn_ops : FloatOps := {|
  float := fn;
  fadd := fn_add;
  fgt := fn_gt;
  neg_inf := Num NInf;
  fzero := Num (Fx 0);
  fone := Num (Fx 1024);
  isfinite := λ a, match a with Num (Fx _) => true | _ => false end;
  log2 := fn_log2;
  fsum := λ l, Ok (foldr fn_add (Num (Fx 0)) l);
  isclose1 := λ a, match a with Num x => fx_isclose1 x | NaN => false end;
|}.

Program Definition fn_set_order : @SetOrder fn_ops := {|
  set_list := remove_dups;
|}.
Next Obligation. intros l. apply NoDup_remove_dups. Qed.
Next Obligation. intros l x. apply elem_of_remove_dups. Qed.

(** [S -> A B ;nan], [A -> a ;1.0], [B -> b ;1.0], start [S]. *)
Definition nan_rule : @Pcfg fn_ops :=
  @read_rules fn_ops
    [ @RuleLine fn_ops ("S", ["A"; "B"], NaN);
      @RuleLine fn_ops ("A", ["a"], Num (Fx 1024));
      @RuleLine fn_ops ("B", ["b"], Num (Fx 1024));
      @StartLine fn_ops "S" ].
End WithNan.

(** The grammar of the example: [dogs bark] is parsed, and the hypotheses
    of the theorems above hold of it. *)

Lemma viterbi_score_is_max_witness :
  unit_probs Fixed.dogs_bark ∧ unary_functional Fixed.dogs_bark ∧
  ∃ tb pb g',
    parse_with_backpointers ["dogs"; "bark"] Fixed.dogs_bark = (Ok (tb, pb), g') ∧
    ∀ i j pc A v, pb !! (i, j) = Some pc → od_get A pc = Some v →
      (∃ t, derivation Fixed.dogs_bark t ∧ root t = A ∧
            yield t = slice ["dogs"; "bark"] i j ∧ score t = Ok v) ∧
      (∀ t, derivation Fixed.dogs_bark t → root t = A →
         yield t = slice ["dogs"; "bark"] i j → ∃ s, score t = Ok s ∧ fle s v).
Proof.
  split; [exact Examples.dogs_bark_unit|]. split; [exact Examples.dogs_bark_functional|].
  exact (viterbi_score_is_max (FL := FixedLaws.fx_laws) Fixed.dogs_bark ["dogs"; "bark"]
           Examples.dogs_bark_unit Examples.dogs_bark_functional).
Defined.

(** With the rule [A -> x] listed with probabilities 0.5 and 0.25, and the
    pairs iterated in that order, the chart keeps the score of the pair
    written last, -2, while the derivation by the first rule scores -1.
    The grammar passes [verify_grammar]. *)
Lemma viterbi_score_not_max :
  verify_grammar Examples.twice = Ok "confirmation!" ∧
  unit_probs Examples.twice ∧
  ∃ tb pb g' pc v t s,
    parse_with_backpointers ["x"] Examples.twice = (Ok (tb, pb), g') ∧
    pb !! (0, 1) = Some pc ∧ od_get "A" pc = Some v ∧
    derivation Examples.twice t ∧ root t = "A" ∧ yield t = slice ["x"] 0 1 ∧
    score t = Ok s ∧ fgt s v = true.
Proof.
  split; [by vm_compute|]. split; [exact Examples.twice_unit|].
  eexists _, _, _, _, _, (@DLeaf Fixed.fx_ops "A" (Fixed.Fx 512) "x"), _.
  split; [vm_compute; reflexivity|].
  split; [vm_compute; reflexivity|].
  split; [vm_compute; reflexivity|].
  split.
  { exists (("A", ["x"], Fixed.Fx 512) : @rule Fixed.fx_ops). split; [|done].
    assert (rules Examples.twice ["x"] =
            [(("A", ["x"], Fixed.Fx 512) : @rule Fixed.fx_ops);
             ("A", ["x"], Fixed.Fx 256); ("A", ["x"], Fixed.Fx 256)]) as ->
      by (vm_compute; reflexivity).
    by left. }
  split; [done|]. split; [done|]. split; [vm_compute; reflexivity|done].
Qed.

Lemma is_in_language_correct_witness :
  ["dogs"; "bark"] ≠ [] ∧
  (∃ b g', is_in_language ["dogs"; "bark"] Fixed.dogs_bark = (Ok b, g') ∧
     (b = true ↔ ∃ S, startsymbol Fixed.dogs_bark = Some S ∧
                      derives Fixed.dogs_bark S ["dogs"; "bark"])) ∧
  (∀ g2, startsymbol g2 = startsymbol Fixed.dogs_bark →
     (∀ k, r_lhs <$> rules g2 k = r_lhs <$> rules Fixed.dogs_bark k) →
     (is_in_language ["dogs"; "bark"] g2).1
     = (is_in_language ["dogs"; "bark"] Fixed.dogs_bark).1).
Proof.
  split; [discriminate|].
  apply (is_in_language_correct Fixed.dogs_bark ["dogs"; "bark"]). discriminate.
Defined.



Lemma chart_entries_final_witness :
  unit_probs Fixed.dogs_bark ∧
  ∃ tb pb g',
    parse_with_backpointers ["dogs"; "bark"] Fixed.dogs_bark = (Ok (tb, pb), g') ∧
    (∀ sp pc A v, pb !! sp = Some pc → od_get A pc = Some v →
       isfinite v = true ∧ fgt v fzero = false ∧ v ≠ neg_inf) ∧
    (∀ sp tc A b, tb !! sp = Some tc → od_get A tc = Some b → b ≠ Sentinel).
Proof.
  split; [exact Examples.dogs_bark_unit|].
  exact (chart_entries_final (FL := FixedLaws.fx_laws) Fixed.dogs_bark ["dogs"; "bark"]
           Examples.dogs_bark_unit).
Defined.

(** The grammar [A -> x ;0.0], [A -> y ;1.0] passes [verify_grammar];
    [is_in_language] accepts [x], and [parse_with_backpointers] raises on
    it: [math.log2(0.0)] is undefined. *)
Lemma engines_disagree_when_validated :
  verify_grammar Examples.zero_first = Ok "confirmation!" ∧
  (∃ g2, is_in_language ["x"] Examples.zero_first = (Ok true, g2)) ∧
  (∃ g1, parse_with_backpointers ["x"] Examples.zero_first = (Raise ValueError, g1)).
Proof.
  split; [by vm_compute|].
  split; eexists; vm_compute; reflexivity.
Qed.

(** With the rule [S -> A B ;nan] the only candidate for [S] over [a b]
    has a score that is not greater than minus infinity: the root cell
    holds [S] with the placeholder, and [get_tree] raises [KeyError] on
    it. *)
Lemma get_tree_fails_on_placeholder :
  ∃ tb pb g',
    @parse_with_backpointers WithNan.fn_ops WithNan.fn_set_order ["a"; "b"]
      WithNan.nan_rule = (Ok (tb, pb), g') ∧
    startsymbol WithNan.nan_rule = Some "S" ∧
    od_get "S" (chart_cell tb (0, 2)) = Some Sentinel ∧
    ∀ fuel, get_tree (S fuel) tb 0 2 "S" = Raise KeyError.
Proof.
  eexists _, _, _. split; [vm_compute; reflexivity|].
  split; [reflexivity|]. split; [vm_compute; reflexivity|].
  intros fuel. vm_compute. reflexivity.
Qed.

(** On [x x] the grammar [tie] has two candidates for [S] over the whole
    input, [S -> A B] and [S -> B A], with the same score -1: the entry
    kept is that of the first. *)
Lemma tie_break_first_witness :
  ∃ tb pb g',
    parse_with_backpointers ["x"; "x"] Examples.tie = (Ok (tb, pb), g') ∧
    cands Examples.tie pb 0 2
      = [ (1, "A", "B", ("S", ["A"; "B"], Fixed.Fx 512));
          (1, "B", "A", ("S", ["B"; "A"], Fixed.Fx 512)) ] ∧
    cand_score pb 0 2 (1, "A", "B", ("S", ["A"; "B"], Fixed.Fx 512))
      = Ok (Fixed.Fx (-1024)) ∧
    cand_score pb 0 2 (1, "B", "A", ("S", ["B"; "A"], Fixed.Fx 512))
      = Ok (Fixed.Fx (-1024)) ∧
    od_get "S" (chart_cell pb (0, 2)) = Some (Fixed.Fx (-1024)) ∧
    od_get "S" (chart_cell tb (0, 2)) = Some (Split ("A", 0, 1) ("B", 1, 2)).
Proof.
  eexists _, _, _. split; [vm_compute; reflexivity|].
  split; [vm_compute; reflexivity|].
  split; [vm_compute; reflexivity|].
  split; [vm_compute; reflexivity|].
  eassert (parse_with_backpointers ["x"; "x"] Examples.tie = (Ok (_, _), _)) as Hrun
    by (vm_compute; reflexivity).
  destruct (tie_break_first _ _ _ _ _ Hrun) as (_ & _ & Hspan).
  destruct (Hspan 0 2) as (_ & _ & _ & Hfirst); [lia|simpl; lia|].
  apply (Hfirst [] (1, "A", "B", ("S", ["A"; "B"], Fixed.Fx 512))
           [(1, "B", "A", ("S", ["B"; "A"], Fixed.Fx 512))] (Fixed.Fx (-1024))).
  - vm_compute. reflexivity.
  - vm_compute. reflexivity.
  - reflexivity.
  - intros c' s' Hc'. by apply elem_of_nil in Hc'.
  - intros c' s' Hc'%list_elem_of_singleton _ Hs'. subst c'.
    vm_compute in Hs'. by injection Hs' as <-.
Defined.

(** On [S -> A b ;1.0], [T -> x ;0.5] the validation reports the shape of
    the rule of [S], which comes first, although the probabilities of [T]
    do not sum to 1. *)
Lemma verify_grammar_first_failure_only :
  verify_grammar Examples.format_first = Ok "error: wrong format!" ∧
  ∃ rs, ("T", rs) ∈ lhs_to_rules Examples.format_first ∧ sum_off rs.
Proof.
  split; [by vm_compute|].
  exists [("T", ["x"], Fixed.Fx 512)]. split.
  - assert (lhs_to_rules Examples.format_first
            = [("S", [("S", ["A"; "b"], Fixed.Fx 1024)]);
               ("T", [("T", ["x"], Fixed.Fx 512)])]) as -> by (vm_compute; reflexivity).
    right. by left.
  - exists (Fixed.Fx 512). by vm_compute.
Qed.

(** Looking up a token that no rule produces adds its key to
    [rhs_to_rules]. *)
Lemma grammar_keys_grow :
  dom (rhs_to_rules (is_in_language ["cats"] Fixed.dogs_bark).2)
  ≠ dom (rhs_to_rules Fixed.dogs_bark).
Proof.
  intros Heq.
  assert (["cats"] ∈ dom (rhs_to_rules (is_in_language ["cats"] Fixed.dogs_bark).2)) as Hin.
  { apply elem_of_dom. exists []. vm_compute. reflexivity. }
  rewrite Heq in Hin. apply elem_of_dom in Hin as [rs Hrs].
  vm_compute in Hrs. discriminate.
Qed.

(** * Further properties of the code *)

(** ** The indices built by [read_rules] *)

Section read_rules_index.
Context {FO : FloatOps}.

(** The rules among the lines read, in the order read. *)
Fixpoint rules_of (ls : list line) : list rule :=
  match ls with
  | [] => []
  | RuleLine r :: ls' => r :: rules_of ls'
  | StartLine _ :: ls' => rules_of ls'
  end.

(** The start symbols declared by the lines read, in the order read. *)
Fixpoint starts_of (ls : list line) : list string :=
  match ls with
  | [] => []
  | RuleLine _ :: ls' => starts_of ls'
  | StartLine s :: ls' => s :: starts_of ls'
  end.

(** What a dictionary of lists holds for a key whose entries are [rs]:
    nothing when there is none. *)
Definition entry_of (rs : list rule) : option (list rule) :=
  match rs with [] => None | _ => Some rs end.

Lemma rules_of_app ls1 ls2 : rules_of (ls1 ++ ls2) = rules_of ls1 ++ rules_of ls2.
Proof.
  induction ls1 as [|[r|s] ls1 IH]; simpl; [done| |done]. by rewrite IH.
Qed.

Lemma starts_of_app ls1 ls2 : starts_of (ls1 ++ ls2) = starts_of ls1 ++ starts_of ls2.
Proof.
  induction ls1 as [|[r|s] ls1 IH]; simpl; [done|done|]. by rewrite IH.
Qed.

Lemma entry_of_snoc rs r : entry_of (rs ++ [r]) = Some (rs ++ [r]).
Proof. by destruct rs. Qed.

Lemma default_entry_of rs : default [] (entry_of rs) = rs.
Proof. by destruct rs. Qed.

Lemma read_rules_snoc ls l : read_rules (ls ++ [l]) = read_line (read_rules ls) l.
Proof. unfold read_rules. by rewrite foldl_snoc. Qed.

(** X1.  After [read_rules], the index by right-hand side binds a key
    exactly when some rule read has that right-hand side, and then to the
    rules read with that right-hand side, in the order read. *)
Theorem read_rules_rhs_index (ls : list line) (k : list string) :
  rhs_to_rules (read_rules ls) !! k
  = entry_of (filter (λ r, r_rhs r = k) (rules_of ls)).
Proof.
  induction ls as [|l ls IH] using rev_ind; [done|].
  rewrite read_rules_snoc, rules_of_app, filter_app.
  destruct l as [r|s]; simpl.
  - unfold rules. destruct (decide (r_rhs r = k)) as [<-|Hne].
    + rewrite lookup_insert_eq, IH, default_entry_of.
      rewrite (filter_cons_True _ r []) by done. by rewrite entry_of_snoc.
    + rewrite lookup_insert_ne by done.
      rewrite (filter_cons_False _ r []) by done. by rewrite app_nil_r.
  - by rewrite app_nil_r.
Qed.

Lemma od_set_keys_NoDup {V} (k : string) (v : V) (d : list (string * V)) :
  NoDup (od_keys d) → NoDup (od_keys (od_set k v d)).
Proof.
  unfold od_keys. induction d as [|[k' v'] d IH]; simpl.
  - intros _. apply NoDup_singleton.
  - rewrite NoDup_cons. intros [Hnotin Hnd].
    destruct (decide (k = k')) as [->|Hne]; simpl.
    + by apply NoDup_cons.
    + apply NoDup_cons. split; [|by apply IH].
      intros Hin. apply Hnotin.
      change (k' ∈ od_keys (od_set k v d)) in Hin.
      apply od_get_is_Some in Hin. rewrite od_get_set_ne in Hin by done.
      by apply od_get_is_Some.
Qed.

Lemma lhs_index_NoDup ls : NoDup (od_keys (lhs_to_rules (read_rules ls))).
Proof.
  induction ls as [|l ls IH] using rev_ind; [apply NoDup_nil_2|].
  rewrite read_rules_snoc. destruct l as [r|s]; simpl; [|done].
  by apply od_set_keys_NoDup.
Qed.

Lemma lhs_index_get ls A :
  od_get A (lhs_to_rules (read_rules ls))
  = entry_of (filter (λ r, r_lhs r = A) (rules_of ls)).
Proof.
  induction ls as [|l ls IH] using rev_ind; [done|].
  rewrite read_rules_snoc, rules_of_app, filter_app. destruct l as [r|s]; simpl.
  - destruct (decide (r_lhs r = A)) as [<-|Hne].
    + rewrite od_get_set_eq, IH, default_entry_of.
      rewrite (filter_cons_True _ r []) by done. by rewrite entry_of_snoc.
    + rewrite od_get_set_ne by done.
      rewrite (filter_cons_False _ r []) by done. by rewrite app_nil_r, IH.
  - by rewrite app_nil_r.
Qed.

Lemma rules_read_rules_filter ls k :
  rules (read_rules ls) k = filter (λ r, r_rhs r = k) (rules_of ls).
Proof.
  induction ls as [|l ls IH] using rev_ind.
  - unfold rules. simpl. by rewrite lookup_empty.
  - rewrite read_rules_snoc, rules_read_line, rules_of_app, filter_app.
    destruct l as [r|s]; simpl; [|by rewrite app_nil_r].
    destruct (decide (r_rhs r = k)) as [Heq|Hne].
    + rewrite (filter_cons_True _ r []) by done. by rewrite IH.
    + rewrite (filter_cons_False _ r []) by done. by rewrite app_nil_r.
Qed.

(** X2.  After [read_rules], the index by left-hand side has no repeated
    key, and binds a symbol exactly when some rule read has that left-hand
    side, and then to the rules read with that left-hand side, in the order
    read. *)
Theorem read_rules_lhs_index (ls : list line) :
  NoDup (od_keys (lhs_to_rules (read_rules ls))) ∧
  ∀ A, od_get A (lhs_to_rules (read_rules ls))
       = entry_of (filter (λ r, r_lhs r = A) (rules_of ls)).
Proof.
  split.
  - apply lhs_index_NoDup.
  - intros A. apply lhs_index_get.
Qed.

(** X3.  After [read_rules], the start symbol is the one declared last, and
    there is none when no line declares one. *)
Theorem read_rules_startsymbol (ls : list line) :
  startsymbol (read_rules ls) = last (starts_of ls).
Proof.
  induction ls as [|l ls IH] using rev_ind; [done|].
  rewrite read_rules_snoc, starts_of_app. destruct l as [r|s]; simpl.
  - by rewrite app_nil_r.
  - by rewrite last_snoc.
Qed.
End read_rules_index.

(** ** Reading a grammar, then using it *)

Section read_then_use.
Context {FO : FloatOps}.

(** Derivability from a list of rules: a unary rule on one token, or a
    binary rule over two derivable parts. *)
Inductive generates (rs : list rule) : string → list string → Prop :=
  | gen_unary A tok p :
      (A, [tok], p) ∈ rs → generates rs A [tok]
  | gen_binary A B C p w1 w2 :
      (A, [B; C], p) ∈ rs → generates rs B w1 → generates rs C w2 →
      generates rs A (w1 ++ w2).

Lemma has_rule_read ls A rhs p :
  has_rule (read_rules ls) A rhs p ↔ (A, rhs, p) ∈ rules_of ls.
Proof.
  unfold has_rule. rewrite rules_read_rules_filter. split.
  - intros ([[a b] c] & [Hrhs Hin]%list_elem_of_filter & Hl & Hp).
    unfold r_lhs, r_rhs, r_prob in *. simpl in *. by subst.
  - intros Hin. exists (A, rhs, p). split; [|done].
    apply list_elem_of_filter. by split.
Qed.

Lemma derives_read ls A w :
  derives (read_rules ls) A w ↔ generates (rules_of ls) A w.
Proof.
  split.
  - intros (t & Ht & <- & <-).
    induction t as [A p tok|A p l IHl r IHr]; simpl in *.
    + apply (gen_unary _ A tok p). by apply has_rule_read.
    + destruct Ht as (Hrule & Hl & Hr).
      apply (gen_binary _ A (root l) (root r) p); [by apply has_rule_read|auto|auto].
  - induction 1 as [A tok p Hin|A B C p w1 w2 Hin _ IH1 _ IH2].
    + exists (DLeaf A p tok). simpl. split; [by apply has_rule_read|done].
    + destruct IH1 as (l & Hl & Hrl & Hyl). destruct IH2 as (r & Hr & Hrr & Hyr).
      exists (DNode A p l r). simpl. rewrite Hrl, Hrr, Hyl, Hyr.
      split; [|done]. split; [by apply has_rule_read|done].
Qed.

Lemma startsymbol_read ls : startsymbol (read_rules ls) = last (starts_of ls).
Proof.
  induction ls as [|l ls IH] using rev_ind; [done|].
  rewrite read_rules_snoc, starts_of_app.
  destruct l as [r|s]; simpl; [by rewrite app_nil_r|by rewrite last_snoc].
Qed.

(** X4.  For a grammar built by [read_rules] and a non-empty token
    sequence, [is_in_language] returns, and returns [True] exactly when the
    start symbol declared last derives the tokens from the rules read. *)
Theorem read_rules_then_is_in_language (ls : list line) (toks : list string) :
  toks ≠ [] →
  ∃ b g', is_in_language toks (read_rules ls) = (Ok b, g') ∧
    (b = true ↔ ∃ S, last (starts_of ls) = Some S ∧ generates (rules_of ls) S toks).
Proof.
  intros Hne.
  destruct (is_in_language_wp (read_rules ls) toks Hne _ (gext_refl _))
    as (b & g' & Hrun & _ & Hb).
  exists b, g'. split; [done|]. rewrite Hb, startsymbol_read.
  split; intros (S & HS & Hd); exists S; (split; [done|]); by apply derives_read.
Qed.

Lemma od_get_elem_of {V} (d : list (string * V)) k v :
  NoDup (od_keys d) → (k, v) ∈ d ↔ od_get k d = Some v.
Proof.
  unfold od_keys. induction d as [|[k' v'] d IH]; simpl.
  - intros _. split; [by intros ?%elem_of_nil|done].
  - rewrite NoDup_cons. intros [Hnotin Hnd]. rewrite elem_of_cons.
    destruct (decide (k = k')) as [->|Hne].
    + split; [|intros [= ->]; by left].
      intros [[= ->]|Hin]; [done|]. exfalso. apply Hnotin.
      apply list_elem_of_fmap. by exists (k', v).
    + rewrite <-IH by done. split; [|by right]. intros [[= ]|?]; done.
Qed.

Lemma entry_of_Some (rs rs' : list rule) :
  entry_of rs = Some rs' ↔ rs = rs' ∧ rs ≠ [].
Proof.
  destruct rs; simpl; [split; [done|by intros [_ ?]]|].
  split; [by intros [= <-]|by intros [<- _]].
Qed.

Lemma read_lhs_entry ls A rs :
  (A, rs) ∈ lhs_to_rules (read_rules ls) ↔
  rs = filter (λ r, r_lhs r = A) (rules_of ls) ∧ A ∈ r_lhs <$> rules_of ls.
Proof.
  rewrite od_get_elem_of by apply lhs_index_NoDup.
  rewrite lhs_index_get, entry_of_Some.
  assert (filter (λ r, r_lhs r = A) (rules_of ls) ≠ [] ↔ A ∈ r_lhs <$> rules_of ls) as Hne.
  { rewrite list_elem_of_fmap. split.
    - intros Hn. destruct (filter _ _) as [|r rs0] eqn:E; [done|].
      assert (r ∈ filter (λ r, r_lhs r = A) (rules_of ls)) as Hin by (rewrite E; by left).
      apply list_elem_of_filter in Hin as [<- Hin]. by exists r.
    - intros (r & -> & Hin) E.
      assert (r ∈ filter (λ r0, r_lhs r0 = r_lhs r) (rules_of ls)) as Hin'
        by by apply list_elem_of_filter.
      rewrite E in Hin'. by apply elem_of_nil in Hin'. }
  rewrite Hne. split; intros [? ?]; by split.
Qed.

(** X5.  For a grammar built by [read_rules], [verify_grammar] returns
    the confirmation exactly when, for every left-hand side read,
    [math.fsum] returns a sum of the probabilities read for it that is 1
    within the tolerance, and each rule read for it is unary or binary
    over two upper-case symbols. *)
Theorem read_rules_then_verify {CO : CaseOps} (ls : list line) :
  verify_grammar (read_rules ls) = Ok "confirmation!" ↔
  ∀ A, A ∈ r_lhs <$> rules_of ls →
       lhs_ok (filter (λ r, r_lhs r = A) (rules_of ls)).
Proof.
  unfold verify_grammar.
  assert (∀ rs, first_failing (lhs_to_rules (read_rules ls)) rs →
            (∀ A, A ∈ r_lhs <$> rules_of ls →
                  lhs_ok (filter (λ r, r_lhs r = A) (rules_of ls))) →
            lhs_ok rs) as Hin.
  { intros rs (pre & A & post & Hd & _) Hall.
    assert ((A, rs) ∈ lhs_to_rules (read_rules ls)) as Hin.
    { rewrite Hd. apply elem_of_app. right. by left. }
    apply read_lhs_entry in Hin as [-> HA]. by apply Hall. }
  destruct (verify_lhs_cases (lhs_to_rules (read_rules ls)))
    as [[-> Hok]|[[-> (rs & Hff & Hoff)]
                |[[-> (rs & r & Hff & _ & Hr & Hbad)]
                 |(e & -> & rs & Hff & He)]]].
  - split; [|done]. intros _ A HA. apply (Hok A). by apply read_lhs_entry.
  - split; [done|]. intros Hall. exfalso.
    destruct (Hin rs Hff Hall) as [Hs _]. by apply (sum_one_off rs).
  - split; [done|]. intros Hall. exfalso.
    destruct (Hin rs Hff Hall) as [_ Hsh]. by apply Hbad, Hsh.
  - split; [done|]. intros Hall. exfalso.
    destruct (Hin rs Hff Hall) as [Hs _]. by apply (sum_one_raise rs e).
Qed.
End read_then_use.

(** ** Calling the engines again on the grammar they have extended *)

Section stability.
Context {FO : FloatOps} {SO : SetOrder}.

(** A computation that gives the same outcome on a grammar and on any
    extension of it, and leaves the one an extension of the other. *)
Definition stable {A} (m : M A) : Prop :=
  ∀ g g', gext g g' → (m g').1 = (m g).1 ∧ gext (m g).2 (m g').2.

Lemma stable_ret {A} (a : A) : stable (ret a).
Proof. by intros g g' Hg. Qed.

Lemma stable_lift {A} (r : result A) : stable (lift r).
Proof. by intros g g' Hg. Qed.

Lemma stable_get_startsymbol : stable get_startsymbol.
Proof.
  intros g g' Hg. split; [|done]. unfold get_startsymbol. simpl.
  by rewrite (gext_start _ _ Hg).
Qed.

Lemma rhs_get_lookup g k k' :
  rhs_to_rules (rhs_get k g).2 !! k'
  = if decide (k = k') then Some (rules g k) else rhs_to_rules g !! k'.
Proof.
  unfold rhs_get, rules. destruct (rhs_to_rules g !! k) as [rs|] eqn:E; simpl.
  - destruct (decide (k = k')) as [<-|]; [done|done].
  - destruct (decide (k = k')) as [<-|Hne].
    + by rewrite lookup_insert_eq.
    + by rewrite lookup_insert_ne.
Qed.

Lemma stable_rhs_get k : stable (rhs_get k).
Proof.
  intros g g' Hg.
  destruct (gext_rhs_get g k) as [H1 R1]. destruct (gext_rhs_get g' k) as [H2 R2].
  split.
  - rewrite R1, R2. by rewrite (gext_rules _ _ Hg).
  - constructor.
    + rewrite (gext_lhs _ _ H2), (gext_lhs _ _ H1). apply (gext_lhs _ _ Hg).
    + rewrite (gext_start _ _ H2), (gext_start _ _ H1). apply (gext_start _ _ Hg).
    + intros k'. rewrite (gext_rules _ _ H2), (gext_rules _ _ H1).
      apply (gext_rules _ _ Hg).
    + intros k'. rewrite !rhs_get_lookup.
      destruct (decide (k = k')); [eauto|]. apply (gext_keys _ _ Hg).
Qed.

Lemma stable_bind {A B} (m : M A) (k : A → M B) :
  stable m → (∀ a, stable (k a)) → stable (bind m k).
Proof.
  intros Hm Hk g g' Hg. unfold bind.
  destruct (Hm g g' Hg) as [Hres Hext].
  destruct (m g) as [r1 g1], (m g') as [r1' g1']. simpl in *. subst r1'.
  destruct r1 as [a|e]; [by apply Hk|done].
Qed.

Lemma stable_for {A S} (xs : list A) (body : A → S → M S) s :
  (∀ x s, stable (body x s)) → stable (for_ xs body s).
Proof.
  intros Hb. revert s. induction xs as [|x xs IH]; intros s; simpl.
  - apply stable_ret.
  - apply stable_bind; [apply Hb|apply IH].
Qed.

Lemma stable_is_in_language toks : stable (is_in_language toks).
Proof.
  unfold is_in_language.
  repeat first
    [ apply stable_ret | apply stable_lift | apply stable_rhs_get
    | apply stable_get_startsymbol | apply stable_bind | apply stable_for
    | match goal with |- ∀ _, _ => intro end ].
Qed.

Lemma stable_parse toks : stable (parse_with_backpointers toks).
Proof.
  unfold parse_with_backpointers.
  repeat first
    [ apply stable_ret | apply stable_lift | apply stable_rhs_get
    | apply stable_bind | apply stable_for
    | match goal with
      | |- stable (if ?b then _ else _) => destruct b
      | |- ∀ _, _ => intro
      end ].
Qed.

(** X6.  The keys that a call of an engine adds to [rhs_to_rules] do not
    change what later calls do: on the grammar left by [is_in_language] or
    by [parse_with_backpointers], each engine returns or raises exactly
    what it does on the grammar as it was. *)
Theorem repeated_calls_agree (g : Pcfg) (toks1 toks2 : list string) :
  (is_in_language toks2 (is_in_language toks1 g).2).1 = (is_in_language toks2 g).1 ∧
  (is_in_language toks2 (parse_with_backpointers toks1 g).2).1
    = (is_in_language toks2 g).1 ∧
  (parse_with_backpointers toks2 (is_in_language toks1 g).2).1
    = (parse_with_backpointers toks2 g).1 ∧
  (parse_with_backpointers toks2 (parse_with_backpointers toks1 g).2).1
    = (parse_with_backpointers toks2 g).1.
Proof.
  pose proof (frame_is_in_language toks1 g) as H1.
  pose proof (frame_parse toks1 g) as H2.
  split; [|split; [|split]].
  - by apply stable_is_in_language.
  - by apply stable_is_in_language.
  - by apply stable_parse.
  - by apply stable_parse.
Qed.
End stability.

(** ** The two charts side by side *)

Section parallel_charts.
Context {FO : FloatOps} {SO : SetOrder}.

Lemma od_keys_set {K V} `{EqDecision K} (k : K) (v : V) (d : list (K * V)) :
  od_keys (od_set k v d)
  = if decide (k ∈ od_keys d) then od_keys d else od_keys d ++ [k].
Proof.
  unfold od_keys. induction d as [|[k' v'] d IH].
  - destruct (decide (k ∈ ([] : list (K * V)).*1)) as [Hin|_]; [|done].
    by apply elem_of_nil in Hin.
  - cbn [od_set]. destruct (decide (k = k')) as [->|Hne].
    + destruct (decide (k' ∈ ((k', v') :: d).*1)) as [_|Hout]; [done|].
      exfalso. apply Hout. by left.
    + rewrite fmap_cons, IH. cbn [fst].
      destruct (decide (k ∈ d.*1)) as [Hin|Hout];
        destruct (decide (k ∈ ((k', v') :: d).*1)) as [Hin'|Hout']; try done.
      * exfalso. apply Hout'. by right.
      * exfalso. apply elem_of_cons in Hin' as [?|?]; done.
Qed.

Lemma od_set_same_keys {V W} (k : string) (v : V) (w : W)
    (d : list (string * V)) (e : list (string * W)) :
  od_keys d = od_keys e → od_keys (od_set k v d) = od_keys (od_set k w e).
Proof. intros Hk. by rewrite !od_keys_set, Hk. Qed.

Lemma leaf_cell_keys tok ini :
  od_keys (leaf_cell tok ini).1 = od_keys (leaf_cell tok ini).2.
Proof.
  unfold leaf_cell. induction ini as [|ab ini IH] using rev_ind; [done|].
  rewrite foldl_snoc. unfold leaf_step at 1 3. cbn [fst snd].
  by apply od_set_same_keys.
Qed.

Lemma cell_step_same_keys cp c :
  od_keys cp.1 = od_keys cp.2 → od_keys (cell_step cp c).1 = od_keys (cell_step cp c).2.
Proof.
  intros Hk. unfold cell_step. destruct (od_get c.1.1 cp.2); [|done].
  destruct (fgt c.1.2 f); [|done]. cbn [fst snd]. by apply od_set_same_keys.
Qed.

Lemma fill_cell_keys cs : od_keys (fill_cell cs).1 = od_keys (fill_cell cs).2.
Proof.
  unfold fill_cell.
  assert (od_keys (foldl cell_init ([], []) cs.*1.*1).1
          = od_keys (foldl cell_init ([], []) cs.*1.*1).2) as H0.
  { induction (cs.*1.*1) as [|l ls IH] using rev_ind; [done|].
    rewrite foldl_snoc. unfold cell_init at 1 3. cbn [fst snd].
    by apply od_set_same_keys. }
  revert H0. generalize (foldl cell_init ([], []) cs.*1.*1).
  induction cs as [|c cs IH]; intros cp Hcp; [done|]. simpl.
  apply IH. by apply cell_step_same_keys.
Qed.

Context {FL : FloatLaws}.

(** X7.  The charts returned by [parse_with_backpointers] hold exactly the
    spans [(i,j)] with [0 <= i < j <= n]; in every cell the two charts have
    the same nonterminals in the same order, and these are exactly the
    nonterminals that derive the tokens of the span. *)
Theorem chart_spans_and_keys (g : Pcfg) (toks : list string) :
  unit_probs g →
  ∃ tb pb g', parse_with_backpointers toks g = (Ok (tb, pb), g') ∧
    (∀ i j, is_Some (tb !! (i, j)) ↔ i < j ≤ length toks) ∧
    (∀ i j, is_Some (pb !! (i, j)) ↔ i < j ≤ length toks) ∧
    (∀ i j, od_keys (chart_cell tb (i, j)) = od_keys (chart_cell pb (i, j))) ∧
    (∀ i j A, i < j ≤ length toks →
       A ∈ od_keys (chart_cell pb (i, j)) ↔ derives g A (slice toks i j)).
Proof.
  intros Hu. destruct (parse_returns g toks Hu) as (tb & pb & g' & Hrun & Heqs).
  exists tb, pb, g'. split; [done|].
  pose proof (cells_ok g toks (tb, pb) Hu Heqs) as Hok.
  destruct Heqs as (E1 & E2 & E3 & E4). cbn [fst snd] in *.
  split; [done|]. split; [done|]. split.
  - intros i j. unfold chart_cell.
    destruct (decide (i < j ≤ length toks)) as [Hij|Hij].
    + destruct (decide (j = i + 1)) as [->|Hlong].
      * destruct (lookup_lt_is_Some_2 toks i) as [tok Htok]; [lia|].
        destruct (E3 i tok Hij Htok) as [-> ->]. simpl. apply leaf_cell_keys.
      * destruct (E4 i j ltac:(lia) Hij) as [-> ->]. simpl. apply fill_cell_keys.
    + assert (tb !! (i, j) = None) as ->.
      { apply eq_None_not_Some. by rewrite E1. }
      assert (pb !! (i, j) = None) as ->.
      { apply eq_None_not_Some. by rewrite E2. }
      done.
  - intros i j A Hij.
    destruct (Hok (length toks) i j Hij ltac:(lia)) as (tc & pc & _ & Hpc & Hcell).
    cbn [fst snd] in *. unfold chart_cell. rewrite Hpc. simpl.
    rewrite <-od_get_is_Some. by destruct (Hcell A) as [? _].
Qed.
End parallel_charts.

(** ** The tree that [get_tree] returns *)

Section best_tree.
Context {FO : FloatOps} {SO : SetOrder} {FL : FloatLaws}.

(** The tuple tree of a derivation: the probabilities are dropped. *)
Fixpoint tree_of (d : dtree) : tree :=
  match d with
  | DLeaf A _ tok => TLeaf A tok
  | DNode A _ l r => TNode A (tree_of l) (tree_of r)
  end.

(** For an entry of the probability chart, [get_tree] returns the tree of
    a derivation whose score is the entry. *)
Lemma get_tree_scored g toks tp :
  unit_probs g →
  chart_eqs g toks (λ i j, i < j ≤ length toks) tp →
  ∀ d i j, i < j ≤ length toks → j - i ≤ d →
  ∀ A v, od_get A (chart_cell tp.2 (i, j)) = Some v →
  ∀ fuel, d ≤ fuel →
  ∃ dt, derivation g dt ∧ root dt = A ∧ yield dt = slice toks i j ∧
        score dt = Ok v ∧ get_tree fuel tp.1 i j A = Ok (tree_of dt).
Proof.
  intros Hu Heqs.
  pose proof (cells_ok g toks tp Hu Heqs) as Hok.
  destruct Heqs as (E1 & E2 & E3 & E4).
  induction d as [|d IH]; intros i j Hij Hd A v Hv fuel Hfuel; [lia|].
  destruct fuel as [|fuel]; [lia|]. simpl.
  unfold getentry, getcell. unfold chart_cell in Hv.
  destruct (decide (j = i + 1)) as [->|Hlong].
  - destruct (lookup_lt_is_Some_2 toks i) as [tok Htok]; [lia|].
    destruct (E3 i tok Hij Htok) as [Et Ep]. rewrite Ep in Hv. rewrite Et. simpl in *.
    destruct (leaf_cell_spec tok (leaf_pairs g tok) A) as [Hout Hin].
    destruct (decide (A ∈ (leaf_pairs g tok).*1)) as [Hk|Hk];
      [|destruct (Hout Hk); congruence].
    destruct (Hin Hk) as (-> & p & Hp & Hv'). simpl.
    apply elem_of_leaf_pairs in Hp as Hrule.
    destruct (log2_unit p) as (s & Hs & _).
    { destruct Hrule as (r & Hr & _ & <-). by eapply Hu. }
    rewrite Hs in Hv'. simpl in Hv'.
    exists (DLeaf A p tok). simpl. split; [done|]. split; [done|].
    split; [symmetry; by apply slice_one|]. split; [congruence|done].
  - destruct (E4 i j ltac:(lia) Hij) as [Et Ep]. rewrite Ep in Hv. rewrite Et.
    simpl in *.
    assert (∀ k, i < k < j → cell_ok g toks tp i k ∧ cell_ok g toks tp k j) as Hparts.
    { intros k' Hk'. split; apply (Hok (length toks)); lia. }
    pose proof (scored_logscore g toks tp i j Hu Hparts) as Hfin.
    destruct (fill_cell_spec (scored g tp.2 i j) A Hfin) as [Hout Hin].
    destruct (decide (A ∈ (scored g tp.2 i j).*1.*1)) as [Hk|Hk];
      [|destruct (Hout Hk); congruence].
    destruct (Hin Hk) as (idx & s & b & Hidx & -> & Hpb & _). simpl.
    assert (s = v) as -> by congruence.
    unfold scored in Hidx. rewrite list_lookup_fmap in Hidx.
    destruct (cands g tp.2 i j !! idx) as [[[[k x] y] r]|] eqn:Ec; [|done].
    simpl in Hidx. injection Hidx as Hlhs Hs <-.
    apply list_elem_of_lookup_2 in Ec.
    apply elem_of_cands in Ec as Hc. destruct Hc as (Hspan & Hx & Hy & Hr).
    apply od_get_is_Some in Hx as [a Ha]. apply od_get_is_Some in Hy as [b Hb].
    destruct (log2_unit (r_prob r)) as (lp & Hlp & _); [by eapply Hu|].
    rewrite (cand_score_val tp.2 i j k x y r lp a b Hlp Ha Hb) in Hs. simpl in Hs.
    unfold cand_bp. cbn [fst snd].
    destruct (IH i k ltac:(lia) ltac:(lia) x a Ha fuel ltac:(lia))
      as (dl & Hdl & Hrl & Hyl & Hsl & ->).
    destruct (IH k j ltac:(lia) ltac:(lia) y b Hb fuel ltac:(lia))
      as (dr & Hdr & Hrr & Hyr & Hsr & ->).
    simpl. exists (DNode A (r_prob r) dl dr). simpl.
    rewrite Hrl, Hrr, Hyl, Hyr, Hlp, Hsl, Hsr. simpl.
    split; [split; [by exists r|done]|]. split; [done|].
    split; [symmetry; apply slice_app; lia|]. split; [by rewrite Hs|done].
Qed.

(** X8.  When no nonterminal has two unary rules of different
    probabilities for the same token, [get_tree] on a nonterminal of a cell
    of the returned chart returns the tree of a derivation of that
    nonterminal over the span whose score is the one stored in the
    probability chart, and no derivation of it over the span scores more: a
    best parse.  A recursion depth of the span length is enough. *)
Theorem get_tree_is_best_parse (g : Pcfg) (toks : list string) :
  unit_probs g → unary_functional g →
  ∃ tb pb g', parse_with_backpointers toks g = (Ok (tb, pb), g') ∧
    ∀ i j A v, od_get A (chart_cell pb (i, j)) = Some v →
      ∀ fuel, j - i ≤ fuel →
      ∃ dt, get_tree fuel tb i j A = Ok (tree_of dt) ∧
        derivation g dt ∧ root dt = A ∧ yield dt = slice toks i j ∧
        score dt = Ok v ∧
        ∀ dt', derivation g dt' → root dt' = A → yield dt' = slice toks i j →
          ∃ s, score dt' = Ok s ∧ fle s v.
Proof.
  intros Hu Hfun. destruct (parse_returns g toks Hu) as (tb & pb & g' & Hrun & Heqs).
  exists tb, pb, g'. split; [done|]. intros i j A v Hv fuel Hfuel.
  assert (i < j ≤ length toks) as Hij.
  { destruct Heqs as (_ & E2 & _). apply (E2 i j). cbn [snd].
    unfold chart_cell in Hv. destruct (pb !! (i, j)); [eauto|done]. }
  destruct (get_tree_scored g toks (tb, pb) Hu Heqs (j - i) i j Hij ltac:(lia)
              A v Hv fuel Hfuel) as (dt & Hdt & Hroot & Hy & Hs & Hget).
  exists dt. repeat (split; [done|]).
  intros dt' Hdt' Hroot' Hy'.
  destruct (cells_max g toks (tb, pb) Hu Hfun Heqs (length toks) i j Hij ltac:(lia)
              dt' Hdt' Hy') as (s & v' & Hs' & Hv' & Hle).
  cbn [snd] in Hv'. rewrite Hroot' in Hv'. exists s. split; [done|]. congruence.
Qed.

(** X9.  With a start symbol and a non-empty token sequence, the answer of
    [is_in_language] tells what [get_tree] does at the root of the chart
    returned by [parse_with_backpointers]: on [True] it returns a tree
    over the tokens, on [False] it raises [KeyError]. *)
Theorem membership_decides_get_tree (g : Pcfg) (toks : list string) (S : string) :
  unit_probs g → toks ≠ [] → startsymbol g = Some S →
  ∃ b g1 tb pb g2,
    is_in_language toks g = (Ok b, g1) ∧
    parse_with_backpointers toks g = (Ok (tb, pb), g2) ∧
    ∀ fuel, length toks ≤ fuel →
      if b then ∃ t, get_tree fuel tb 0 (length toks) S = Ok t ∧ leaves t = toks
      else get_tree fuel tb 0 (length toks) S = Raise KeyError.
Proof.
  intros Hu Hne HS.
  destruct (is_in_language_wp g toks Hne g (gext_refl g)) as (b & g1 & Hin & _ & Hb).
  destruct (parse_returns g toks Hu) as (tb & pb & g2 & Hrun & Heqs).
  exists b, g1, tb, pb, g2. split; [done|]. split; [done|].
  assert (0 < length toks) as Hn by (destruct toks; [done|simpl; lia]).
  destruct (cells_ok g toks (tb, pb) Hu Heqs (length toks) 0 (length toks))
    as (tc & pc & Htc & Hpc & Hcell); [lia|lia|]. cbn [fst snd] in *.
  rewrite slice_full in Hcell. destruct (Hcell S) as (Hkey & Hsame & _).
  intros fuel Hfuel. destruct b.
  - destruct (proj1 Hb eq_refl) as (S' & HS' & Hd).
    assert (S' = S) as -> by congruence.
    destruct (get_tree_ok g toks (tb, pb) Hu Heqs (length toks) 0 (length toks)
                ltac:(lia) ltac:(lia) S) with (fuel := fuel) as (t & Ht & Hl); [|done|].
    + unfold chart_cell. cbn [fst]. rewrite Htc. simpl. apply Hsame, Hkey, Hd.
    + exists t. split; [done|]. by rewrite Hl, slice_full.
  - destruct fuel as [|fuel]; [lia|]. simpl. unfold getentry, getcell.
    rewrite Htc. simpl.
    destruct (od_get S tc) as [x|] eqn:E; [|done].
    exfalso. assert (derives g S toks) as Hd by (apply Hkey, Hsame; eauto).
    assert (false = true) as Hbad by (apply Hb; eauto). done.
Qed.
End best_tree.

(** ** What [check_table_format] accepts *)

(** A backpointer [(symbol, int, int)]. *)
Definition good_triple (b : pyval) : bool :=
  match b with
  | PTuple [b0; b1; b2] => is_str b0 && is_int b1 && is_int b2
  | _ => false
  end.

(** A string, or a pair of backpointers. *)
Definition good_value (v : pyval) : bool :=
  match v with
  | PStr _ => true
  | PTuple [a; b] => good_triple a && good_triple b
  | _ => false
  end.

Definition good_entry (e : pyval * pyval) : bool := is_str e.1 && good_value e.2.

(** A dict from strings to strings or pairs of backpointers. *)
Definition good_cell (v : pyval) : bool :=
  match v with
  | PDict d => forallb good_entry d
  | _ => false
  end.

(** A check that stops the validator with one message and [False]. *)
Definition rejects (o : option outcome) : Prop := ∃ m, o = Some ([m], Ok false).

Lemma check_bp_spec b :
  if good_triple b then check_bp b = None else rejects (check_bp b).
Proof.
  unfold rejects.
  destruct b as [| | |[|b0 [|b1 [|b2 [|b3 l]]]]|]; simpl; eauto.
  destruct (is_str b0 && is_int b1 && is_int b2); eauto.
Qed.

Lemma check_bps_pair a b :
  if good_triple a && good_triple b then check_bps [a; b] = None
  else rejects (check_bps [a; b]).
Proof.
  simpl. pose proof (check_bp_spec a) as Ha. pose proof (check_bp_spec b) as Hb.
  destruct (good_triple a); simpl.
  - rewrite Ha. destruct (good_triple b); [by rewrite Hb|].
    destruct Hb as [m ->]. by exists m.
  - destruct Ha as [m ->]. by exists m.
Qed.

Lemma check_entry_spec nt bps :
  if good_entry (nt, bps) then check_entry nt bps = None
  else rejects (check_entry nt bps).
Proof.
  unfold good_entry, check_entry. cbn [fst snd].
  destruct (is_str nt); simpl; [|by eexists].
  destruct bps as [| | |[|a [|b [|c l]]]|]; simpl; try (by eexists); try done.
  apply check_bps_pair.
Qed.

Lemma check_entries_spec d :
  if forallb good_entry d then check_entries d = None else rejects (check_entries d).
Proof.
  induction d as [|[nt bps] d IH]; simpl; [done|].
  pose proof (check_entry_spec nt bps) as He.
  destruct (good_entry (nt, bps)); simpl.
  - by rewrite He.
  - destruct He as [m ->]. by exists m.
Qed.

Lemma key_rejected_tuple_str k :
  is_tuple k || is_str k = true → key_rejected k = Ok false.
Proof.
  destruct k as [| |s|l|]; simpl; try done. intros _.
  unfold key_rejected. simpl.
  destruct (String.length s =? 2) eqn:E; [|done].
  destruct s as [|c s]; [done|]. done.
Qed.

Lemma check_span_spec k v :
  is_tuple k || is_str k = true →
  if good_cell v then check_span k v = None else rejects (check_span k v).
Proof.
  intros Hk. unfold check_span. rewrite (key_rejected_tuple_str k Hk).
  destruct v as [| | | |d]; simpl; try (by eexists).
  apply check_entries_spec.
Qed.

Lemma check_spans_spec d :
  (∀ kv, kv ∈ d → is_tuple kv.1 || is_str kv.1 = true) →
  if forallb (λ kv, good_cell kv.2) d then check_spans d = None
  else rejects (check_spans d).
Proof.
  induction d as [|[k v] d IH]; intros Hk; simpl; [done|].
  pose proof (check_span_spec k v (Hk (k, v) ltac:(by left))) as Hs.
  destruct (good_cell v); simpl.
  - rewrite Hs. apply IH. intros kv Hin. apply Hk. by right.
  - destruct Hs as [m ->]. by exists m.
Qed.

(** X10.  On a dict whose keys are tuples or strings, of any length and
    content, [check_table_format] does not raise and does not look at the
    keys: it returns [True] without a message when every value is a dict
    from strings to strings or pairs of [(str, int, int)] backpointers, and
    [False] after exactly one message otherwise. *)
Theorem check_table_format_on_values (d : list (pyval * pyval)) :
  (∀ kv, kv ∈ d → is_tuple kv.1 || is_str kv.1 = true) →
  if forallb (λ kv, good_cell kv.2) d
  then check_table_format (PDict d) = ([], Ok true)
  else ∃ m, check_table_format (PDict d) = ([m], Ok false).
Proof.
  intros Hk. pose proof (check_spans_spec d Hk) as Hs. simpl.
  destruct (forallb (λ kv, good_cell kv.2) d).
  - by rewrite Hs.
  - destruct Hs as [m ->]. by exists m.
Qed.

(** The Python value of a backpointer chart of the engine. *)
Definition enc_triple (t : string * nat * nat) : pyval :=
  PTuple [PStr t.1.1; PInt (Z.of_nat t.1.2); PInt (Z.of_nat t.2)].

Definition enc_bp (b : bp) : pyval :=
  match b with
  | Leaf tok => PStr tok
  | Split l r => PTuple [enc_triple l; enc_triple r]
  | Sentinel =>
      PTuple [PTuple [PInt 0; PInt 0; PInt 0]; PTuple [PInt 0; PInt 0; PInt 0]]
  end.

Definition enc_span (sp : nat * nat) : pyval :=
  PTuple [PInt (Z.of_nat sp.1); PInt (Z.of_nat sp.2)].

Definition enc_cell (c : list (string * bp)) : pyval :=
  PDict ((λ e, (PStr e.1, enc_bp e.2)) <$> c).

(** The items of the chart, in the order the dict iterates them. *)
Definition enc_table (items : list (nat * nat * list (string * bp))) : pyval :=
  PDict ((λ it, (enc_span it.1, enc_cell it.2)) <$> items).

Definition is_sentinel (b : bp) : bool :=
  match b with Sentinel => true | _ => false end.

Lemma good_enc_cell c :
  good_cell (enc_cell c) = forallb (λ e, negb (is_sentinel e.2)) c.
Proof.
  unfold enc_cell. simpl. induction c as [|[A b] c IH]; [done|].
  rewrite fmap_cons. simpl. rewrite IH. f_equal.
  unfold good_entry. simpl. by destruct b.
Qed.

Lemma good_enc_table (items : list (nat * nat * list (string * bp))) :
  forallb (λ kv : pyval * pyval, good_cell kv.2)
    ((λ it, (enc_span it.1, enc_cell it.2)) <$> items)
  = forallb (λ it, forallb (λ e, negb (is_sentinel e.2)) it.2) items.
Proof.
  induction items as [|it items IH]; [done|].
  rewrite fmap_cons. cbn [forallb snd]. by rewrite IH, good_enc_cell.
Qed.

Lemma enc_table_keys (items : list (nat * nat * list (string * bp))) kv :
  kv ∈ (λ it, (enc_span it.1, enc_cell it.2)) <$> items →
  is_tuple kv.1 || is_str kv.1 = true.
Proof. by intros (it & -> & _)%list_elem_of_fmap. Qed.

(** X11.  A backpointer chart of the engine's shape passes
    [check_table_format] exactly when none of its entries is the
    placeholder [((0,0,0),(0,0,0))]; with a placeholder it is rejected
    with one message. *)
Theorem check_table_format_on_chart (items : list (nat * nat * list (string * bp))) :
  if forallb (λ it, forallb (λ e, negb (is_sentinel e.2)) it.2) items
  then check_table_format (enc_table items) = ([], Ok true)
  else ∃ m, check_table_format (enc_table items) = ([m], Ok false).
Proof.
  unfold enc_table.
  pose proof (check_spans_spec _ (enc_table_keys items)) as Hs.
  rewrite good_enc_table in Hs. simpl.
  destruct (forallb (λ it, forallb (λ e, negb (is_sentinel e.2)) it.2) items).
  - by rewrite Hs.
  - destruct Hs as [m ->]. by exists m.
Qed.

(** ** The probability-chart validator ([check_probs_format]) *)

Section probs_validator.
Context {FO : FloatOps}.

(** The Python values the validator can tell apart: as for the
    backpointer chart, and floats. *)
#[local] Unset Elimination Schemes.
Inductive pobj : Type :=
  | ONone
  | OInt (z : Z)
  | OStr (s : string)
  | OFloat (f : float)
  | OTuple (l : list pobj)
  | ODict (d : list (pobj * pobj)).
#[local] Set Elimination Schemes.

Definition is_otuple (v : pobj) : bool := match v with OTuple _ => true | _ => false end.
Definition is_ostr (v : pobj) : bool := match v with OStr _ => true | _ => false end.
Definition is_oint (v : pobj) : bool := match v with OInt _ => true | _ => false end.

(** [len(v)] *)
Definition o_len (v : pobj) : result nat :=
  match v with
  | OStr s => Ok (String.length s)
  | OTuple l => Ok (length l)
  | ODict d => Ok (length d)
  | ONone | OInt _ | OFloat _ => Raise TypeError
  end.

(** [v[n]] for a non-negative integer [n]. *)
Definition o_index (v : pobj) (n : nat) : result pobj :=
  match v with
  | OStr s =>
      match String.get n s with
      | Some c => Ok (OStr (String c EmptyString))
      | None => Raise IndexError
      end
  | OTuple l => index l n
  | ODict _ => Raise KeyError
  | ONone | OInt _ | OFloat _ => Raise TypeError
  end.

(** The same condition on a key as in [check_table_format]. *)
Definition okey_rejected (split : pobj) : result bool :=
  if is_otuple split then Ok false
  else
    result_bind (o_len split) (λ n,
      if n =? 2 then
        result_bind (o_index split 0) (λ a,
          if is_oint a then
            result_bind (o_index split 1) (λ b, Ok (is_oint b))
          else Ok false)
      else Ok false).

(** One item [nt, prob] of the inner dictionary of a span. *)
Definition check_prob (nt prob : pobj) : option outcome :=
  if negb (is_ostr nt) then
    Some (["Keys of the inner dictionary (for each span) must be strings representing nonterminals."], Ok false)
  else
    match prob with
    | OFloat f =>
        if fgt f fzero then Some (["Log probability may not be > 0.  {}"], Ok false)
        else None
    | _ =>
        Some (["Values of the inner dictionary (for each span and nonterminal) must be a float.{}"], Ok false)
    end.

Fixpoint check_probs (d : list (pobj * pobj)) : option outcome :=
  match d with
  | [] => None
  | (nt, prob) :: d' =>
      match check_prob nt prob with
      | Some o => Some o
      | None => check_probs d'
      end
  end.

(** One item [split, table[split]] of the table. *)
Definition check_prob_span (split v : pobj) : option outcome :=
  match okey_rejected split with
  | Raise e => Some ([], Raise e)
  | Ok true =>
      Some (["Keys of the probability must be tuples (i,j) representing spans."], Ok false)
  | Ok false =>
      match v with
      | ODict d => check_probs d
      | _ => Some (["Value of probability table (for each span) is not a dict."], Ok false)
      end
  end.

Fixpoint check_prob_spans (d : list (pobj * pobj)) : option outcome :=
  match d with
  | [] => None
  | (split, v) :: d' =>
      match check_prob_span split v with
      | Some o => Some o
      | None => check_prob_spans d'
      end
  end.

Definition check_probs_format (table : pobj) : outcome :=
  match table with
  | ODict d =>
      match check_prob_spans d with
      | Some o => o
      | None => ([], Ok true)
      end
  | _ => (["Probability table is not a dict."], Ok false)
  end.

(** A string bound to a float that is not greater than 0. *)
Definition good_prob (e : pobj * pobj) : bool :=
  is_ostr e.1 && match e.2 with OFloat f => negb (fgt f fzero) | _ => false end.

Definition good_prob_cell (v : pobj) : bool :=
  match v with
  | ODict d => forallb good_prob d
  | _ => false
  end.

Lemma check_prob_spec nt prob :
  if good_prob (nt, prob) then check_prob nt prob = None
  else rejects (check_prob nt prob).
Proof.
  unfold good_prob, check_prob, rejects. cbn [fst snd].
  destruct (is_ostr nt); simpl; [|by eexists].
  destruct prob as [| | |f| |]; simpl; try (by eexists).
  destruct (fgt f fzero); simpl; [by eexists|done].
Qed.

Lemma check_probs_spec d :
  if forallb good_prob d then check_probs d = None else rejects (check_probs d).
Proof.
  induction d as [|[nt prob] d IH]; simpl; [done|].
  pose proof (check_prob_spec nt prob) as He.
  destruct (good_prob (nt, prob)); simpl.
  - by rewrite He.
  - destruct He as [m ->]. by exists m.
Qed.

Lemma okey_rejected_tuple_str k :
  is_otuple k || is_ostr k = true → okey_rejected k = Ok false.
Proof.
  destruct k as [| |s| |l|]; simpl; try done. intros _.
  unfold okey_rejected. simpl.
  destruct (String.length s =? 2) eqn:E; [|done].
  destruct s as [|c s]; [done|]. done.
Qed.

Lemma check_prob_span_spec k v :
  is_otuple k || is_ostr k = true →
  if good_prob_cell v then check_prob_span k v = None
  else rejects (check_prob_span k v).
Proof.
  intros Hk. unfold check_prob_span. rewrite (okey_rejected_tuple_str k Hk).
  destruct v as [| | | | |d]; simpl; try (by eexists).
  apply check_probs_spec.
Qed.

Lemma check_prob_spans_spec d :
  (∀ kv, kv ∈ d → is_otuple kv.1 || is_ostr kv.1 = true) →
  if forallb (λ kv, good_prob_cell kv.2) d then check_prob_spans d = None
  else rejects (check_prob_spans d).
Proof.
  induction d as [|[k v] d IH]; intros Hk; simpl; [done|].
  pose proof (check_prob_span_spec k v (Hk (k, v) ltac:(by left))) as Hs.
  destruct (good_prob_cell v); simpl.
  - rewrite Hs. apply IH. intros kv Hin. apply Hk. by right.
  - destruct Hs as [m ->]. by exists m.
Qed.

(** X12.  On a dict whose keys are tuples or strings, of any length and
    content, [check_probs_format] does not raise and does not look at the
    keys: it returns [True] without a message when every value is a dict
    from strings to floats that are not greater than 0, and [False] after
    exactly one message otherwise. *)
Theorem check_probs_format_on_values (d : list (pobj * pobj)) :
  (∀ kv, kv ∈ d → is_otuple kv.1 || is_ostr kv.1 = true) →
  if forallb (λ kv, good_prob_cell kv.2) d
  then check_probs_format (ODict d) = ([], Ok true)
  else ∃ m, check_probs_format (ODict d) = ([m], Ok false).
Proof.
  intros Hk. pose proof (check_prob_spans_spec d Hk) as Hs. simpl.
  destruct (forallb (λ kv, good_prob_cell kv.2) d).
  - by rewrite Hs.
  - destruct Hs as [m ->]. by exists m.
Qed.

(** The Python value of a probability chart of the engine. *)
Definition enc_ospan (sp : nat * nat) : pobj :=
  OTuple [OInt (Z.of_nat sp.1); OInt (Z.of_nat sp.2)].

Definition enc_pcell (c : list (string * float)) : pobj :=
  ODict ((λ e, (OStr e.1, OFloat e.2)) <$> c).

Definition enc_probs (items : list (nat * nat * list (string * float))) : pobj :=
  ODict ((λ it, (enc_ospan it.1, enc_pcell it.2)) <$> items).

Lemma good_enc_probs (items : list (nat * nat * list (string * float))) :
  forallb (λ kv : pobj * pobj, good_prob_cell kv.2)
    ((λ it, (enc_ospan it.1, enc_pcell it.2)) <$> items)
  = forallb (λ it, forallb (λ e, negb (fgt e.2 fzero)) it.2) items.
Proof.
  induction items as [|it items IH]; [done|].
  rewrite fmap_cons. cbn [forallb snd]. rewrite IH. f_equal.
  unfold enc_pcell. cbn [good_prob_cell].
  induction (it.2) as [|e c IHc]; [done|].
  rewrite fmap_cons. cbn [forallb]. by rewrite IHc.
Qed.

Lemma enc_probs_keys (items : list (nat * nat * list (string * float))) kv :
  kv ∈ (λ it, (enc_ospan it.1, enc_pcell it.2)) <$> items →
  is_otuple kv.1 || is_ostr kv.1 = true.
Proof. by intros (it & -> & _)%list_elem_of_fmap. Qed.
End probs_validator.

(** ** The charts of the engine and the validators *)

Section validated_output.
Context {FO : FloatOps} {SO : SetOrder} {FL : FloatLaws}.

Lemma leaf_cell_NoDup tok ini :
  NoDup (od_keys (leaf_cell tok ini).1) ∧ NoDup (od_keys (leaf_cell tok ini).2).
Proof.
  unfold leaf_cell. induction ini as [|ab ini [IH1 IH2]] using rev_ind.
  - split; apply NoDup_nil_2.
  - rewrite foldl_snoc. unfold leaf_step at 1 3. cbn [fst snd].
    split; by apply od_set_keys_NoDup.
Qed.

Lemma cell_step_NoDup cp c :
  NoDup (od_keys cp.1) ∧ NoDup (od_keys cp.2) →
  NoDup (od_keys (cell_step cp c).1) ∧ NoDup (od_keys (cell_step cp c).2).
Proof.
  intros [H1 H2]. unfold cell_step. destruct (od_get c.1.1 cp.2); [|done].
  destruct (fgt c.1.2 f); [|done]. cbn [fst snd].
  split; by apply od_set_keys_NoDup.
Qed.

Lemma fill_cell_NoDup cs :
  NoDup (od_keys (fill_cell cs).1) ∧ NoDup (od_keys (fill_cell cs).2).
Proof.
  unfold fill_cell.
  assert (NoDup (od_keys (foldl cell_init ([], []) cs.*1.*1).1) ∧
          NoDup (od_keys (foldl cell_init ([], []) cs.*1.*1).2)) as Hinit.
  { induction (cs.*1.*1) as [|l ls [IH1 IH2]] using rev_ind.
    - split; apply NoDup_nil_2.
    - rewrite foldl_snoc. unfold cell_init at 1 3. cbn [fst snd].
      split; by apply od_set_keys_NoDup. }
  revert Hinit. generalize (foldl cell_init ([], []) cs.*1.*1).
  induction cs as [|c cs IH]; intros cp Hcp; [done|]. simpl.
  apply IH. by apply cell_step_NoDup.
Qed.

(** The cells of the returned charts have no repeated key. *)
Lemma chart_cells_NoDup g toks tp :
  chart_eqs g toks (λ i j, i < j ≤ length toks) tp →
  (∀ sp c, tp.1 !! sp = Some c → NoDup (od_keys c)) ∧
  (∀ sp c, tp.2 !! sp = Some c → NoDup (od_keys c)).
Proof.
  intros (E1 & E2 & E3 & E4).
  assert (∀ i j, i < j ≤ length toks →
            ∃ cp : cell, tp.1 !! (i, j) = Some cp.1 ∧ tp.2 !! (i, j) = Some cp.2 ∧
                         NoDup (od_keys cp.1) ∧ NoDup (od_keys cp.2)) as Hcell.
  { intros i j Hij. destruct (decide (j = i + 1)) as [->|Hlong].
    - destruct (lookup_lt_is_Some_2 toks i) as [tok Htok]; [lia|].
      destruct (E3 i tok Hij Htok) as [Et Ep].
      exists (leaf_cell tok (leaf_pairs g tok)). split; [done|]. split; [done|].
      apply leaf_cell_NoDup.
    - destruct (E4 i j ltac:(lia) Hij) as [Et Ep].
      exists (fill_cell (scored g tp.2 i j)). split; [done|]. split; [done|].
      apply fill_cell_NoDup. }
  split; intros [i j] c Hc.
  - destruct (Hcell i j) as (cp & Ht & _ & Hn & _); [apply E1; eauto|]. congruence.
  - destruct (Hcell i j) as (cp & _ & Hp & _ & Hn); [apply E2; eauto|]. congruence.
Qed.

(** X13.  With rule probabilities in (0,1], the two charts returned by
    [parse_with_backpointers] pass [check_table_format] and
    [check_probs_format], in whatever order their spans are iterated: the
    two assertions of the script hold. *)
Theorem parse_output_validates (g : Pcfg) (toks : list string) :
  unit_probs g →
  ∃ tb pb g', parse_with_backpointers toks g = (Ok (tb, pb), g') ∧
    ∀ titems pitems,
      (∀ it, it ∈ titems → tb !! it.1 = Some it.2) →
      (∀ it, it ∈ pitems → pb !! it.1 = Some it.2) →
      check_table_format (enc_table titems) = ([], Ok true) ∧
      check_probs_format (enc_probs pitems) = ([], Ok true).
Proof.
  intros Hu. destruct (parse_returns g toks Hu) as (tb & pb & g' & Hrun & Heqs).
  exists tb, pb, g'. split; [done|].
  destruct (entries_final g toks (tb, pb) Hu Heqs) as [Hp Ht].
  destruct (chart_cells_NoDup g toks (tb, pb) Heqs) as [Hnt Hnp].
  cbn [fst snd] in *.
  intros titems pitems Htb Hpb. split.
  - unfold enc_table.
    pose proof (check_spans_spec _ (enc_table_keys titems)) as Hs.
    rewrite good_enc_table in Hs.
    assert (forallb (λ it, forallb (λ e, negb (is_sentinel e.2)) it.2) titems = true)
      as Hall.
    { apply forallb_forall. intros it Hit%list_elem_of_In.
      apply forallb_forall. intros [A b] He%list_elem_of_In. simpl.
      assert (b ≠ Sentinel) as Hb.
      { apply (Ht it.1 it.2 A); [by apply Htb|].
        apply od_get_elem_of; [|done]. apply (Hnt it.1). by apply Htb. }
      by destruct b. }
    rewrite Hall in Hs. simpl. by rewrite Hs.
  - unfold enc_probs.
    pose proof (check_prob_spans_spec _ (enc_probs_keys pitems)) as Hs.
    rewrite good_enc_probs in Hs.
    assert (forallb (λ it, forallb (λ e, negb (fgt e.2 fzero)) it.2) pitems = true)
      as Hall.
    { apply forallb_forall. intros it Hit%list_elem_of_In.
      apply forallb_forall. intros [A v] He%list_elem_of_In. simpl.
      assert (logscore v) as [_ Hle].
      { apply (Hp it.1 it.2 A); [by apply Hpb|].
        apply od_get_elem_of; [|done]. apply (Hnp it.1). by apply Hpb. }
      by rewrite Hle. }
    rewrite Hall in Hs. simpl. by rewrite Hs.
Qed.
End validated_output.

(** ** What a returned chart implies about the grammar *)

Section partial.
Context {FO : FloatOps} {SO : SetOrder}.

(** If [parse_with_backpointers] returns, [math.log2] was defined on the
    probability of every unary rule that matches a token. *)
Lemma parse_pc (g0 : Pcfg) (toks : list string) :
  pc g0 (parse_with_backpointers toks)
    (λ _, ∀ tok r, tok ∈ toks → r ∈ rules g0 [tok] → ∃ s, log2 (r_prob r) = Ok s).
Proof.
  unfold parse_with_backpointers.
  apply pc_bind.
  apply (pc_mono _ _ (λ init, init = leaf_pairs g0 <$> toks)).
  { eapply pc_mono.
    - apply (pc_for g0 (λ pre acc, acc = leaf_pairs g0 <$> pre)); [done|].
      intros pre tok post acc _ ->. apply pc_bind, pc_rhs_get, pc_ret.
      by rewrite fmap_app.
    - done. }
  intros init ->.
  apply pc_bind.
  apply (pc_mono _ _ (λ _, ∀ i tok ab, toks !! i = Some tok → ab ∈ leaf_pairs g0 tok →
                             ∃ s, log2 ab.2 = Ok s)).
  - eapply pc_mono.
    + apply (pc_for g0 (λ pre _, ∀ i tok ab, i ∈ pre → toks !! i = Some tok →
                                   ab ∈ leaf_pairs g0 tok → ∃ s, log2 ab.2 = Ok s)).
      { by intros i tok ab ?%elem_of_nil. }
      intros pre i post tp Hxs Hpre. cbv zeta.
      apply pc_bind, pc_lift. intros ini Hini.
      eapply pc_mono.
      * apply (pc_for g0 (λ pre' _, ∀ ab, ab ∈ pre' → ∃ s, log2 ab.2 = Ok s)).
        { by intros ab ?%elem_of_nil. }
        intros pre' ab post' tp' _ Hpre'.
        apply pc_bind, pc_lift. intros tok _.
        apply pc_bind, pc_lift. intros tb' _.
        apply pc_bind, pc_lift. intros s Hs.
        apply pc_bind, pc_lift. intros pb' _.
        apply pc_ret.
        intros ab' [Hab'|Hab'%list_elem_of_singleton]%elem_of_app; [by apply Hpre'|].
        subst ab'. eauto.
      * simpl. intros _ Hini_ok i' tok ab [Hi'|Hi'%list_elem_of_singleton]%elem_of_app
          Htok Hab; [by eapply Hpre|].
        subst i'. apply Hini_ok.
        unfold index in Hini. rewrite list_lookup_fmap, Htok in Hini. simpl in Hini.
        by injection Hini as <-.
    + simpl. intros _ Hall i tok ab Htok Hab. apply (Hall i tok ab); [|done|done].
      apply elem_of_range. apply lookup_lt_Some in Htok. lia.
  - intros tp Hall. apply pc_frame.
    + repeat first
        [ apply frame_ret | apply frame_lift | apply frame_rhs_get
        | apply frame_bind | apply frame_for
        | match goal with
          | |- frame (if ?b then _ else _) => destruct b
          | |- ∀ _, _ => intro
          end ].
    + intros tok r [i Hi]%list_elem_of_lookup_1 Hr.
      apply (Hall i tok (r_lhs r, r_prob r) Hi).
      unfold leaf_pairs. rewrite set_list_elem. apply list_elem_of_fmap. by exists r.
Qed.

(** X14.  When a unary rule that matches a token of the input has a
    probability outside the domain of [math.log2] (0.0, say),
    [parse_with_backpointers] raises and returns no chart. *)
Theorem parse_raises_on_undefined_log2 (g : Pcfg) (toks : list string)
    (tok : string) (r : rule) (e : exn) :
  tok ∈ toks → r ∈ rules g [tok] → log2 (r_prob r) = Raise e →
  ∃ e' g', parse_with_backpointers toks g = (Raise e', g').
Proof.
  intros Htok Hr He.
  destruct (parse_with_backpointers toks g) as [[tp|e'] g'] eqn:Hrun; [|eauto].
  exfalso. destruct (parse_pc g toks g tp g' (gext_refl g) Hrun) as [_ Hall].
  destruct (Hall tok r Htok Hr) as [s Hs]. congruence.
Qed.
End partial.

(** ** The cell of one token: the pair iterated last is kept *)

Section leaf_cells.
Context {FO : FloatOps} {SO : SetOrder}.

Lemma leaf_cell_last tok (ini : list (string * float)) A :
  od_get A (leaf_cell tok ini).2
  = (λ ab, res_get (log2 ab.2)) <$> last (filter (λ ab, ab.1 = A) ini) ∧
  od_get A (leaf_cell tok ini).1
  = (λ _, Leaf tok) <$> last (filter (λ ab, ab.1 = A) ini).
Proof.
  induction ini as [|[a p] ini [IH1 IH2]] using rev_ind; [done|].
  rewrite leaf_cell_snoc, filter_app. cbn [fst snd].
  destruct (decide (a = A)) as [->|Hne].
  - rewrite !od_get_set_eq, (filter_cons_True _ (A, p) []) by done.
    by rewrite filter_nil, last_snoc.
  - rewrite !od_get_set_ne by done.
    rewrite (filter_cons_False _ (a, p) []) by done. by rewrite app_nil_r.
Qed.

(** X15.  In the charts that the engine returns, the entry of a
    nonterminal in the cell of a single token comes from the pair
    [(lhs, prob)] for it that the iteration over [set(init[i])] yields
    last: the score is the logarithm of that probability, whether or not an
    earlier pair had a greater one, and the backpointer is the token. *)
Theorem leaf_entry_is_last_pair (g : Pcfg) (toks : list string) tb pb g' :
  parse_with_backpointers toks g = (Ok (tb, pb), g') →
  ∀ i tok A p, toks !! i = Some tok →
    last (filter (λ ab, ab.1 = A) (leaf_pairs g tok)) = Some (A, p) →
    ∃ s, log2 p = Ok s ∧
         od_get A (chart_cell pb (i, i + 1)) = Some s ∧
         od_get A (chart_cell tb (i, i + 1)) = Some (Leaf tok).
Proof.
  intros Hrun i tok A p Htok Hlast.
  destruct (parse_returned g toks tb pb g' Hrun) as [Heqs [Hlog _]].
  destruct Heqs as (_ & _ & E3 & _). cbn [fst snd] in *.
  assert (i < i + 1 ≤ length toks) as Hi by (apply lookup_lt_Some in Htok; lia).
  destruct (E3 i tok Hi Htok) as [Et Ep].
  unfold chart_cell. rewrite Et, Ep. simpl.
  destruct (leaf_cell_last tok (leaf_pairs g tok) A) as [-> ->].
  rewrite Hlast. simpl.
  assert ((A, p) ∈ leaf_pairs g tok) as Hin.
  { apply last_Some in Hlast as [l' Hl'].
    assert ((A, p) ∈ filter (λ ab, ab.1 = A) (leaf_pairs g tok)) as Hf.
    { rewrite Hl'. apply elem_of_app. right. by left. }
    by apply list_elem_of_filter in Hf as [_ ?]. }
  destruct (Hlog i tok (A, p) Hi Htok Hin) as [s Hs]. simpl in Hs.
  exists s. by rewrite Hs.
Qed.
End leaf_cells.

(** ** Concrete runs for the further properties *)

Module MoreExamples.
Import Fixed FixedLaws.

(** The lines of the example grammar. *)
Definition dogs_lines : list line :=
  [ RuleLine ("S", ["NP"; "VP"], Fx 1024);
    RuleLine ("NP", ["dogs"], Fx 1024);
    RuleLine ("VP", ["bark"], Fx 1024);
    StartLine "S" ].

(** [A -> x ;0.0], start [A]. *)
Definition zero_rule : Pcfg :=
  read_rules [ RuleLine ("A", ["x"], Fx 0); StartLine "A" ].

(** A table keyed by a string. *)
Definition keyed_by_string : list (pyval * pyval) :=
  [ (PStr "ab", PDict [(PStr "S", PStr "x")]) ].

Definition probs_keyed_by_string : list (pobj * pobj) :=
  [ (OStr "ab", ODict [(OStr "S", OFloat (Fx 0))]) ].
End MoreExamples.

Lemma read_rules_then_is_in_language_witness :
  ["dogs"; "bark"] ≠ [] ∧
  ∃ b g',
    is_in_language ["dogs"; "bark"] (read_rules MoreExamples.dogs_lines) = (Ok b, g') ∧
    (b = true ↔ ∃ S, last (starts_of MoreExamples.dogs_lines) = Some S ∧
                     generates (rules_of MoreExamples.dogs_lines) S ["dogs"; "bark"]).
Proof.
  split; [discriminate|].
  apply (read_rules_then_is_in_language MoreExamples.dogs_lines ["dogs"; "bark"]).
  discriminate.
Defined.

Lemma chart_spans_and_keys_witness :
  unit_probs Fixed.dogs_bark ∧
  ∃ tb pb g',
    parse_with_backpointers ["dogs"; "bark"] Fixed.dogs_bark = (Ok (tb, pb), g') ∧
    (∀ i j, is_Some (tb !! (i, j)) ↔ i < j ≤ 2) ∧
    (∀ i j, is_Some (pb !! (i, j)) ↔ i < j ≤ 2) ∧
    (∀ i j, od_keys (chart_cell tb (i, j)) = od_keys (chart_cell pb (i, j))) ∧
    (∀ i j A, i < j ≤ 2 →
       A ∈ od_keys (chart_cell pb (i, j)) ↔
       derives Fixed.dogs_bark A (slice ["dogs"; "bark"] i j)).
Proof.
  split; [exact Examples.dogs_bark_unit|].
  exact (chart_spans_and_keys (FL := FixedLaws.fx_laws) Fixed.dogs_bark ["dogs"; "bark"]
           Examples.dogs_bark_unit).
Defined.

Lemma get_tree_is_best_parse_witness :
  unit_probs Fixed.dogs_bark ∧ unary_functional Fixed.dogs_bark ∧
  ∃ tb pb g',
    parse_with_backpointers ["dogs"; "bark"] Fixed.dogs_bark = (Ok (tb, pb), g') ∧
    ∀ i j A v, od_get A (chart_cell pb (i, j)) = Some v →
      ∀ fuel, j - i ≤ fuel →
      ∃ dt, get_tree fuel tb i j A = Ok (tree_of dt) ∧
        derivation Fixed.dogs_bark dt ∧ root dt = A ∧
        yield dt = slice ["dogs"; "bark"] i j ∧ score dt = Ok v ∧
        ∀ dt', derivation Fixed.dogs_bark dt' → root dt' = A →
          yield dt' = slice ["dogs"; "bark"] i j → ∃ s, score dt' = Ok s ∧ fle s v.
Proof.
  split; [exact Examples.dogs_bark_unit|]. split; [exact Examples.dogs_bark_functional|].
  exact (get_tree_is_best_parse (FL := FixedLaws.fx_laws) Fixed.dogs_bark
           ["dogs"; "bark"] Examples.dogs_bark_unit Examples.dogs_bark_functional).
Defined.

Lemma membership_decides_get_tree_witness :
  unit_probs Fixed.dogs_bark ∧ ["dogs"; "bark"] ≠ [] ∧
  startsymbol Fixed.dogs_bark = Some "S" ∧
  ∃ b g1 tb pb g2,
    is_in_language ["dogs"; "bark"] Fixed.dogs_bark = (Ok b, g1) ∧
    parse_with_backpointers ["dogs"; "bark"] Fixed.dogs_bark = (Ok (tb, pb), g2) ∧
    ∀ fuel, 2 ≤ fuel →
      if b then ∃ t, get_tree fuel tb 0 2 "S" = Ok t ∧ leaves t = ["dogs"; "bark"]
      else get_tree fuel tb 0 2 "S" = Raise KeyError.
Proof.
  split; [exact Examples.dogs_bark_unit|]. split; [discriminate|]. split; [reflexivity|].
  apply (membership_decides_get_tree (FL := FixedLaws.fx_laws) Fixed.dogs_bark
           ["dogs"; "bark"] "S" Examples.dogs_bark_unit); [discriminate|reflexivity].
Defined.

Lemma check_table_format_on_values_witness :
  (∀ kv, kv ∈ MoreExamples.keyed_by_string → is_tuple kv.1 || is_str kv.1 = true) ∧
  check_table_format (PDict MoreExamples.keyed_by_string) = ([], Ok true).
Proof.
  assert (∀ kv, kv ∈ MoreExamples.keyed_by_string →
            is_tuple kv.1 || is_str kv.1 = true) as Hk.
  { intros kv Hin. apply list_elem_of_singleton in Hin. subst kv. reflexivity. }
  split; [exact Hk|].
  exact (check_table_format_on_values MoreExamples.keyed_by_string Hk).
Defined.

Lemma check_probs_format_on_values_witness :
  (∀ kv, kv ∈ MoreExamples.probs_keyed_by_string →
     is_otuple kv.1 || is_ostr kv.1 = true) ∧
  check_probs_format (ODict MoreExamples.probs_keyed_by_string) = ([], Ok true).
Proof.
  assert (∀ kv, kv ∈ MoreExamples.probs_keyed_by_string →
            is_otuple kv.1 || is_ostr kv.1 = true) as Hk.
  { intros kv Hin. apply list_elem_of_singleton in Hin. subst kv. reflexivity. }
  split; [exact Hk|].
  exact (check_probs_format_on_values MoreExamples.probs_keyed_by_string Hk).
Defined.

Lemma parse_output_validates_witness :
  unit_probs Fixed.dogs_bark ∧
  ∃ tb pb g',
    parse_with_backpointers ["dogs"; "bark"] Fixed.dogs_bark = (Ok (tb, pb), g') ∧
    ∀ titems pitems,
      (∀ it, it ∈ titems → tb !! it.1 = Some it.2) →
      (∀ it, it ∈ pitems → pb !! it.1 = Some it.2) →
      check_table_format (enc_table titems) = ([], Ok true) ∧
      check_probs_format (enc_probs pitems) = ([], Ok true).
Proof.
  split; [exact Examples.dogs_bark_unit|].
  exact (parse_output_validates (FL := FixedLaws.fx_laws) Fixed.dogs_bark
           ["dogs"; "bark"] Examples.dogs_bark_unit).
Defined.

Lemma parse_raises_on_undefined_log2_witness :
  "x" ∈ ["x"] ∧
  (("A", ["x"], Fixed.Fx 0) : @rule Fixed.fx_ops) ∈ rules MoreExamples.zero_rule ["x"] ∧
  log2 (Fixed.Fx 0) = Raise ValueError ∧
  ∃ e' g', parse_with_backpointers ["x"] MoreExamples.zero_rule = (Raise e', g').
Proof.
  assert ((("A", ["x"], Fixed.Fx 0) : @rule Fixed.fx_ops)
            ∈ rules MoreExamples.zero_rule ["x"]) as Hr.
  { assert (rules MoreExamples.zero_rule ["x"]
            = [(("A", ["x"], Fixed.Fx 0) : @rule Fixed.fx_ops)]) as ->
      by (vm_compute; reflexivity).
    by left. }
  split; [by left|]. split; [exact Hr|]. split; [reflexivity|].
  apply (parse_raises_on_undefined_log2 MoreExamples.zero_rule ["x"] "x"
           (("A", ["x"], Fixed.Fx 0) : @rule Fixed.fx_ops) ValueError);
    [by left|exact Hr|reflexivity].
Defined.

Lemma leaf_entry_is_last_pair_witness :
  ∃ tb pb g',
    parse_with_backpointers ["x"] Examples.twice = (Ok (tb, pb), g') ∧
    leaf_pairs Examples.twice "x" = [("A", Fixed.Fx 512); ("A", Fixed.Fx 256)] ∧
    od_get "A" (chart_cell pb (0, 1)) = Some (Fixed.Fx (-2048)) ∧
    od_get "A" (chart_cell tb (0, 1)) = Some (Leaf "x").
Proof.
  eexists _, _, _. split; [vm_compute; reflexivity|].
  split; [vm_compute; reflexivity|].
  eassert (parse_with_backpointers ["x"] Examples.twice = (Ok (_, _), _)) as Hrun
    by (vm_compute; reflexivity).
  destruct (leaf_entry_is_last_pair _ _ _ _ _ Hrun 0 "x" "A" (Fixed.Fx 256))
    as (s & Hs & Hp & Ht).
  - reflexivity.
  - vm_compute. reflexivity.
  - vm_compute in Hs. injection Hs as <-. by split.
Defined.
